(** * tinysearch: a shallow embedding of [tiny.py]

    The development follows the three phases of the program:
    - Phase 1, [words]: the tokenizer;
    - Phase 2, [make_index]: the in-memory index and the three files of
      the [.tiny] directory;
    - Phase 3, [Index]: [lookup] and [search] over those files.

    Conventions of the embedding.
    - A Python [int] is a [Z]; [len l] is [Z.of_nat (length l)].
    - A Python [str] is a [string] whose characters are the code points
      below 256; on these, [str.lower] maps one character to one character
      and the class [\w] of [re] is [str.isalnum] or the underscore.
    - [bytes] is [list byte].
    - A [dict] (also a [defaultdict]) is an insertion-ordered association
      list with one entry per key, because the order of [items()] decides
      the layout of [index.dat].
    - An exception is a [Raise e] result; every function that can raise
      returns a [result].
    - [struct.pack("=II", ...)] and [array.array('I').tobytes()] use the
      byte order of the host, which is a parameter ([byteorder], Python's
      [sys.byteorder]); a C [unsigned int] has four bytes.
    - A table written with [csv.writer] is the list of the rows given to
      [writerow]. Reading it back is [Index_open]: [csv.reader] returns a
      field as it was written, except for what the text layer does to it
      ([csv_field]): the files are opened without [newline=''], on a host
      whose line separator is the line feed, so a carriage return in a
      quoted field comes back as a line feed, and a field of more than
      131072 characters is refused. A number is read back as it was
      written (the counts of an index have few digits).
    - Positions and lengths in a file are within the range of a file
      offset.
    - [float] arithmetic is an interface ([Float]); exact real arithmetic
      is one instance of it. *)

From Stdlib Require Import String Ascii Strings.Byte.
From Stdlib Require Import ZArith List Bool Lia Sorted Permutation.
From Stdlib Require Import Reals Lra.
Import ListNotations.

Local Open Scope string_scope.
Local Open Scope Z_scope.
Local Open Scope list_scope.

(** ** Exceptions *)

Inductive exn : Type :=
| OverflowError      (* array.append of a value that does not fit *)
| StructError        (* struct.error *)
| ValueError
| AssertionError
| IndexError
| ZeroDivisionError
| OSError
| CsvError.          (* _csv.Error *)

Inductive result (A : Type) : Type :=
| Ok (a : A)
| Raise (e : exn).

Arguments Ok {A} a.
Arguments Raise {A} e.

Definition bind {A B : Type} (r : result A) (k : A -> result B) : result B :=
  match r with
  | Ok a => k a
  | Raise e => Raise e
  end.

Notation "x <- c ;; k" := (bind c (fun x => k))
  (at level 61, c at next level, right associativity).
Notation "' p <- c ;; k" := (bind c (fun x => let p := x in k))
  (at level 61, p pattern, c at next level, right associativity).

Definition len {A : Type} (l : list A) : Z := Z.of_nat (length l).

(** ** Insertion-ordered dictionaries *)

Section OrderedDict.
Context {K V : Type}.
Variable eqb : K -> K -> bool.

Definition dict : Type := list (K * V).

(** [d.get(k)] *)
Fixpoint dict_get (k : K) (d : dict) : option V :=
  match d with
  | [] => None
  | (k', v) :: d' => if eqb k k' then Some v else dict_get k d'
  end.

(** [d[k] = v]: an existing key keeps its place, a new one goes last. *)
Fixpoint dict_set (k : K) (v : V) (d : dict) : dict :=
  match d with
  | [] => [(k, v)]
  | (k', v') :: d' =>
      if eqb k k' then (k', v) :: d' else (k', v') :: dict_set k v d'
  end.

(** [k in d] *)
Definition dict_mem (k : K) (d : dict) : bool :=
  match dict_get k d with Some _ => true | None => false end.

(** [d[k]] of a [defaultdict] whose factory returns [dflt]. *)
Definition dict_get_default (dflt : V) (k : K) (d : dict) : V :=
  match dict_get k d with Some v => v | None => dflt end.

Definition keys (d : dict) : list K := map fst d.
Definition values (d : dict) : list V := map snd d.
End OrderedDict.

Arguments dict : clear implicits.

(** ** Phase 1: split text into words *)

Definition between (lo hi n : nat) : bool := (lo <=? n)%nat && (n <=? hi)%nat.

(** [c.lower()] for a code point below 256. On these code points
    [str.lower] works character by character and keeps the length; it does
    not on every Python string (the lower case of a capital sigma depends
    on where it stands), so what is proved of [lower] is proved of texts
    of code points below 256. *)
Definition lower_char (c : ascii) : ascii :=
  let n := nat_of_ascii c in
  if between 65 90 n || between 192 214 n || between 216 222 n
  then ascii_of_nat (n + 32)
  else c.

Fixpoint lower (s : string) : string :=
  match s with
  | EmptyString => EmptyString
  | String c s' => String (lower_char c) (lower s')
  end.

(** The class [\w] of a [str] pattern: alphanumeric or underscore. *)
Definition is_word (c : ascii) : bool :=
  let n := nat_of_ascii c in
  between 48 57 n || between 65 90 n || (n =? 95)%nat || between 97 122 n
  || (n =? 170)%nat || between 178 179 n || (n =? 181)%nat
  || between 185 186 n || between 188 190 n
  || between 192 214 n || between 216 246 n || between 248 255 n.

(** [re.findall(r"\w+", s)]: the maximal runs of word characters, left to
    right; [cur] is the run being read. *)
Fixpoint findall_word (s : string) (cur : string) : list string :=
  match s with
  | EmptyString => if (String.length cur =? 0)%nat then [] else [cur]
  | String c s' =>
      if is_word c then findall_word s' (String.append cur (String c EmptyString))
      else if (String.length cur =? 0)%nat then findall_word s' EmptyString
           else cur :: findall_word s' EmptyString
  end.

Definition words (text : string) : list string :=
  findall_word (lower text) EmptyString.

(** ** Fixed-width unsigned integers in the byte order of the host *)

Inductive byteorder : Type := little | big.

Definition byte_of_Z (z : Z) : byte :=
  match Byte.of_N (Z.to_N (z mod 256)) with
  | Some b => b
  | None => x00
  end.

Definition Z_of_byte (b : byte) : Z := Z.of_N (Byte.to_N b).

Definition uint32_max : Z := 4294967295.

(** The four bytes of [n], least significant first. *)
Definition le_bytes (n : Z) : list byte :=
  [byte_of_Z n; byte_of_Z (Z.shiftr n 8);
   byte_of_Z (Z.shiftr n 16); byte_of_Z (Z.shiftr n 24)].

Definition le_value (bs : list byte) : Z :=
  fold_right (fun b acc => Z_of_byte b + 256 * acc) 0 bs.

Definition uint_bytes (bo : byteorder) (n : Z) : list byte :=
  match bo with
  | little => le_bytes n
  | big => rev (le_bytes n)
  end.

Definition uint_value (bo : byteorder) (bs : list byte) : Z :=
  match bo with
  | little => le_value bs
  | big => le_value (rev bs)
  end.

Definition fits_uint32 (n : Z) : bool := (0 <=? n) && (n <=? uint32_max).

(** [struct.pack("=II", a, b)] *)
Definition pack_II (bo : byteorder) (a b : Z) : result (list byte) :=
  if fits_uint32 a && fits_uint32 b
  then Ok (uint_bytes bo a ++ uint_bytes bo b)
  else Raise StructError.

(** [struct.unpack("=II", bs)] *)
Definition unpack_II (bo : byteorder) (bs : list byte) : result (Z * Z) :=
  if (length bs =? 8)%nat
  then Ok (uint_value bo (firstn 4 bs), uint_value bo (skipn 4 bs))
  else Raise StructError.

(** [array.array('I')]: the list of its items, each a C [unsigned int]. *)
Definition array_I : Type := list Z.

(** [a.append(i)] *)
Definition array_append (a : array_I) (i : Z) : result array_I :=
  if fits_uint32 i then Ok (a ++ [i]) else Raise OverflowError.

(** [a.tobytes()] *)
Definition tobytes (bo : byteorder) (a : array_I) : list byte :=
  flat_map (uint_bytes bo) a.

Fixpoint items_of_bytes (bo : byteorder) (n : nat) (bs : list byte) : array_I :=
  match n with
  | O => []
  | S n' => uint_value bo (firstn 4 bs) :: items_of_bytes bo n' (skipn 4 bs)
  end.

(** [a = array.array('I'); a.frombytes(bs)] *)
Definition frombytes (bo : byteorder) (bs : list byte) : result array_I :=
  if (Nat.modulo (length bs) 4 =? 0)%nat
  then Ok (items_of_bytes bo (Nat.div (length bs) 4) bs)
  else Raise ValueError.

(** [bs[a:b]] for [0 <= a <= b] *)
Definition slice {A : Type} (l : list A) (a b : Z) : list A :=
  firstn (Z.to_nat (b - a)) (skipn (Z.to_nat a) l).

(** [l[i]] on a list, with Python's negative indices. *)
Definition list_getitem {A : Type} (l : list A) (i : Z) : result A :=
  let j := if i <? 0 then i + len l else i in
  if j <? 0 then Raise IndexError
  else match nth_error l (Z.to_nat j) with
       | Some a => Ok a
       | None => Raise IndexError
       end.

(** ** Phase 2: create an index *)

Record Document : Type := mkDocument { filename : string; size : Z }.
Record Hit : Type := mkHit { doc_id : Z; offsets : array_I }.

(** The hit whose array has become [offs] (arrays are updated in place). *)
Definition with_offsets (hit : Hit) (offs : array_I) : Hit :=
  mkHit hit.(doc_id) offs.

(** The three files of the [.tiny] directory. *)
Record TinyDir : Type := mkTinyDir {
  documents_csv : list (string * Z);
  index_dat : list byte;
  terms_csv : list (string * Z * Z)
}.

(** [for i, word in enumerate(words(text)): doc_index[word].offsets.append(i)];
    a missing word is first given [Hit(doc_id, array.array('I'))]. *)
Fixpoint index_words (doc_id : Z) (ws : list string) (i : Z)
    (doc_index : dict string Hit) : result (dict string Hit) :=
  match ws with
  | [] => Ok doc_index
  | word :: rest =>
      let hit := dict_get_default String.eqb (mkHit doc_id []) word doc_index in
      offs <- array_append (offsets hit) i ;;
      index_words doc_id rest (i + 1)
        (dict_set String.eqb word (with_offsets hit offs) doc_index)
  end.

(** [for word, hit in doc_index.items(): index[word].append(hit)] *)
Definition merge_doc_index (doc_index : dict string Hit)
    (index : dict string (list Hit)) : dict string (list Hit) :=
  fold_left
    (fun index (item : string * Hit) =>
       let (word, hit) := item in
       dict_set String.eqb word
         (dict_get_default String.eqb [] word index ++ [hit]) index)
    doc_index index.

(** The loop over the text files, each given as its relative path and its
    text, in the order of [dir.glob]. *)
Fixpoint index_files (files : list (string * string))
    (documents : list Document) (index : dict string (list Hit))
    : result (list Document * dict string (list Hit)) :=
  match files with
  | [] => Ok (documents, index)
  | (path, text) :: rest =>
      let doc_words := words text in
      let doc := mkDocument path (len doc_words) in
      let doc_id := len documents in
      let documents := documents ++ [doc] in
      doc_index <- index_words doc_id (words text) 0 [] ;;
      index_files rest documents (merge_doc_index doc_index index)
  end.

(** The loop [for hit in hits] that fills [bytes]. *)
Fixpoint pack_hits (bo : byteorder) (hits : list Hit) (bytes : list byte)
    : result (list byte) :=
  match hits with
  | [] => Ok bytes
  | hit :: rest =>
      header <- pack_II bo hit.(doc_id) (len hit.(offsets)) ;;
      pack_hits bo rest ((bytes ++ header) ++ tobytes bo hit.(offsets))
  end.

(** The loop [for word, hits in index.items()] that writes [index.dat];
    [f] is what has been written so far. *)
Fixpoint write_index (bo : byteorder) (items : list (string * list Hit))
    (start : Z) (f : list byte) (terms : dict string (Z * Z))
    : result (list byte * dict string (Z * Z)) :=
  match items with
  | [] => Ok (f, terms)
  | (word, hits) :: rest =>
      bytes <- pack_hits bo hits [] ;;
      write_index bo rest (start + len bytes) (f ++ bytes)
        (dict_set String.eqb word (start, len bytes) terms)
  end.

Definition make_index (bo : byteorder) (files : list (string * string))
    : result TinyDir :=
  built <- index_files files [] [] ;;
  let (documents, index) := built : list Document * dict string (list Hit) in
  let documents_csv := map (fun doc => (doc.(filename), doc.(size))) documents in
  written <- write_index bo index 0 [] [] ;;
  let (index_dat, terms) := written : list byte * dict string (Z * Z) in
  let terms_csv :=
    map (fun row : string * (Z * Z) =>
           let (word, range) := row in (word, fst range, snd range)) terms in
  Ok (mkTinyDir documents_csv index_dat terms_csv).

(** ** Phase 3: querying the index *)

Record Index : Type := mkIndex {
  index_file : list byte;
  documents : list Document;
  terms : dict string (Z * Z)
}.

(** The body of [Index.__init__] on the rows that [csv.reader] gives. *)
Definition Index_init (tiny_dir : TinyDir) : Index :=
  mkIndex
    tiny_dir.(index_dat)
    (map (fun row : string * Z => let (line, max_tf) := row in
                                  mkDocument line max_tf)
         tiny_dir.(documents_csv))
    (fold_left
       (fun terms (row : string * Z * Z) =>
          let '(word, start, length) := row in
          dict_set String.eqb word (start, length) terms)
       tiny_dir.(terms_csv) []).

(** What the text layer does to a line end: [\r\n] and [\r] are read as
    [\n]. *)
Definition CR : ascii := ascii_of_nat 13.
Definition LF : ascii := ascii_of_nat 10.

Fixpoint universal_newlines (s : string) : string :=
  match s with
  | EmptyString => EmptyString
  | String c rest =>
      if Ascii.eqb c CR then
        match rest with
        | EmptyString => String LF EmptyString
        | String c' rest' =>
            if Ascii.eqb c' LF then String LF (universal_newlines rest')
            else String LF (universal_newlines rest)
        end
      else String c (universal_newlines rest)
  end.

(** [csv.field_size_limit()] *)
Definition field_size_limit : Z := 131072.

(** A field that [csv.writer] wrote, as [csv.reader] returns it. *)
Definition csv_field (s : string) : result string :=
  let field := universal_newlines s in
  if Z.of_nat (String.length field) <=? field_size_limit then Ok field
  else Raise CsvError.

(** [csv.reader(open(tiny_dir / "documents.csv"))] *)
Fixpoint read_documents_csv (rows : list (string * Z))
    : result (list (string * Z)) :=
  match rows with
  | [] => Ok []
  | (name, size) :: rest =>
      line <- csv_field name ;;
      more <- read_documents_csv rest ;;
      Ok ((line, size) :: more)
  end.

(** [csv.reader(open(tiny_dir / "terms.csv"))] *)
Fixpoint read_terms_csv (rows : list (string * Z * Z))
    : result (list (string * Z * Z)) :=
  match rows with
  | [] => Ok []
  | (term, start, length) :: rest =>
      word <- csv_field term ;;
      more <- read_terms_csv rest ;;
      Ok ((word, start, length) :: more)
  end.

(** [Index(dir)]: [Index.__init__] on the tables as they are read back. *)
Definition Index_open (tiny_dir : TinyDir) : result Index :=
  documents_rows <- read_documents_csv tiny_dir.(documents_csv) ;;
  terms_rows <- read_terms_csv tiny_dir.(terms_csv) ;;
  Ok (Index_init (mkTinyDir documents_rows tiny_dir.(index_dat) terms_rows)).

(** A document whose file name has gone through the text layer. *)
Definition read_back (doc : Document) : Document :=
  mkDocument (universal_newlines doc.(filename)) doc.(size).

(** [f.seek(start); f.read(length)] on a binary file: a negative position
    is refused, the length -1 reads to the end of the file, any other
    negative length is refused, and a read stops at the end of the file.
    Positions and lengths are taken within the range of a file offset
    (beyond it [seek] and [read] raise [OverflowError]). *)
Definition seek_read (f : list byte) (start length : Z) : result (list byte) :=
  if start <? 0 then Raise OSError
  else if length <? -1 then Raise ValueError
  else
    let rest := skipn (Z.to_nat start) f in
    Ok (if length <? 0 then rest else firstn (Z.to_nat length) rest).

(** What follows the [while] loop of [lookup]. *)
Definition read_hits_exit (bytes : list byte) (read_pos : Z) (hits : list Hit)
    : result (list Hit) :=
  if read_pos =? len bytes then Ok hits else Raise AssertionError.

(** The [while read_pos < len(bytes)] loop of [lookup]. Every turn moves
    [read_pos] forward by eight bytes or more, so [length bytes] turns are
    enough ([read_hits_fuel]). *)
Fixpoint read_hits (fuel : nat) (bo : byteorder) (bytes : list byte)
    (read_pos : Z) (hits : list Hit) : result (list Hit) :=
  match fuel with
  | O => read_hits_exit bytes read_pos hits
  | S fuel' =>
      if read_pos <? len bytes then
        header <- unpack_II bo (slice bytes read_pos (read_pos + 8)) ;;
        let (doc_id, hit_count) := header : Z * Z in
        let read_pos := read_pos + 8 in
        let offset_bytes := slice bytes read_pos (read_pos + 4 * hit_count) in
        let read_pos := read_pos + 4 * hit_count in
        offsets <- frombytes bo offset_bytes ;;
        read_hits fuel' bo bytes read_pos (hits ++ [mkHit doc_id offsets])
      else read_hits_exit bytes read_pos hits
  end.

Definition lookup (bo : byteorder) (self : Index) (word : string)
    : result (list Hit) :=
  match dict_get String.eqb word self.(terms) with
  | None => Ok []
  | Some (start, length) =>
      bytes <- seek_read self.(index_file) start length ;;
      read_hits (List.length bytes) bo bytes 0 []
  end.

(** *** Floating-point arithmetic, as an interface

    [search] uses these operations of [float] and nothing else. *)
Class Float : Type := {
  float : Type;
  float_zero : float;                           (* 0.0, also float() *)
  float_of_int : Z -> float;                    (* float(n) *)
  int_truediv : Z -> Z -> float;                (* a / b on ints, b nonzero *)
  float_div : float -> float -> float;          (* x / y, y nonzero *)
  float_mul : float -> float -> float;
  float_add : float -> float -> float;
  float_log : float -> float;                   (* math.log(x), x > 0 *)
  float_eqb : float -> float -> bool;           (* x == y *)
  float_ltb : float -> float -> bool            (* x < y *)
}.

Section Search.
Context {F : Float}.
Variable bo : byteorder.

(** The body of [for hit in hits]. *)
Definition score_hit (self : Index) (idf : float) (scores : dict Z float)
    (hit : Hit) : result (dict Z float) :=
  doc <- list_getitem self.(documents) hit.(doc_id) ;;
  if doc.(size) =? 0 then Raise ZeroDivisionError
  else
    let tf := int_truediv (1000 * len hit.(offsets)) doc.(size) in
    Ok (dict_set Z.eqb hit.(doc_id)
          (float_add (dict_get_default Z.eqb float_zero hit.(doc_id) scores)
                     (float_mul tf idf))
          scores).

Fixpoint score_hits (self : Index) (idf : float) (hits : list Hit)
    (scores : dict Z float) : result (dict Z float) :=
  match hits with
  | [] => Ok scores
  | hit :: rest =>
      scores' <- score_hit self idf scores hit ;;
      score_hits self idf rest scores'
  end.

(** [math.log(1 / df)] *)
Definition inverse_log (df : float) : result float :=
  if float_eqb df float_zero then Raise ZeroDivisionError
  else
    let x := float_div (float_of_int 1) df in
    if float_ltb x float_zero || float_eqb x float_zero then Raise ValueError
    else Ok (float_log x).

(** The body of [for word in words(query)]. *)
Definition score_word (self : Index) (scores : dict Z float) (word : string)
    : result (dict Z float) :=
  hits <- lookup bo self word ;;
  match hits with
  | [] => Ok scores
  | _ :: _ =>
      if len self.(documents) =? 0 then Raise ZeroDivisionError
      else
        let df := int_truediv (len hits) (len self.(documents)) in
        idf <- inverse_log df ;;
        score_hits self idf hits scores
  end.

Fixpoint score_words (self : Index) (ws : list string) (scores : dict Z float)
    : result (dict Z float) :=
  match ws with
  | [] => Ok scores
  | word :: rest =>
      scores' <- score_word self scores word ;;
      score_words self rest scores'
  end.

(** [sorted(l, key=lambda pair: pair[1], reverse=True)]. The sort is
    stable, compares keys with [<] only, and with [reverse=True] keeps
    pairs of equal key in their original order: [insert_reverse] moves a
    pair past the pairs of strictly greater key. *)
Fixpoint insert_reverse (p : Z * float) (l : list (Z * float))
    : list (Z * float) :=
  match l with
  | [] => [p]
  | q :: l' =>
      if float_ltb (snd p) (snd q) then q :: insert_reverse p l'
      else p :: q :: l'
  end.

Definition sorted_reverse (l : list (Z * float)) : list (Z * float) :=
  fold_right insert_reverse [] l.

(** [[(self.documents[doc_id].filename, score) for doc_id, score in l]] *)
Fixpoint with_filenames (self : Index) (l : list (Z * float))
    : result (list (string * float)) :=
  match l with
  | [] => Ok []
  | (doc_id, score) :: rest =>
      doc <- list_getitem self.(documents) doc_id ;;
      named <- with_filenames self rest ;;
      Ok ((doc.(filename), score) :: named)
  end.

Definition search (self : Index) (query : string)
    : result (list (string * float)) :=
  scores <- score_words self (words query) [] ;;
  let results := sorted_reverse scores in
  with_filenames self (firstn 10 results).
End Search.

(** Exact real arithmetic is an instance of the interface. *)
Definition real_arithmetic : Float := {|
  float := R;
  float_zero := 0%R;
  float_of_int := IZR;
  int_truediv := fun a b => (IZR a / IZR b)%R;
  float_div := Rdiv;
  float_mul := Rmult;
  float_add := Rplus;
  float_log := ln;
  float_eqb := fun x y => if Req_dec_T x y then true else false;
  float_ltb := fun x y => if Rlt_dec x y then true else false
|}.

(** ** The specification's vocabulary, on the tokenizer's output *)

(** [enumerate(l)] *)
Definition enumerate {A : Type} (l : list A) : list (Z * A) :=
  combine (map Z.of_nat (seq 0 (List.length l))) l.

Definition occurs (w : string) (ws : list string) : bool :=
  existsb (String.eqb w) ws.

(** The 0-based positions of the token [w] in the token sequence [ws]. *)
Definition positions (w : string) (ws : list string) : list Z :=
  map fst (filter (fun p : Z * string => String.eqb (snd p) w) (enumerate ws)).

(** One posting per document that contains [w], in document order; the id
    of a document is its rank in the order of discovery. *)
Definition postings (files : list (string * string)) (w : string) : list Hit :=
  flat_map
    (fun p : Z * (string * string) =>
       let ws := words (snd (snd p)) in
       if occurs w ws then [mkHit (fst p) (positions w ws)] else [])
    (enumerate files).

(** The distinct words of [ws] in the order in which they first occur. *)
Definition add_key (seen : list string) (w : string) : list string :=
  if occurs w seen then seen else seen ++ [w].

Definition first_seen (ws : list string) : list string :=
  fold_left add_key ws [].

(** All tokens of all documents, in document order. *)
Definition corpus (files : list (string * string)) : list string :=
  flat_map (fun file => words (snd file)) files.

(** The record of one posting: document id, count, offsets. *)
Definition posting_record (bo : byteorder) (hit : Hit) : list byte :=
  uint_bytes bo hit.(doc_id) ++ uint_bytes bo (len hit.(offsets))
  ++ flat_map (uint_bytes bo) hit.(offsets).

Definition encode_hits (bo : byteorder) (hits : list Hit) : list byte :=
  flat_map (posting_record bo) hits.

(** The postings blob as the specification lays it out. *)
Definition postings_blob (bo : byteorder) (files : list (string * string))
    : list byte :=
  flat_map (fun w => encode_hits bo (postings files w))
           (first_seen (corpus files)).

(** The term directory of a sequence of blocks that starts at [start]. *)
Fixpoint directory (bo : byteorder) (start : Z)
    (items : list (string * list Hit)) : dict string (Z * Z) :=
  match items with
  | [] => []
  | (word, hits) :: rest =>
      let n := len (encode_hits bo hits) in
      (word, (start, n)) :: directory bo (start + n) rest
  end.

(** Recursive forms of [positions] and [postings], counting from [i]. *)
Fixpoint positions_from (i : Z) (w : string) (ws : list string) : list Z :=
  match ws with
  | [] => []
  | x :: rest =>
      if String.eqb x w then i :: positions_from (i + 1) w rest
      else positions_from (i + 1) w rest
  end.

Fixpoint postings_from (i : Z) (files : list (string * string)) (w : string)
    : list Hit :=
  match files with
  | [] => []
  | (_, text) :: rest =>
      (if occurs w (words text) then [mkHit i (positions w (words text))]
       else [])
      ++ postings_from (i + 1) rest w
  end.

(** A hit that [struct.pack] and [array.array('I')] can hold. *)
Definition hit_fits (hit : Hit) : Prop :=
  fits_uint32 hit.(doc_id) = true /\
  fits_uint32 (len hit.(offsets)) = true /\
  Forall (fun o => fits_uint32 o = true) hit.(offsets).

(** ** Vocabulary of the statements and of the proofs *)

Definition words_fit (file : string * string) : Prop :=
  forall j, 0 <= j < len (words (snd file)) -> fits_uint32 j = true.

Definition header_fits (h : Hit) : Prop :=
  fits_uint32 h.(doc_id) = true /\ fits_uint32 (len h.(offsets)) = true.

Definition blocks (bo : byteorder) (items : list (string * list Hit)) : list byte :=
  flat_map (fun item => encode_hits bo (snd item)) items.

Definition set_entry (t : dict string (Z * Z)) (e : string * (Z * Z))
    : dict string (Z * Z) :=
  dict_set String.eqb (fst e) (snd e) t.

Definition terms_row (e : string * (Z * Z)) : string * Z * Z :=
  (fst e, fst (snd e), snd (snd e)).

Definition byte_offset (row : string * Z * Z) : Z := snd (fst row).
Definition byte_length (row : string * Z * Z) : Z := snd row.

Definition total (l : list Z) : Z := fold_right Z.add 0 l.

(** Rows that follow one another from [start], without gap or overlap. *)
Fixpoint contiguous (start : Z) (rows : list (string * Z * Z)) : Prop :=
  match rows with
  | [] => True
  | row :: rest =>
      byte_offset row = start /\ 0 <= byte_length row /\
      contiguous (start + byte_length row) rest
  end.

Definition document_of (file : string * string) : Document :=
  mkDocument (fst file) (len (words (snd file))).

Section Ranking.
Context {F : Float}.
Variable self : Index.

Definition has_document (d : Z) : Prop :=
exists doc, list_getitem self.(documents) d = Ok doc.

(** [tf * idf] for a hit of a document of [n] tokens. *)
Definition tf_idf (hit : Hit) (n : Z) (idf : float) : float :=
float_mul (int_truediv (1000 * len hit.(offsets)) n) idf.

(** [a] does not come after [b] in descending order: [a < b] is false. *)
Definition not_below (a b : Z * float) : Prop :=
float_ltb (snd a) (snd b) = false.

(** On the scores at hand, [<] behaves as an order: this is so for
  floats as soon as none of them is a NaN. *)
Definition ordered_scores (l : list (Z * float)) : Prop :=
(forall a b, In a l -> In b l ->
             float_ltb (snd a) (snd b) = true ->
             float_ltb (snd b) (snd a) = false) /\
(forall a b c, In a l -> In b l -> In c l ->
               float_ltb (snd a) (snd b) = false ->
               float_ltb (snd b) (snd c) = false ->
               float_ltb (snd a) (snd c) = false).

Definition named_as (p : Z * float) (r : string * float) : Prop :=
exists doc,
  list_getitem self.(documents) (fst p) = Ok doc /\
  r = (doc.(filename), snd p).

(** Results in descending order of score. *)
Definition descending (results : list (string * float)) : Prop :=
StronglySorted
  (fun a b : string * float => float_ltb (snd a) (snd b) = false) results.

End Ranking.

(** ** Vocabulary of the properties of the scores *)

Section Weights.
Context {F : Float}.

(** [tf * idf] of the word [w] for the document of text [text] among
    [files]. *)
Definition term_weight (files : list (string * string)) (w text : string)
    : float :=
float_mul
  (int_truediv (1000 * len (positions w (words text))) (len (words text)))
  (float_log
     (float_div (float_of_int 1)
        (int_truediv (len (postings files w)) (len files)))).

(** The score of the document of text [text] after one more word of the
    query. *)
Definition add_weight (files : list (string * string)) (text : string)
    (score : float) (w : string) : float :=
if occurs w (words text) then float_add score (term_weight files w text)
else score.

(** The words of [ws] that the document of text [text] holds, each as
    many times as it is in [ws]. *)
Definition matching (text : string) (ws : list string) : list string :=
filter (fun w => occurs w (words text)) ws.

End Weights.

(** A row of [documents.csv] as [Index] loads it. *)
Definition document_read (file : string * string) : Document :=
  read_back (document_of file).

(** ** Runs on small sets of documents *)

Definition example_files : list (string * string) :=
  [("a.txt", "a b a"); ("b.txt", "B, c!"); ("empty.txt", " ")].

Definition example_tiny : TinyDir :=
  Eval vm_compute in
    match make_index little example_files with
    | Ok t => t
    | Raise _ => mkTinyDir [] [] []
    end.

Definition files2 : list (string * string) := [("a.txt", "a b"); ("b.txt", "a")].

Definition tiny2 : TinyDir :=
  Eval vm_compute in
    match make_index little files2 with
    | Ok t => t
    | Raise _ => mkTinyDir [] [] []
    end.

(** The scores of the query ["a b"]: [a] is in both documents, [b] in the
    first only. *)
Definition scores_a_b : dict Z R :=
  [(0, (0 + 1000 / 2 * ln (1 / (2 / 2)) + 1000 / 2 * ln (1 / (1 / 2)))%R);
   (1, (0 + 1000 / 1 * ln (1 / (2 / 2)))%R)].

Definition results_a_b : list (string * R) :=
  [("a.txt", (0 + 1000 / 2 * ln (1 / (2 / 2)) + 1000 / 2 * ln (1 / (1 / 2)))%R);
   ("b.txt", (0 + 1000 / 1 * ln (1 / (2 / 2)))%R)].

(** The scores of the word [a], and of the words [b], [a], [b]. *)
Definition scores_a : dict Z R :=
  [(0, (0 + 1000 / 2 * ln (1 / (2 / 2)))%R);
   (1, (0 + 1000 / 1 * ln (1 / (2 / 2)))%R)].

Definition scores_b_a_b : dict Z R :=
  [(0, (0 + 1000 / 2 * ln (1 / (1 / 2)) + 1000 / 2 * ln (1 / (2 / 2))
        + 1000 / 2 * ln (1 / (1 / 2)))%R);
   (1, (0 + 1000 / 1 * ln (1 / (2 / 2)))%R)].

(** Two documents that hold the word [a], and the same index after the
    last 12 bytes of [index.dat] were lost. *)
Definition files_a_a : list (string * string) := [("a.txt", "a"); ("b.txt", "a")].

Definition index_a_a : Index :=
  Eval vm_compute in
    match make_index little files_a_a with
    | Ok t => Index_init t
    | Raise _ => mkIndex [] [] []
    end.

Definition short_index_a_a : Index :=
  mkIndex (firstn 12 index_a_a.(index_file)) index_a_a.(documents)
          index_a_a.(terms).

(** ** Vocabulary of the properties of the tokenizer *)

(** Every character of [s] satisfies [P]. *)
Fixpoint string_forall (P : ascii -> bool) (s : string) : bool :=
  match s with
  | EmptyString => true
  | String c s' => P c && string_forall P s'
  end.

(** [c.lower() == c] *)
Definition is_lower (c : ascii) : bool := Ascii.eqb (lower_char c) c.

(** ** Vocabulary of the properties of [Index] *)

(** The byte range of the last row of the table of terms that names [w]. *)
Fixpoint last_entry (w : string) (rows : list (string * Z * Z)) : option (Z * Z) :=
  match rows with
  | [] => None
  | (word, start, length) :: rest =>
      match last_entry w rest with
      | Some range => Some range
      | None => if String.eqb w word then Some (start, length) else None
      end
  end.

(** ** Vocabulary of the properties of the ranking *)

(** [a] comes before an occurrence of [b] in [l]. *)
Inductive precedes {A : Type} (a b : A) : list A -> Prop :=
| precedes_here (l : list A) : In b l -> precedes a b (a :: l)
| precedes_later (x : A) (l : list A) : precedes a b l -> precedes a b (x :: l).

(** * Properties of the code *)

(** ** The error monad *)

Lemma bind_Ok {A B : Type} (r : result A) (k : A -> result B) (b : B) :
  bind r k = Ok b -> exists a, r = Ok a /\ k a = Ok b.
Proof. destruct r as [a|e]; simpl; [eauto | discriminate]. Qed.

Ltac bind_inv H :=
  let a := fresh "a" in
  let Ha := fresh "Ha" in
  apply bind_Ok in H; destruct H as (a & Ha & H).

(** ** Bytes and 32-bit fields *)

Lemma Z_of_byte_range (b : byte) : 0 <= Z_of_byte b < 256.
Proof.
  unfold Z_of_byte. pose proof (Byte.to_N_bounded b). lia.
Qed.

Lemma Z_of_byte_of_Z (z : Z) : Z_of_byte (byte_of_Z z) = z mod 256.
Proof.
  unfold Z_of_byte, byte_of_Z.
  assert (Hr : 0 <= z mod 256 < 256) by (apply Z.mod_pos_bound; lia).
  destruct (Byte.of_N (Z.to_N (z mod 256))) as [b|] eqn:E.
  - apply Byte.to_of_N in E. rewrite E. lia.
  - apply Byte.of_N_None_iff in E. lia.
Qed.

Lemma byte_of_Z_of_byte (b : byte) : byte_of_Z (Z_of_byte b) = b.
Proof.
  unfold byte_of_Z. pose proof (Z_of_byte_range b) as Hr.
  rewrite Z.mod_small by lia. unfold Z_of_byte.
  rewrite N2Z.id, Byte.of_to_N. reflexivity.
Qed.

Lemma fits_uint32_iff (n : Z) : fits_uint32 n = true <-> 0 <= n <= uint32_max.
Proof. unfold fits_uint32. rewrite andb_true_iff, !Z.leb_le. tauto. Qed.

Lemma le_value_le_bytes (n : Z) :
  0 <= n <= uint32_max -> le_value (le_bytes n) = n.
Proof.
  unfold uint32_max, le_value, le_bytes. intros Hn. cbn [fold_right].
  rewrite !Z_of_byte_of_Z, !Z.shiftr_div_pow2 by lia.
  change (2 ^ 8) with 256. change (2 ^ 16) with 65536.
  change (2 ^ 24) with 16777216.
  Z.div_mod_to_equations. lia.
Qed.

Lemma byte_split (a q : Z) :
  0 <= a < 256 -> (a + 256 * q) mod 256 = a /\ (a + 256 * q) / 256 = q.
Proof. intros Ha. Z.div_mod_to_equations. lia. Qed.

Lemma le_bytes_le_value (b0 b1 b2 b3 : byte) :
  le_bytes (le_value [b0; b1; b2; b3]) = [b0; b1; b2; b3].
Proof.
  unfold le_value, le_bytes. cbn [fold_right].
  pose proof (Z_of_byte_range b0) as H0. pose proof (Z_of_byte_range b1) as H1.
  pose proof (Z_of_byte_range b2) as H2. pose proof (Z_of_byte_range b3) as H3.
  rewrite !Z.shiftr_div_pow2 by lia.
  change (2 ^ 8) with 256. change (2 ^ 16) with (256 * 256).
  change (2 ^ 24) with (256 * (256 * 256)).
  rewrite <- !Z.div_div by lia.
  unfold byte_of_Z.
  destruct (byte_split _ (Z_of_byte b1 + 256 * (Z_of_byte b2 + 256 * (Z_of_byte b3 + 256 * 0))) H0) as [-> ->].
  destruct (byte_split _ (Z_of_byte b2 + 256 * (Z_of_byte b3 + 256 * 0)) H1) as [-> ->].
  destruct (byte_split _ (Z_of_byte b3 + 256 * 0) H2) as [-> ->].
  destruct (byte_split _ 0 H3) as [-> _].
  unfold Z_of_byte. rewrite !N2Z.id, !Byte.of_to_N. reflexivity.
Qed.

Arguments byte_of_Z : simpl never.
Arguments Z_of_byte : simpl never.

Lemma le_value_nonneg (bs : list byte) : 0 <= le_value bs.
Proof.
  induction bs as [|b bs IH]; cbn [le_value fold_right]; [lia|].
  fold (le_value bs). pose proof (Z_of_byte_range b). lia.
Qed.

Lemma uint_value_nonneg (bo : byteorder) (bs : list byte) : 0 <= uint_value bo bs.
Proof. destruct bo; apply le_value_nonneg. Qed.

Lemma uint_bytes_length (bo : byteorder) (n : Z) :
  List.length (uint_bytes bo n) = 4%nat.
Proof. destruct bo; reflexivity. Qed.

Lemma uint_value_bytes (bo : byteorder) (n : Z) :
  fits_uint32 n = true -> uint_value bo (uint_bytes bo n) = n.
Proof.
  intros Hn. apply fits_uint32_iff in Hn.
  destruct bo; unfold uint_value, uint_bytes.
  - now apply le_value_le_bytes.
  - rewrite rev_involutive. now apply le_value_le_bytes.
Qed.

Lemma length_four {A : Type} (l : list A) :
  List.length l = 4%nat -> exists a b c d, l = [a; b; c; d].
Proof.
  destruct l as [|a [|b [|c [|d [|e l]]]]]; try discriminate.
  intros _. now exists a, b, c, d.
Qed.

Lemma uint_bytes_value (bo : byteorder) (bs : list byte) :
  List.length bs = 4%nat -> uint_bytes bo (uint_value bo bs) = bs.
Proof.
  intros H. destruct (length_four bs H) as (a & b & c & d & ->).
  destruct bo; unfold uint_value, uint_bytes.
  - apply le_bytes_le_value.
  - change (rev [a; b; c; d]) with [d; c; b; a].
    rewrite le_bytes_le_value. reflexivity.
Qed.

Lemma tobytes_length (bo : byteorder) (a : array_I) :
  len (tobytes bo a) = 4 * len a.
Proof.
  unfold len, tobytes. induction a as [|x a IH]; [reflexivity|].
  cbn [flat_map]. rewrite length_app, uint_bytes_length.
  cbn [List.length]. lia.
Qed.

Lemma items_of_bytes_length (bo : byteorder) (n : nat) (bs : list byte) :
  List.length (items_of_bytes bo n bs) = n.
Proof.
  revert bs. induction n as [|n IH]; intros bs; cbn [items_of_bytes List.length].
  - reflexivity.
  - now rewrite IH.
Qed.

Lemma firstn_app_exact {A : Type} (l1 l2 : list A) (n : nat) :
  n = List.length l1 -> firstn n (l1 ++ l2) = l1.
Proof.
  intros ->. rewrite firstn_app, Nat.sub_diag, firstn_all, firstn_O.
  apply app_nil_r.
Qed.

Lemma skipn_app_exact {A : Type} (l1 l2 : list A) (n : nat) :
  n = List.length l1 -> skipn n (l1 ++ l2) = l2.
Proof.
  intros ->. rewrite skipn_app, Nat.sub_diag, skipn_all. reflexivity.
Qed.

Lemma items_of_tobytes (bo : byteorder) (a : array_I) :
  Forall (fun o => fits_uint32 o = true) a ->
  items_of_bytes bo (List.length a) (tobytes bo a) = a.
Proof.
  induction 1 as [|x a Hx _ IH]; [reflexivity|].
  cbn [List.length items_of_bytes tobytes flat_map].
  rewrite firstn_app_exact, skipn_app_exact by now rewrite uint_bytes_length.
  rewrite uint_value_bytes by assumption.
  f_equal. exact IH.
Qed.

Lemma tobytes_of_items (bo : byteorder) (n : nat) (bs : list byte) :
  List.length bs = (4 * n)%nat -> tobytes bo (items_of_bytes bo n bs) = bs.
Proof.
  revert bs. induction n as [|n IH]; intros bs H.
  - destruct bs; [reflexivity | discriminate].
  - cbn [items_of_bytes tobytes flat_map].
    rewrite uint_bytes_value by (rewrite length_firstn; lia).
    fold (tobytes bo (items_of_bytes bo n (skipn 4 bs))).
    rewrite IH by (rewrite length_skipn; lia).
    apply firstn_skipn.
Qed.

Lemma frombytes_tobytes (bo : byteorder) (a : array_I) :
  Forall (fun o => fits_uint32 o = true) a ->
  frombytes bo (tobytes bo a) = Ok a.
Proof.
  intros Ha. unfold frombytes.
  pose proof (tobytes_length bo a) as Hl. unfold len in Hl.
  assert (E : List.length (tobytes bo a) = (List.length a * 4)%nat) by lia.
  rewrite E, Nat.Div0.mod_mul, Nat.div_mul by lia.
  cbn [Nat.eqb]. now rewrite items_of_tobytes.
Qed.

Lemma frombytes_Ok (bo : byteorder) (bs : list byte) (a : array_I) :
  frombytes bo bs = Ok a ->
  len bs = 4 * len a /\ tobytes bo a = bs.
Proof.
  unfold frombytes.
  pose proof (Nat.div_mod_eq (List.length bs) 4) as D.
  set (q := Nat.div (List.length bs) 4) in *.
  destruct (Nat.eqb_spec (List.length bs mod 4) 0) as [E|]; [|discriminate].
  intros [= <-]. rewrite E in D.
  split.
  - unfold len. rewrite items_of_bytes_length. lia.
  - apply tobytes_of_items. lia.
Qed.

(** ** Slices *)

Lemma slice_app (pre mid post : list byte) (a b : Z) :
  a = len pre -> b = len pre + len mid ->
  slice (pre ++ mid ++ post) a b = mid.
Proof.
  intros -> ->. unfold slice, len.
  rewrite skipn_app_exact by lia. apply firstn_app_exact. lia.
Qed.

Lemma slice_length (bs : list byte) (a b : Z) :
  0 <= a -> a <= b ->
  len (slice bs a b) = Z.min (b - a) (Z.max 0 (len bs - a)).
Proof.
  intros Ha Hb. unfold slice, len. rewrite length_firstn, length_skipn. lia.
Qed.

Lemma skipn_slice (bs : list byte) (a b : Z) :
  0 <= a -> a <= b ->
  skipn (Z.to_nat a) bs = slice bs a b ++ skipn (Z.to_nat b) bs.
Proof.
  intros Ha Hb. unfold slice.
  rewrite <- (firstn_skipn (Z.to_nat (b - a)) (skipn (Z.to_nat a) bs)) at 1.
  rewrite skipn_skipn. do 2 f_equal. lia.
Qed.

(** ** Packing and reading back a postings list *)

Lemma encode_hits_app (bo : byteorder) (l1 l2 : list Hit) :
  encode_hits bo (l1 ++ l2) = encode_hits bo l1 ++ encode_hits bo l2.
Proof. apply flat_map_app. Qed.

Lemma pack_hits_Ok (bo : byteorder) (hits : list Hit) :
  forall acc bs,
    pack_hits bo hits acc = Ok bs ->
    bs = acc ++ encode_hits bo hits /\
    Forall (fun h => fits_uint32 h.(doc_id) = true /\
                     fits_uint32 (len h.(offsets)) = true) hits.
Proof.
  induction hits as [|h hits IH]; intros acc bs H; cbn [pack_hits] in H.
  - injection H as <-. now rewrite app_nil_r.
  - bind_inv H. unfold pack_II in Ha.
    destruct (fits_uint32 (doc_id h) && fits_uint32 (len (offsets h))) eqn:E;
      [|discriminate].
    injection Ha as <-. apply andb_true_iff in E.
    apply IH in H as [-> Hf]. split; [|now constructor].
    cbn [encode_hits flat_map]. unfold posting_record, tobytes.
    now rewrite <- !app_assoc.
Qed.

Lemma pack_hits_fits (bo : byteorder) (hits : list Hit) :
  Forall (fun h => fits_uint32 h.(doc_id) = true /\
                   fits_uint32 (len h.(offsets)) = true) hits ->
  forall acc, pack_hits bo hits acc = Ok (acc ++ encode_hits bo hits).
Proof.
  induction 1 as [|h hits [H1 H2] _ IH]; intros acc; cbn [pack_hits].
  - now rewrite app_nil_r.
  - unfold pack_II. rewrite H1, H2. cbn [andb bind]. rewrite IH.
    cbn [encode_hits flat_map]. unfold posting_record, tobytes.
    now rewrite <- !app_assoc.
Qed.

Lemma posting_record_length (bo : byteorder) (h : Hit) :
  len (posting_record bo h) = 8 + 4 * len h.(offsets).
Proof.
  unfold posting_record.
  pose proof (tobytes_length bo (offsets h)) as T. unfold tobytes in T.
  unfold len in *. rewrite !length_app, !uint_bytes_length. lia.
Qed.

Lemma unpack_pack (bo : byteorder) (a b : Z) :
  fits_uint32 a = true -> fits_uint32 b = true ->
  unpack_II bo (uint_bytes bo a ++ uint_bytes bo b) = Ok (a, b).
Proof.
  intros Ha Hb. unfold unpack_II.
  rewrite length_app, !uint_bytes_length. cbn [Nat.add Nat.eqb].
  rewrite firstn_app_exact, skipn_app_exact by now rewrite uint_bytes_length.
  now rewrite !uint_value_bytes.
Qed.

Lemma unpack_Ok (bo : byteorder) (bs : list byte) (a b : Z) :
  unpack_II bo bs = Ok (a, b) ->
  len bs = 8 /\ bs = uint_bytes bo a ++ uint_bytes bo b /\ 0 <= a /\ 0 <= b.
Proof.
  unfold unpack_II. destruct (Nat.eqb_spec (List.length bs) 8) as [E|]; [|discriminate].
  intros [= <- <-]. split; [unfold len; lia|]. split.
  - rewrite !uint_bytes_value.
    + symmetry. exact (firstn_skipn 4 bs).
    + change (List.length (skipn 4 bs) = 4%nat). rewrite length_skipn. lia.
    + change (List.length (firstn 4 bs) = 4%nat). rewrite length_firstn. lia.
  - split; apply uint_value_nonneg.
Qed.

(** More fuel than the bytes that are left changes nothing: the loop of
    [lookup] ends on its own condition. *)
Lemma read_hits_fuel (bo : byteorder) (bytes : list byte) :
  forall fuel fuel' read_pos hits,
    0 <= read_pos ->
    len bytes - read_pos <= Z.of_nat fuel -> (fuel <= fuel')%nat ->
    read_hits fuel' bo bytes read_pos hits = read_hits fuel bo bytes read_pos hits.
Proof.
  induction fuel as [|fuel IH]; intros fuel' read_pos hits Hp Hf Hle.
  - destruct fuel'; cbn [read_hits]; [reflexivity|].
    destruct (Z.ltb_spec read_pos (len bytes)); [lia | reflexivity].
  - destruct fuel' as [|fuel']; [lia|]. cbn [read_hits].
    destruct (Z.ltb_spec read_pos (len bytes)); [|reflexivity].
    destruct (unpack_II bo (slice bytes read_pos (read_pos + 8)))
      as [[d c]|e] eqn:U; cbn [bind]; [|reflexivity].
    apply unpack_Ok in U as (_ & _ & _ & Hc).
    destruct (frombytes bo _) as [offs|e]; cbn [bind]; [|reflexivity].
    apply IH; lia.
Qed.

(** The loop equation of [while read_pos < len(bytes)]. *)
Lemma read_hits_unfold (bo : byteorder) (bytes : list byte) (fuel : nat)
    (read_pos : Z) (hits : list Hit) :
  0 <= read_pos -> len bytes - read_pos <= Z.of_nat fuel ->
  read_hits fuel bo bytes read_pos hits =
  if read_pos <? len bytes then
    header <- unpack_II bo (slice bytes read_pos (read_pos + 8)) ;;
    offsets <- frombytes bo (slice bytes (read_pos + 8)
                               (read_pos + 8 + 4 * snd header)) ;;
    read_hits fuel bo bytes (read_pos + 8 + 4 * snd header)
      (hits ++ [mkHit (fst header) offsets])
  else read_hits_exit bytes read_pos hits.
Proof.
  intros Hp Hf.
  rewrite <- (read_hits_fuel bo bytes fuel (S fuel)) by lia.
  cbn [read_hits].
  destruct (Z.ltb_spec read_pos (len bytes)); [|reflexivity].
  destruct (unpack_II bo _) as [[d c]|e] eqn:U; cbn [bind fst snd]; [|reflexivity].
  apply unpack_Ok in U as (_ & _ & _ & Hc).
  destruct (frombytes bo _) as [offs|e]; cbn [bind]; [|reflexivity].
  symmetry. apply read_hits_fuel; lia.
Qed.

(** Reading back what [pack_hits] wrote. *)
Lemma read_hits_encode (bo : byteorder) (hits : list Hit) :
  Forall hit_fits hits ->
  forall fuel pre acc,
    (List.length hits <= fuel)%nat ->
    read_hits fuel bo (pre ++ encode_hits bo hits) (len pre) acc
    = Ok (acc ++ hits).
Proof.
  induction 1 as [|h hits (Hd & Hn & Ho) _ IH]; intros fuel pre acc Hfuel.
  - cbn [encode_hits flat_map]. rewrite !app_nil_r.
    destruct fuel; cbn [read_hits]; unfold read_hits_exit.
    + now rewrite Z.eqb_refl.
    + now rewrite Z.ltb_irrefl, Z.eqb_refl.
  - destruct fuel as [|fuel]; [cbn [List.length] in Hfuel; lia|].
    cbn [read_hits encode_hits flat_map]. fold (encode_hits bo hits).
    pose proof (posting_record_length bo h) as Hrec.
    assert (Hlt : len pre < len (pre ++ posting_record bo h ++ encode_hits bo hits)).
    { unfold len in *. rewrite !length_app. lia. }
    apply Z.ltb_lt in Hlt. rewrite Hlt.
    unfold posting_record at 1 2. rewrite <- !app_assoc.
    rewrite (app_assoc (uint_bytes bo (doc_id h))).
    rewrite slice_app
      by (trivial; unfold len; rewrite !length_app, !uint_bytes_length; lia).
    rewrite unpack_pack by assumption. cbn [bind].
    rewrite (app_assoc pre).
    fold (tobytes bo (offsets h)).
    rewrite slice_app.
    2:{ unfold len. rewrite !length_app, !uint_bytes_length. lia. }
    2:{ rewrite tobytes_length. unfold len.
        rewrite !length_app, !uint_bytes_length. lia. }
    rewrite frombytes_tobytes by assumption. cbn [bind].
    rewrite (app_assoc pre (posting_record bo h)).
    replace (len pre + 8 + 4 * len (offsets h))
      with (len (pre ++ posting_record bo h))
      by (unfold len in *; rewrite length_app; lia).
    rewrite IH by (cbn [List.length] in Hfuel; lia).
    rewrite <- app_assoc. destruct h; reflexivity.
Qed.

(** Whatever [read_hits] returns is exactly what the bytes after
    [read_pos] encode: nothing is cut short and nothing is left over. *)
Lemma read_hits_exact (bo : byteorder) (bytes : list byte) :
  forall fuel read_pos acc hits,
    0 <= read_pos ->
    read_hits fuel bo bytes read_pos acc = Ok hits ->
    exists new,
      hits = acc ++ new /\ read_pos <= len bytes /\
      skipn (Z.to_nat read_pos) bytes = encode_hits bo new.
Proof.
  assert (Hexit : forall read_pos acc hits,
             0 <= read_pos -> read_hits_exit bytes read_pos acc = Ok hits ->
             exists new, hits = acc ++ new /\ read_pos <= len bytes /\
                         skipn (Z.to_nat read_pos) bytes = encode_hits bo new).
  { intros read_pos acc hits Hp H. unfold read_hits_exit in H.
    destruct (Z.eqb_spec read_pos (len bytes)) as [->|]; [|discriminate].
    injection H as <-. exists []. rewrite app_nil_r.
    repeat split; [lia|]. unfold len. rewrite Nat2Z.id. apply skipn_all. }
  induction fuel as [|fuel IH]; intros read_pos acc hits Hp H; cbn [read_hits] in H.
  - now apply Hexit.
  - destruct (Z.ltb_spec read_pos (len bytes)) as [Hlt|]; [|now apply Hexit].
    bind_inv H. destruct a as [d c].
    apply unpack_Ok in Ha as (Hl8 & Hhdr & Hd & Hc).
    bind_inv H. rename a into offs.
    apply frombytes_Ok in Ha as (Hlen & Htob).
    apply IH in H as (new & -> & Hle & Hskip); [|lia].
    exists (mkHit d offs :: new). rewrite <- app_assoc.
    split; [reflexivity|]. split; [lia|].
    rewrite slice_length in Hlen by lia.
    rewrite (skipn_slice bytes read_pos (read_pos + 8)) by lia.
    rewrite (skipn_slice bytes (read_pos + 8) (read_pos + 8 + 4 * c)) by lia.
    rewrite Hskip, Hhdr, <- Htob.
    cbn [encode_hits flat_map]. unfold posting_record. cbn [doc_id offsets].
    replace (len offs) with c by lia.
    unfold tobytes. now rewrite <- !app_assoc.
Qed.

(** ** Dictionaries *)

Section DictFacts.
Context {K V : Type}.
Variable eqb : K -> K -> bool.
Hypothesis eqb_eq : forall a b, eqb a b = true <-> a = b.

Lemma eqb_reflx (a : K) : eqb a a = true.
Proof. now apply eqb_eq. Qed.

Lemma eqb_neq (a b : K) : eqb a b = false <-> a <> b.
Proof.
  destruct (eqb a b) eqn:E.
  - apply eqb_eq in E. split; [discriminate | contradiction].
  - split; [|reflexivity]. intros _ Hab. apply eqb_eq in Hab. congruence.
Qed.

Lemma existsb_eqb (k : K) (l : list K) : existsb (eqb k) l = true <-> In k l.
Proof.
  rewrite existsb_exists. split.
  - intros (x & Hx & E). apply eqb_eq in E. now subst.
  - intros H. exists k. split; [assumption | apply eqb_reflx].
Qed.

Lemma dict_get_set_same (k : K) (v : V) (d : dict K V) :
  dict_get eqb k (dict_set eqb k v d) = Some v.
Proof.
  induction d as [|[k' v'] d IH]; cbn [dict_set dict_get].
  - now rewrite eqb_reflx.
  - destruct (eqb k k') eqn:E; cbn [dict_get]; rewrite E; [reflexivity | exact IH].
Qed.

Lemma dict_get_set_other (k k' : K) (v : V) (d : dict K V) :
  k <> k' -> dict_get eqb k' (dict_set eqb k v d) = dict_get eqb k' d.
Proof.
  intros Hne. induction d as [|[k0 v0] d IH]; cbn [dict_set dict_get].
  - assert (E : eqb k' k = false) by (apply eqb_neq; congruence).
    now rewrite E.
  - destruct (eqb k k0) eqn:E; cbn [dict_get].
    + apply eqb_eq in E. subst k0.
      assert (E : eqb k' k = false) by (apply eqb_neq; congruence).
      now rewrite E.
    + now rewrite IH.
Qed.

Lemma dict_get_None (k : K) (d : dict K V) :
  dict_get eqb k d = None <-> ~ In k (keys d).
Proof.
  induction d as [|[k' v'] d IH]; cbn [dict_get keys map fst In].
  - tauto.
  - destruct (eqb k k') eqn:E.
    + apply eqb_eq in E. subst. split; [discriminate | tauto].
    + apply eqb_neq in E. rewrite IH. unfold keys. intuition congruence.
Qed.

Lemma dict_get_In (k : K) (v : V) (d : dict K V) :
  dict_get eqb k d = Some v -> In (k, v) d.
Proof.
  induction d as [|[k' v'] d IH]; cbn [dict_get In]; [discriminate|].
  destruct (eqb k k') eqn:E.
  - apply eqb_eq in E. intros [= ->]. left. now subst.
  - intros H. right. now apply IH.
Qed.

Lemma In_dict_get (k : K) (v : V) (d : dict K V) :
  NoDup (keys d) -> In (k, v) d -> dict_get eqb k d = Some v.
Proof.
  induction d as [|[k' v'] d IH]; cbn [dict_get keys map fst In]; [tauto|].
  intros Hnd [[= -> ->]|Hin].
  - now rewrite eqb_reflx.
  - inversion Hnd as [|? ? Hk Hd]; subst.
    destruct (eqb k k') eqn:E.
    + apply eqb_eq in E. subst. exfalso. apply Hk.
      change k' with (fst (k', v)). now apply in_map.
    + now apply IH.
Qed.

Lemma dict_set_fresh (k : K) (v : V) (d : dict K V) :
  ~ In k (keys d) -> dict_set eqb k v d = d ++ [(k, v)].
Proof.
  induction d as [|[k' v'] d IH]; cbn [dict_set keys map fst In app];
    [reflexivity|].
  intros Hn. destruct (eqb k k') eqn:E.
  - apply eqb_eq in E. subst. tauto.
  - rewrite IH; [reflexivity|]. unfold keys. tauto.
Qed.

Lemma keys_dict_set (k : K) (v : V) (d : dict K V) :
  keys (dict_set eqb k v d)
  = if existsb (eqb k) (keys d) then keys d else keys d ++ [k].
Proof.
  induction d as [|[k' v'] d IH]; cbn [dict_set keys map fst existsb app];
    [reflexivity|].
  destruct (eqb k k') eqn:E; cbn [orb map fst]; [reflexivity|].
  fold (keys d). fold (keys (dict_set eqb k v d)). rewrite IH.
  now destruct (existsb (eqb k) (keys d)).
Qed.

(** Writing the rows of a dictionary into an empty one gives it back. *)
Lemma dict_of_items (d acc : dict K V) :
  NoDup (keys (acc ++ d)) ->
  fold_left (fun t (e : K * V) => dict_set eqb (fst e) (snd e) t) d acc
  = acc ++ d.
Proof.
  revert acc. induction d as [|[k v] d IH]; intros acc Hnd; cbn [fold_left fst snd].
  - now rewrite app_nil_r.
  - assert (Hk : ~ In k (keys acc)).
    { unfold keys in *. rewrite map_app in Hnd. cbn [map fst] in Hnd.
      apply NoDup_remove_2 in Hnd. rewrite in_app_iff in Hnd. tauto. }
    rewrite dict_set_fresh by assumption.
    rewrite IH; rewrite <- app_assoc; [reflexivity | exact Hnd].
Qed.
End DictFacts.

(** ** Words in order of first occurrence *)

Lemma occurs_In (w : string) (ws : list string) : occurs w ws = true <-> In w ws.
Proof. apply existsb_eqb, String.eqb_eq. Qed.

Lemma occurs_cons (w x : string) (ws : list string) :
  occurs w (x :: ws) = String.eqb x w || occurs w ws.
Proof. unfold occurs. cbn [existsb]. now rewrite String.eqb_sym. Qed.

Lemma In_add_key (x w : string) (seen : list string) :
  In x (add_key seen w) <-> In x seen \/ x = w.
Proof.
  unfold add_key. destruct (occurs w seen) eqn:E.
  - apply occurs_In in E. split; [tauto|]. intros [H| ->]; assumption.
  - rewrite in_app_iff. cbn [In]. intuition congruence.
Qed.

Lemma In_fold_add_key (x : string) (ws seen : list string) :
  In x (fold_left add_key ws seen) <-> In x seen \/ In x ws.
Proof.
  revert seen. induction ws as [|w ws IH]; intros seen; cbn [fold_left In].
  - tauto.
  - rewrite IH, In_add_key. intuition congruence.
Qed.

Lemma NoDup_add_key (w : string) (seen : list string) :
  NoDup seen -> NoDup (add_key seen w).
Proof.
  intros H. unfold add_key. destruct (occurs w seen) eqn:E; [assumption|].
  assert (Hn : ~ In w seen) by (rewrite <- occurs_In; congruence).
  apply NoDup_rev in H. rewrite <- (rev_involutive (seen ++ [w])).
  apply NoDup_rev. rewrite rev_app_distr. cbn [rev app].
  constructor; [now rewrite <- in_rev | assumption].
Qed.

Lemma NoDup_fold_add_key (ws seen : list string) :
  NoDup seen -> NoDup (fold_left add_key ws seen).
Proof.
  revert seen. induction ws as [|w ws IH]; intros seen H; cbn [fold_left].
  - assumption.
  - now apply IH, NoDup_add_key.
Qed.

Lemma add_key_seen (w : string) (seen : list string) :
  occurs w seen = true -> add_key seen w = seen.
Proof. intros H. unfold add_key. now rewrite H. Qed.

Lemma add_key_new (w : string) (seen : list string) :
  occurs w seen = false -> add_key seen w = seen ++ [w].
Proof. intros H. unfold add_key. now rewrite H. Qed.

Lemma fold_add_key_twice (ws pre seen : list string) :
  fold_left add_key (fold_left add_key ws pre) seen
  = fold_left add_key ws (fold_left add_key pre seen).
Proof.
  revert pre. induction ws as [|w ws IH]; intros pre; cbn [fold_left].
  - reflexivity.
  - rewrite IH. f_equal.
    destruct (occurs w pre) eqn:E.
    + rewrite (add_key_seen w pre) by assumption.
      symmetry. apply add_key_seen.
      apply occurs_In, In_fold_add_key. right. now apply occurs_In.
    + rewrite (add_key_new w pre) by assumption. now rewrite fold_left_app.
Qed.

Lemma fold_add_key_first_seen (ws seen : list string) :
  fold_left add_key (first_seen ws) seen = fold_left add_key ws seen.
Proof. unfold first_seen. now rewrite fold_add_key_twice. Qed.

(** ** Positions of a token *)

Lemma positions_from_0 (w : string) (ws : list string) :
  positions w ws = positions_from 0 w ws.
Proof.
  unfold positions, enumerate. change 0 with (Z.of_nat 0).
  generalize 0%nat. induction ws as [|x ws IH]; intros n; [reflexivity|].
  cbn [List.length seq map combine filter snd positions_from].
  replace (Z.of_nat n + 1) with (Z.of_nat (S n)) by lia.
  destruct (String.eqb x w); cbn [map fst]; now rewrite IH.
Qed.

Lemma positions_from_range (w : string) (ws : list string) :
  forall i o, In o (positions_from i w ws) -> i <= o < i + len ws.
Proof.
  unfold len. induction ws as [|x ws IH]; intros i o; cbn [positions_from List.length].
  - intros [].
  - destruct (String.eqb x w); cbn [In].
    + intros [<-|H]; [lia|]. apply IH in H. lia.
    + intros H. apply IH in H. lia.
Qed.

Lemma positions_from_sorted (w : string) (ws : list string) :
  forall i, StronglySorted Z.lt (positions_from i w ws).
Proof.
  induction ws as [|x ws IH]; intros i; cbn [positions_from].
  - constructor.
  - destruct (String.eqb x w); [|apply IH].
    constructor; [apply IH|]. apply Forall_forall. intros o Ho.
    apply positions_from_range in Ho. lia.
Qed.

Lemma positions_from_absent (w : string) (ws : list string) :
  forall i, occurs w ws = false -> positions_from i w ws = [].
Proof.
  induction ws as [|x ws IH]; intros i; [reflexivity|].
  rewrite occurs_cons. cbn [positions_from].
  destruct (String.eqb x w); cbn [orb]; [discriminate | apply IH].
Qed.

Lemma positions_from_length (w : string) (ws : list string) :
  forall i, len (positions_from i w ws) <= len ws.
Proof.
  unfold len. induction ws as [|x ws IH]; intros i; cbn [positions_from List.length].
  - lia.
  - destruct (String.eqb x w); cbn [List.length]; specialize (IH (i + 1)); lia.
Qed.

Lemma postings_from_0 (files : list (string * string)) (w : string) :
  postings files w = postings_from 0 files w.
Proof.
  unfold postings, enumerate. change 0 with (Z.of_nat 0).
  generalize 0%nat. induction files as [|[path text] files IH]; intros n;
    [reflexivity|].
  cbn [List.length seq map combine flat_map fst snd postings_from].
  replace (Z.of_nat n + 1) with (Z.of_nat (S n)) by lia.
  now rewrite IH.
Qed.

(** ** The index of one document *)

Lemma index_words_Ok (id : Z) (ws : list string) :
  forall i doc_index doc_index',
    index_words id ws i doc_index = Ok doc_index' ->
    (forall w,
        dict_get String.eqb w doc_index'
        = match dict_get String.eqb w doc_index with
          | Some h => Some (with_offsets h (h.(offsets) ++ positions_from i w ws))
          | None => if occurs w ws then Some (mkHit id (positions_from i w ws))
                    else None
          end) /\
    keys doc_index' = fold_left add_key ws (keys doc_index) /\
    (forall j, i <= j < i + len ws -> fits_uint32 j = true).
Proof.
  induction ws as [|word ws IH]; intros i di di' H; cbn [index_words] in H.
  - injection H as <-. split; [|split].
    + intros w. cbn [positions_from occurs existsb].
      destruct (dict_get String.eqb w di) as [[d o]|]; [|reflexivity].
      unfold with_offsets. cbn [doc_id offsets]. now rewrite app_nil_r.
    + reflexivity.
    + unfold len. cbn [List.length]. lia.
  - bind_inv H. rename a into offs. unfold array_append in Ha.
    destruct (fits_uint32 i) eqn:Hi; [|discriminate]. injection Ha as <-.
    apply IH in H as (Hget & Hkeys & Hfits). split; [|split].
    + intros w. rewrite Hget. rewrite occurs_cons. cbn [positions_from].
      destruct (String.eqb word w) eqn:E.
      * apply String.eqb_eq in E. subst w.
        rewrite (dict_get_set_same String.eqb String.eqb_eq).
        unfold dict_get_default, with_offsets.
        destruct (dict_get String.eqb word di) as [[d o]|]; cbn [doc_id offsets orb];
          now rewrite <- app_assoc.
      * apply String.eqb_neq in E.
        rewrite (dict_get_set_other String.eqb String.eqb_eq) by assumption.
        reflexivity.
    + rewrite Hkeys. cbn [fold_left]. f_equal.
      apply (keys_dict_set String.eqb).
    + intros j Hj. destruct (Z.eq_dec j i) as [->|]; [assumption|].
      apply Hfits. unfold len in *. cbn [List.length] in Hj. lia.
Qed.

Lemma index_words_fits (id : Z) (ws : list string) :
  forall i doc_index,
    (forall j, i <= j < i + len ws -> fits_uint32 j = true) ->
    exists doc_index', index_words id ws i doc_index = Ok doc_index'.
Proof.
  induction ws as [|word ws IH]; intros i di Hfits; cbn [index_words].
  - eauto.
  - unfold array_append. rewrite Hfits by (unfold len; cbn [List.length]; lia).
    cbn [bind]. apply IH. intros j Hj. apply Hfits.
    unfold len in *. cbn [List.length]. lia.
Qed.

(** ** Merging into the big index *)

Lemma get_default_set_same {V : Type} (dflt v : V) (k : string) (d : dict string V) :
  dict_get_default String.eqb dflt k (dict_set String.eqb k v d) = v.
Proof.
  unfold dict_get_default. now rewrite (dict_get_set_same String.eqb String.eqb_eq).
Qed.

Lemma get_default_set_other {V : Type} (dflt v : V) (k k' : string) (d : dict string V) :
  k <> k' ->
  dict_get_default String.eqb dflt k' (dict_set String.eqb k v d)
  = dict_get_default String.eqb dflt k' d.
Proof.
  intros H. unfold dict_get_default.
  now rewrite (dict_get_set_other String.eqb String.eqb_eq) by assumption.
Qed.

Lemma merge_doc_index_get (doc_index : dict string Hit) :
  forall index w,
    dict_get_default String.eqb [] w (merge_doc_index doc_index index)
    = dict_get_default String.eqb [] w index
      ++ map snd (filter (fun p : string * Hit => String.eqb (fst p) w) doc_index).
Proof.
  unfold merge_doc_index.
  induction doc_index as [|[word hit] di IH]; intros index w;
    cbn [fold_left filter fst].
  - now rewrite app_nil_r.
  - rewrite IH. destruct (String.eqb word w) eqn:E.
    + apply String.eqb_eq in E. subst w. rewrite get_default_set_same.
      cbn [map snd]. now rewrite <- app_assoc.
    + apply String.eqb_neq in E. now rewrite get_default_set_other.
Qed.

Lemma merge_doc_index_keys (doc_index : dict string Hit) :
  forall index,
    keys (merge_doc_index doc_index index)
    = fold_left add_key (keys doc_index) (keys index).
Proof.
  unfold merge_doc_index.
  induction doc_index as [|[word hit] di IH]; intros index;
    [reflexivity|].
  change (keys ((word, hit) :: di)) with (word :: keys di).
  cbn [fold_left]. rewrite IH. f_equal. apply (keys_dict_set String.eqb).
Qed.

Lemma filter_key_absent (w : string) (d : dict string Hit) :
  ~ In w (keys d) ->
  filter (fun p : string * Hit => String.eqb (fst p) w) d = [].
Proof.
  induction d as [|[k v] d IH]; cbn [filter keys map fst In]; [reflexivity|].
  intros H. destruct (String.eqb k w) eqn:E.
  - apply String.eqb_eq in E. tauto.
  - apply IH. unfold keys. tauto.
Qed.

Lemma filter_key_NoDup (w : string) (d : dict string Hit) :
  NoDup (keys d) ->
  map snd (filter (fun p : string * Hit => String.eqb (fst p) w) d)
  = match dict_get String.eqb w d with Some h => [h] | None => [] end.
Proof.
  induction d as [|[k v] d IH]; cbn [filter keys map fst dict_get];
    [reflexivity|].
  intros Hnd. inversion Hnd as [|? ? Hk Hd]; subst.
  rewrite (String.eqb_sym w k). destruct (String.eqb k w) eqn:E.
  - apply String.eqb_eq in E. subst k.
    now rewrite filter_key_absent.
  - now apply IH.
Qed.

(** ** The index of all documents *)

Lemma index_files_Ok (files : list (string * string)) :
  forall documents index documents' index',
    index_files files documents index = Ok (documents', index') ->
    documents'
    = documents
      ++ map (fun file => mkDocument (fst file) (len (words (snd file)))) files /\
    (forall w,
        dict_get_default String.eqb [] w index'
        = dict_get_default String.eqb [] w index
          ++ postings_from (len documents) files w) /\
    keys index' = fold_left add_key (corpus files) (keys index) /\
    Forall words_fit files.
Proof.
  induction files as [|[path text] files IH]; intros docs index docs' index' H;
    cbn [index_files] in H.
  - injection H as <- <-. cbn [map postings_from corpus flat_map fold_left].
    rewrite app_nil_r. repeat split; trivial.
    intros w. now rewrite app_nil_r.
  - bind_inv H. rename a into di.
    apply index_words_Ok in Ha as (Hget & Hkeys & Hfit).
    apply IH in H as (-> & Hidx & Hk & Hfits).
    cbn [keys map] in Hkeys. fold (first_seen (words text)) in Hkeys.
    split; [|split; [|split]].
    + cbn [map fst snd]. now rewrite <- app_assoc.
    + intros w. rewrite Hidx, merge_doc_index_get. rewrite <- app_assoc.
      f_equal. cbn [postings_from].
      replace (len (docs ++ [mkDocument path (len (words text))]))
        with (len docs + 1)
        by (unfold len; rewrite length_app; cbn [List.length]; lia).
      f_equal. rewrite filter_key_NoDup.
      2:{ rewrite Hkeys. apply NoDup_fold_add_key. constructor. }
      rewrite Hget. cbn [dict_get]. rewrite positions_from_0.
      now destruct (occurs w (words text)).
    + rewrite Hk, merge_doc_index_keys, Hkeys, fold_add_key_first_seen.
      cbn [corpus flat_map snd]. now rewrite fold_left_app.
    + constructor; [|assumption]. exact Hfit.
Qed.

Lemma index_files_fit (files : list (string * string)) :
  Forall words_fit files ->
  forall documents index,
    exists built, index_files files documents index = Ok built.
Proof.
  induction 1 as [|[path text] files Hf _ IH]; intros docs index;
    cbn [index_files].
  - eauto.
  - destruct (index_words_fits (len docs) (words text) 0 [] Hf) as (di & ->).
    cbn [bind]. apply IH.
Qed.

Lemma postings_from_In (files : list (string * string)) (w : string) (h : Hit) :
  forall i,
    In h (postings_from i files w) <->
    exists n path text,
      nth_error files n = Some (path, text) /\
      occurs w (words text) = true /\
      h = mkHit (i + Z.of_nat n) (positions w (words text)).
Proof.
  induction files as [|[path text] files IH]; intros i; cbn [postings_from].
  - split; [intros [] | intros ([|n] & ? & ? & H & _); discriminate].
  - rewrite in_app_iff, IH. split.
    + intros [H|(n & p & t & Hn & Ho & ->)].
      * destruct (occurs w (words text)) eqn:E; [|destruct H].
        destruct H as [<-|[]]. exists 0%nat, path, text.
        rewrite Z.add_0_r. now repeat split.
      * exists (S n), p, t. repeat split; trivial. f_equal. lia.
    + intros ([|n] & p & t & Hn & Ho & ->); cbn [nth_error] in Hn.
      * injection Hn as <- <-. left. rewrite Ho, Z.add_0_r. now left.
      * right. exists n, p, t. repeat split; trivial. f_equal. lia.
Qed.

(** ** Writing [index.dat] and the table of terms *)

Lemma write_index_Ok (bo : byteorder) (items : list (string * list Hit)) :
  forall start f terms f' terms',
    write_index bo items start f terms = Ok (f', terms') ->
    f' = f ++ blocks bo items /\
    Forall (fun item => Forall header_fits (snd item)) items /\
    terms' = fold_left set_entry (directory bo start items) terms.
Proof.
  induction items as [|[word hits] items IH]; intros start f terms f' terms' H;
    cbn [write_index] in H.
  - injection H as <- <-. cbn. now rewrite app_nil_r.
  - bind_inv H. rename a into bytes.
    apply pack_hits_Ok in Ha as (-> & Hfit). cbn [app] in H.
    apply IH in H as (-> & Hfits & ->).
    split; [|split].
    + unfold blocks. cbn [flat_map snd]. now rewrite <- app_assoc.
    + constructor; assumption.
    + reflexivity.
Qed.

Lemma write_index_fits (bo : byteorder) (items : list (string * list Hit)) :
  Forall (fun item => Forall header_fits (snd item)) items ->
  forall start f terms,
    exists written, write_index bo items start f terms = Ok written.
Proof.
  induction 1 as [|[word hits] items Hh _ IH]; intros start f terms;
    cbn [write_index].
  - eauto.
  - cbn [snd] in Hh. rewrite (pack_hits_fits bo hits Hh). cbn [bind]. apply IH.
Qed.

Lemma directory_keys (bo : byteorder) (items : list (string * list Hit)) :
  forall start, keys (directory bo start items) = keys items.
Proof.
  induction items as [|[word hits] items IH]; intros start; [reflexivity|].
  cbn [directory]. unfold keys in *. cbn [map fst]. now rewrite IH.
Qed.

(** A term's entry locates exactly the bytes of its postings list. *)
Lemma directory_get (bo : byteorder) (items : list (string * list Hit))
    (w : string) (hits : list Hit) :
  NoDup (keys items) -> In (w, hits) items ->
  forall start pre,
    len pre = start ->
    exists s,
      dict_get String.eqb w (directory bo start items)
      = Some (s, len (encode_hits bo hits)) /\
      seek_read (pre ++ blocks bo items) s (len (encode_hits bo hits))
      = Ok (encode_hits bo hits).
Proof.
  induction items as [|[word hits0] items IH]; intros Hnd Hin start pre Hpre;
    [destruct Hin|].
  unfold keys in Hnd. cbn [map fst] in Hnd.
  inversion Hnd as [|? ? Hk Hd]; subst.
  cbn [directory dict_get]. unfold blocks. cbn [flat_map snd].
  fold (blocks bo items).
  destruct Hin as [[= -> ->]|Hin].
  - rewrite String.eqb_refl. exists (len pre). split; [reflexivity|].
    unfold seek_read, len.
    destruct (Z.ltb_spec (Z.of_nat (List.length pre)) 0); [lia|].
    destruct (Z.ltb_spec (Z.of_nat (List.length (encode_hits bo hits))) (-1));
      [lia|].
    destruct (Z.ltb_spec (Z.of_nat (List.length (encode_hits bo hits))) 0); [lia|].
    rewrite !Nat2Z.id, skipn_app_exact, firstn_app_exact; reflexivity.
  - assert (E : String.eqb w word = false).
    { apply String.eqb_neq. intros ->. apply Hk.
      change word with (fst (word, hits)). now apply in_map. }
    rewrite E. rewrite app_assoc. apply IH; trivial.
    unfold len. rewrite length_app. lia.
Qed.

Lemma encode_hits_length (bo : byteorder) (hits : list Hit) :
  (List.length hits <= List.length (encode_hits bo hits))%nat.
Proof.
  induction hits as [|h hits IH]; cbn [encode_hits flat_map List.length]; [lia|].
  fold (encode_hits bo hits). rewrite length_app.
  pose proof (posting_record_length bo h) as L. unfold len in L. lia.
Qed.

(** ** What [make_index] writes *)

Lemma positions_fit (file : string * string) (w : string) :
  words_fit file ->
  Forall (fun o => fits_uint32 o = true) (positions w (words (snd file))).
Proof.
  intros Hf. apply Forall_forall. intros o Ho.
  rewrite positions_from_0 in Ho. apply positions_from_range in Ho.
  apply Hf. lia.
Qed.

Lemma make_index_Ok (bo : byteorder) (files : list (string * string)) (t : TinyDir) :
  make_index bo files = Ok t ->
  exists index,
    t.(documents_csv)
    = map (fun file => (fst file, len (words (snd file)))) files /\
    t.(index_dat) = blocks bo index /\
    t.(terms_csv) = map terms_row (directory bo 0 index) /\
    keys index = first_seen (corpus files) /\
    (forall w, dict_get_default String.eqb [] w index = postings files w) /\
    Forall (fun item => Forall hit_fits (snd item)) index /\
    Forall words_fit files.
Proof.
  unfold make_index. intros H. bind_inv H. destruct a as [docs index].
  bind_inv H. destruct a as [f terms]. injection H as <-.
  apply index_files_Ok in Ha as (-> & Hget & Hkeys & Hfit).
  apply write_index_Ok in Ha0 as (-> & Hhdr & ->).
  assert (Hnd : NoDup (keys index)).
  { rewrite Hkeys. apply NoDup_fold_add_key. constructor. }
  exists index. cbn [documents_csv index_dat terms_csv app].
  split; [|split; [|split; [|split; [|split; [|split]]]]]; trivial.
  - rewrite map_map. reflexivity.
  - unfold set_entry.
    rewrite (dict_of_items String.eqb String.eqb_eq)
      by (cbn [app]; now rewrite directory_keys).
    apply map_ext. now intros [w [s l]].
  - intros w. rewrite Hget. cbn [dict_get_default dict_get app].
    symmetry. apply postings_from_0.
  - apply Forall_forall. intros [w hits] Hin. cbn [snd].
    rewrite Forall_forall in Hhdr. specialize (Hhdr _ Hin). cbn [snd] in Hhdr.
    apply (In_dict_get String.eqb String.eqb_eq) in Hin; [|assumption].
    specialize (Hget w). unfold dict_get_default at 1 in Hget.
    rewrite Hin in Hget. cbn [dict_get_default dict_get app] in Hget.
    apply Forall_forall. intros h Hh.
    rewrite Forall_forall in Hhdr. destruct (Hhdr _ Hh) as [H1 H2].
    repeat split; trivial.
    rewrite Hget in Hh. apply postings_from_In in Hh
      as (n & path & text & Hn & _ & ->).
    cbn [offsets]. apply nth_error_In in Hn.
    rewrite Forall_forall in Hfit.
    exact (positions_fit (path, text) w (Hfit _ Hn)).
Qed.

Lemma Index_init_terms (d : dict string (Z * Z)) :
  forall acc,
    fold_left
      (fun terms (row : string * Z * Z) =>
         let '(word, start, length) := row in
         dict_set String.eqb word (start, length) terms)
      (map terms_row d) acc
    = fold_left set_entry d acc.
Proof.
  induction d as [|[w [s l]] d IH]; intros acc; [reflexivity|].
  cbn [map fold_left terms_row fst snd]. now rewrite IH.
Qed.

(** Reading back through [lookup] what [make_index] wrote: the postings of
    every word, as the tokenizer gives them. *)
Lemma lookup_make_index (bo : byteorder) (files : list (string * string))
    (t : TinyDir) (w : string) :
  make_index bo files = Ok t ->
  lookup bo (Index_init t) w = Ok (postings files w).
Proof.
  intros H. apply make_index_Ok in H
    as (index & _ & Hdat & Hterms & Hkeys & Hget & Hfit & _).
  assert (Hnd : NoDup (keys index)).
  { rewrite Hkeys. apply NoDup_fold_add_key. constructor. }
  unfold lookup, Index_init. cbn [terms index_file].
  rewrite Hterms, Index_init_terms, Hdat. unfold set_entry.
  rewrite (dict_of_items String.eqb String.eqb_eq)
    by (cbn [app]; now rewrite directory_keys).
  cbn [app]. specialize (Hget w). unfold dict_get_default in Hget.
  destruct (dict_get String.eqb w index) as [hits|] eqn:E.
  - subst hits. apply (dict_get_In String.eqb String.eqb_eq) in E.
    destruct (directory_get bo index w _ Hnd E 0 [] eq_refl) as (s & -> & Hread).
    cbn [app] in Hread. rewrite Hread. cbn [bind].
    rewrite Forall_forall in Hfit. specialize (Hfit _ E). cbn [snd] in Hfit.
    exact (read_hits_encode bo _ Hfit _ [] [] (encode_hits_length bo _)).
  - apply (dict_get_None String.eqb String.eqb_eq) in E.
    rewrite <- (directory_keys bo index 0) in E.
    apply (dict_get_None String.eqb String.eqb_eq) in E.
    now rewrite E, <- Hget.
Qed.

(** Small enough documents are always indexed: [make_index] raises only
    when a count or a position does not fit in 32 bits. *)
Lemma make_index_total (bo : byteorder) (files : list (string * string)) :
  len files <= uint32_max ->
  Forall (fun file => len (words (snd file)) <= uint32_max) files ->
  exists t, make_index bo files = Ok t.
Proof.
  intros Hn Hw. unfold make_index.
  assert (Hfit : Forall words_fit files).
  { apply Forall_forall. intros file Hin j Hj.
    rewrite Forall_forall in Hw. specialize (Hw _ Hin).
    apply fits_uint32_iff. lia. }
  destruct (index_files_fit files Hfit [] []) as ([docs index] & E).
  rewrite E. cbn [bind].
  apply index_files_Ok in E as (_ & Hget & Hkeys & _).
  assert (Hnd : NoDup (keys index)).
  { rewrite Hkeys. apply NoDup_fold_add_key. constructor. }
  destruct (write_index_fits bo index) with (start := 0) (f := @nil byte)
    (terms := @nil (string * (Z * Z))) as ([f terms] & ->); [|cbn [bind]; eauto].
  apply Forall_forall. intros [w hits] Hin. cbn [snd].
  apply (In_dict_get String.eqb String.eqb_eq) in Hin; [|assumption].
  specialize (Hget w). unfold dict_get_default at 1 in Hget.
  rewrite Hin in Hget. cbn [dict_get_default dict_get app] in Hget.
  apply Forall_forall. intros h Hh. rewrite Hget in Hh.
  apply postings_from_In in Hh as (n & path & text & Hnth & _ & ->).
  unfold header_fits. cbn [doc_id offsets]. rewrite !fits_uint32_iff.
  assert (n < List.length files)%nat by (apply nth_error_Some; congruence).
  apply nth_error_In in Hnth. rewrite Forall_forall in Hw.
  specialize (Hw _ Hnth). cbn [snd] in Hw.
  pose proof (positions_from_length w (words text) 0) as L.
  rewrite <- positions_from_0 in L. unfold len in *.
  cbn [List.length] in *. lia.
Qed.

(** ** Tokens *)

Lemma lower_char_idem (c : ascii) : lower_char (lower_char c) = lower_char c.
Proof.
  destruct c as [[] [] [] [] [] [] [] []]; reflexivity.
Qed.

Lemma is_word_lower_char (c : ascii) : is_word (lower_char c) = is_word c.
Proof.
  destruct c as [[] [] [] [] [] [] [] []]; reflexivity.
Qed.

Lemma lower_app (s1 s2 : string) :
  lower (String.append s1 s2) = String.append (lower s1) (lower s2).
Proof.
  induction s1 as [|c s1 IH]; cbn [String.append lower]; [reflexivity|].
  now rewrite IH.
Qed.

Lemma string_forall_app (P : ascii -> bool) (s1 s2 : string) :
  string_forall P (String.append s1 s2)
  = string_forall P s1 && string_forall P s2.
Proof.
  induction s1 as [|c s1 IH]; cbn [String.append string_forall]; [reflexivity|].
  now rewrite IH, andb_assoc.
Qed.

Lemma string_forall_lower (s : string) : string_forall is_lower (lower s) = true.
Proof.
  induction s as [|c s IH]; cbn [lower string_forall]; [reflexivity|].
  rewrite IH, andb_true_r. unfold is_lower. rewrite lower_char_idem.
  apply Ascii.eqb_refl.
Qed.

Lemma lower_fixed (s : string) : string_forall is_lower s = true -> lower s = s.
Proof.
  induction s as [|c s IH]; cbn [lower string_forall]; [reflexivity|].
  intros H. apply andb_true_iff in H as [Hc Hs].
  apply Ascii.eqb_eq in Hc. now rewrite Hc, IH.
Qed.

Lemma string_forall_is_word_lower (s : string) :
  string_forall is_word (lower s) = string_forall is_word s.
Proof.
  induction s as [|c s IH]; cbn [lower string_forall]; [reflexivity|].
  now rewrite IH, is_word_lower_char.
Qed.

Lemma length_append (s1 s2 : string) :
  String.length (String.append s1 s2) = (String.length s1 + String.length s2)%nat.
Proof.
  induction s1 as [|c s1 IH]; cbn [String.append String.length]; [reflexivity|].
  now rewrite IH.
Qed.

Lemma append_assoc (s1 s2 s3 : string) :
  String.append (String.append s1 s2) s3 = String.append s1 (String.append s2 s3).
Proof.
  induction s1 as [|c s1 IH]; cbn [String.append]; [reflexivity|].
  now rewrite IH.
Qed.

Lemma append_empty_r (s : string) : String.append s EmptyString = s.
Proof.
  induction s as [|c s IH]; cbn [String.append]; [reflexivity|].
  now rewrite IH.
Qed.

(** Every token that [findall_word] gives is a run that is not empty, and
    its characters are characters of the run being read or of the text. *)
Lemma findall_word_tokens (P : ascii -> bool) (s : string) :
  forall cur w,
    string_forall P cur = true -> string_forall P s = true ->
    string_forall is_word cur = true ->
    In w (findall_word s cur) ->
    w <> EmptyString /\ string_forall is_word w = true /\
    string_forall P w = true.
Proof.
  induction s as [|c s IH]; intros cur w Hcur Hs Hwc Hin;
    cbn [findall_word] in Hin.
  - destruct (Nat.eqb_spec (String.length cur) 0) as [|Hn]; [destruct Hin|].
    destruct Hin as [<-|[]]. repeat split; trivial.
    intros ->. now apply Hn.
  - cbn [string_forall] in Hs. apply andb_true_iff in Hs as [Hc Hs].
    destruct (is_word c) eqn:Ew.
    + apply (IH (String.append cur (String c EmptyString)) w); trivial.
      * rewrite string_forall_app, Hcur. cbn [string_forall]. now rewrite Hc.
      * rewrite string_forall_app, Hwc. cbn [string_forall]. now rewrite Ew.
    + destruct (Nat.eqb_spec (String.length cur) 0) as [|Hn].
      * now apply (IH EmptyString w).
      * destruct Hin as [<-|Hin]; [|now apply (IH EmptyString w)].
        repeat split; trivial. intros ->. now apply Hn.
Qed.

(** A text of word characters only is a single token. *)
Lemma findall_word_run (s : string) :
  forall cur,
    string_forall is_word s = true ->
    findall_word s cur
    = if (String.length (String.append cur s) =? 0)%nat then []
      else [String.append cur s].
Proof.
  induction s as [|c s IH]; intros cur H; cbn [findall_word].
  - now rewrite append_empty_r.
  - cbn [string_forall] in H. apply andb_true_iff in H as [Hc Hs].
    rewrite Hc, (IH _ Hs), append_assoc. reflexivity.
Qed.

(** A character that is not a word character ends the run being read. *)
Lemma findall_word_separator (s1 s2 : string) (c : ascii) :
  is_word c = false ->
  forall cur,
    findall_word (String.append s1 (String c s2)) cur
    = findall_word s1 cur ++ findall_word s2 EmptyString.
Proof.
  intros Hc. induction s1 as [|c1 s1 IH]; intros cur;
    cbn [String.append findall_word].
  - rewrite Hc. now destruct (String.length cur =? 0)%nat.
  - destruct (is_word c1); [apply IH|].
    destruct (String.length cur =? 0)%nat; [apply IH|].
    cbn [app]. now rewrite IH.
Qed.

Lemma token_words (text w : string) :
  In w (words text) -> words w = [w].
Proof.
  intros H.
  destruct (findall_word_tokens is_lower (lower text) EmptyString w) as (H1 & H2 & H3);
    trivial; [apply string_forall_lower|].
  unfold words. rewrite (lower_fixed w H3).
  rewrite findall_word_run by assumption. cbn [String.append].
  destruct w; [now contradiction H1 | reflexivity].
Qed.

Lemma corpus_In (files : list (string * string)) (w : string) :
  In w (corpus files) <->
  exists n path text, nth_error files n = Some (path, text) /\ In w (words text).
Proof.
  unfold corpus. rewrite in_flat_map. split.
  - intros ([path text] & Hin & Hw). apply In_nth_error in Hin as (n & Hn).
    now exists n, path, text.
  - intros (n & path & text & Hn & Hw). exists (path, text).
    split; [now apply nth_error_In in Hn | exact Hw].
Qed.

(** ** Loading the index *)

Lemma token_is_word (text w : string) :
  In w (words text) -> string_forall is_word w = true.
Proof.
  intros H.
  destruct (findall_word_tokens is_lower (lower text) EmptyString w)
    as (_ & H2 & _); trivial.
  apply string_forall_lower.
Qed.

Lemma is_word_not_CR (c : ascii) : is_word c = true -> Ascii.eqb c CR = false.
Proof.
  intros H. destruct (Ascii.eqb_spec c CR) as [E|]; [|reflexivity].
  subst c. vm_compute in H. discriminate H.
Qed.

(** The text layer changes nothing in a string of word characters. *)
Lemma universal_newlines_word (s : string) :
  string_forall is_word s = true -> universal_newlines s = s.
Proof.
  induction s as [|c s IH]; cbn [string_forall universal_newlines];
    [reflexivity|].
  intros H. apply andb_true_iff in H as [Hc Hs].
  rewrite (is_word_not_CR c Hc). now rewrite IH.
Qed.

Lemma csv_field_Ok (s field : string) :
  csv_field s = Ok field <->
  field = universal_newlines s /\
  Z.of_nat (String.length (universal_newlines s)) <= field_size_limit.
Proof.
  unfold csv_field.
  destruct (Z.leb_spec (Z.of_nat (String.length (universal_newlines s)))
              field_size_limit) as [Hle|Hgt].
  - split; [intros [= <-]; now split | intros [-> _]; reflexivity].
  - split; [discriminate | intros [_ H]; lia].
Qed.

Lemma read_documents_csv_Ok (rows : list (string * Z)) :
  forall rows',
    read_documents_csv rows = Ok rows' <->
    rows' = map (fun row => (universal_newlines (fst row), snd row)) rows /\
    Forall (fun row => Z.of_nat (String.length (universal_newlines (fst row)))
                       <= field_size_limit) rows.
Proof.
  induction rows as [|[name n] rows IH]; intros rows';
    cbn [read_documents_csv map fst snd].
  - split; [intros [= <-]; now split | intros [-> _]; reflexivity].
  - split.
    + intros H. bind_inv H. rename a into line. bind_inv H. rename a into more.
      injection H as <-. apply csv_field_Ok in Ha as [-> Hle].
      apply IH in Ha0 as [-> Hall]. split; [reflexivity|].
      constructor; assumption.
    + intros [-> Hall]. inversion Hall as [|? ? Hle Hall']; subst.
      cbn [fst] in Hle.
      rewrite (proj2 (csv_field_Ok name _) (conj eq_refl Hle)). cbn [bind].
      rewrite (proj2 (IH _) (conj eq_refl Hall')). reflexivity.
Qed.

Lemma read_terms_csv_Ok (rows : list (string * Z * Z)) :
  forall rows',
    read_terms_csv rows = Ok rows' <->
    rows' = map (fun row : string * Z * Z =>
                   (universal_newlines (fst (fst row)), snd (fst row), snd row))
                rows /\
    Forall (fun row : string * Z * Z =>
              Z.of_nat (String.length (universal_newlines (fst (fst row))))
              <= field_size_limit) rows.
Proof.
  induction rows as [|[[term s] l] rows IH]; intros rows';
    cbn [read_terms_csv map fst snd].
  - split; [intros [= <-]; now split | intros [-> _]; reflexivity].
  - split.
    + intros H. bind_inv H. rename a into word. bind_inv H. rename a into more.
      injection H as <-. apply csv_field_Ok in Ha as [-> Hle].
      apply IH in Ha0 as [-> Hall]. split; [reflexivity|].
      constructor; assumption.
    + intros [-> Hall]. inversion Hall as [|? ? Hle Hall']; subst.
      cbn [fst] in Hle.
      rewrite (proj2 (csv_field_Ok term _) (conj eq_refl Hle)). cbn [bind].
      rewrite (proj2 (IH _) (conj eq_refl Hall')). reflexivity.
Qed.

(** The terms of a built index are tokens, which the text layer leaves as
    they are. *)
Lemma built_terms_rows (bo : byteorder) (files : list (string * string))
    (t : TinyDir) :
  make_index bo files = Ok t ->
  map (fun row : string * Z * Z =>
         (universal_newlines (fst (fst row)), snd (fst row), snd row))
      t.(terms_csv)
  = t.(terms_csv) /\
  (forall w, In w (map (fun row : string * Z * Z => fst (fst row)) t.(terms_csv))
             <-> In w (corpus files)).
Proof.
  intros Hm. apply make_index_Ok in Hm
    as (index & _ & _ & Hterms & Hkeys & _).
  assert (Hnames : map (fun row : string * Z * Z => fst (fst row)) t.(terms_csv)
                   = first_seen (corpus files)).
  { rewrite Hterms, map_map, <- Hkeys, <- (directory_keys bo index 0).
    unfold keys. apply map_ext. now intros [w [s l]]. }
  assert (Hin : forall w,
             In w (map (fun row : string * Z * Z => fst (fst row)) t.(terms_csv))
             <-> In w (corpus files)).
  { intros w. rewrite Hnames. unfold first_seen.
    rewrite In_fold_add_key. cbn [In]. tauto. }
  split; [|exact Hin].
  rewrite <- (map_id (terms_csv t)) at 2. apply map_ext_in.
  intros [[w s] l] Hrow. cbn [fst snd].
  assert (Hw : In w (corpus files)).
  { apply Hin. apply in_map_iff. now exists (w, s, l). }
  apply corpus_In in Hw as (n & path & text & _ & Hw).
  now rewrite (universal_newlines_word w (token_is_word text w Hw)).
Qed.

(** What [Index] holds once it has loaded a built index: the blob and the
    table of terms as they were written, and the documents with their
    names as the text layer gives them. *)
Lemma Index_open_built (bo : byteorder) (files : list (string * string))
    (t : TinyDir) (self : Index) :
  make_index bo files = Ok t -> Index_open t = Ok self ->
  self.(index_file) = (Index_init t).(index_file) /\
  self.(terms) = (Index_init t).(terms) /\
  self.(documents) = map document_read files.
Proof.
  intros Hm H. unfold Index_open in H. bind_inv H. rename a into docs.
  bind_inv H. rename a into rows. injection H as <-.
  apply read_documents_csv_Ok in Ha as [-> _].
  apply read_terms_csv_Ok in Ha0 as [-> _].
  rewrite (proj1 (built_terms_rows bo files t Hm)).
  unfold Index_init. cbn [index_file terms documents documents_csv index_dat
                          terms_csv].
  split; [reflexivity|]. split; [reflexivity|].
  apply make_index_Ok in Hm as (index & -> & _).
  rewrite !map_map. apply map_ext. now intros [path text].
Qed.

(** A built index loads when no file name and no token is longer than a
    field of [csv] may be, and only then. *)
Lemma Index_open_loads (bo : byteorder) (files : list (string * string))
    (t : TinyDir) :
  make_index bo files = Ok t ->
  (exists self, Index_open t = Ok self) <->
  Forall (fun file => Z.of_nat (String.length (universal_newlines (fst file)))
                      <= field_size_limit) files /\
  Forall (fun w => Z.of_nat (String.length w) <= field_size_limit)
         (corpus files).
Proof.
  intros Hm. pose proof (built_terms_rows bo files t Hm) as [Hrows Hin].
  pose proof Hm as Hm'.
  apply make_index_Ok in Hm' as (index & Hdocs & _).
  assert (Hd : Forall (fun row : string * Z =>
                         Z.of_nat (String.length (universal_newlines (fst row)))
                         <= field_size_limit) t.(documents_csv)
               <-> Forall (fun file : string * string =>
                             Z.of_nat (String.length (universal_newlines (fst file)))
                             <= field_size_limit) files).
  { rewrite Hdocs, Forall_map. rewrite !Forall_forall.
    split; intros H [path text] Hfile; exact (H (path, text) Hfile). }
  assert (Ht : Forall (fun row : string * Z * Z =>
                         Z.of_nat (String.length (universal_newlines (fst (fst row))))
                         <= field_size_limit) t.(terms_csv)
               <-> Forall (fun w => Z.of_nat (String.length w) <= field_size_limit)
                     (corpus files)).
  { rewrite !Forall_forall. split.
    - intros H w Hw. pose proof Hw as Hw'.
      apply Hin in Hw. apply in_map_iff in Hw as (row & <- & Hrow).
      specialize (H _ Hrow).
      apply corpus_In in Hw' as (n & path & text & _ & Hw').
      now rewrite (universal_newlines_word _ (token_is_word text _ Hw')) in H.
    - intros H [[w s] l] Hrow. cbn [fst].
      assert (Hw : In w (corpus files)).
      { apply Hin. apply in_map_iff. now exists (w, s, l). }
      pose proof (H _ Hw) as Hle.
      apply corpus_In in Hw as (n & path & text & _ & Hw).
      now rewrite (universal_newlines_word _ (token_is_word text _ Hw)). }
  unfold Index_open. split.
  - intros (self & H). bind_inv H. bind_inv H.
    apply read_documents_csv_Ok in Ha as [_ Ha].
    apply read_terms_csv_Ok in Ha0 as [_ Ha0].
    split; [now apply Hd | now apply Ht].
  - intros [H1 H2]. apply Hd in H1. apply Ht in H2.
    rewrite (proj2 (read_documents_csv_Ok _ _) (conj eq_refl H1)). cbn [bind].
    rewrite (proj2 (read_terms_csv_Ok _ _) (conj eq_refl H2)). cbn [bind].
    eauto.
Qed.

(** [lookup] reads the table of terms and the blob, not the documents. *)
Lemma lookup_same (bo : byteorder) (self self' : Index) (w : string) :
  self.(index_file) = self'.(index_file) -> self.(terms) = self'.(terms) ->
  lookup bo self w = lookup bo self' w.
Proof.
  intros Hf Ht. unfold lookup. now rewrite Hf, Ht.
Qed.

(** Reading back through [lookup], in an index that has loaded, what
    [make_index] wrote: the postings of every word, as the tokenizer gives
    them. *)
Lemma lookup_open (bo : byteorder) (files : list (string * string))
    (t : TinyDir) (self : Index) (w : string) :
  make_index bo files = Ok t -> Index_open t = Ok self ->
  lookup bo self w = Ok (postings files w).
Proof.
  intros Hm Ho.
  destruct (Index_open_built bo files t self Hm Ho) as (Hf & Ht & _).
  rewrite (lookup_same bo self (Index_init t) w Hf Ht).
  now apply lookup_make_index.
Qed.
(** * Properties of the specification *)

(** C1. Round trip: once [make_index] has built the index of any set of
    documents and [Index] has loaded it, [lookup] of every term that occurs
    in them returns the postings whose offsets are the 0-based token
    positions recomputed from the output of [words] on each document's
    text. For the single document ["a b a"], whose name is not longer
    than a field of [csv] may be, the index loads, [lookup "a"] is one
    posting with offsets [[0; 2]] and [lookup "b"] one posting with
    offsets [[1]]. *)
Theorem round_trip (bo : byteorder) (files : list (string * string)) (t : TinyDir)
    (self : Index) (w : string) :
  make_index bo files = Ok t ->
  Index_open t = Ok self ->
  In w (corpus files) ->
  lookup bo self w = Ok (postings files w) /\
  postings files w <> [] /\
  (forall path,
      Z.of_nat (String.length (universal_newlines path)) <= field_size_limit ->
      exists t1 self1,
        make_index bo [(path, "a b a")] = Ok t1 /\
        Index_open t1 = Ok self1 /\
        lookup bo self1 "a" = Ok [mkHit 0 [0; 2]] /\
        lookup bo self1 "b" = Ok [mkHit 0 [1]]).
Proof.
  intros H Ho Hw. split; [now apply (lookup_open bo files t)|]. split.
  - unfold corpus in Hw. apply in_flat_map in Hw as ([path text] & Hin & Hw).
    apply In_nth_error in Hin as (n & Hn). cbn [snd] in Hw.
    assert (Hp : In (mkHit (0 + Z.of_nat n) (positions w (words text)))
                    (postings files w)).
    { rewrite postings_from_0. apply postings_from_In.
      exists n, path, text. repeat split; trivial. now apply occurs_In. }
    intros E. rewrite E in Hp. destruct Hp.
  - intros path Hpath.
    assert (Hm : exists t1, make_index bo [(path, "a b a")] = Ok t1)
      by (destruct bo; eexists; reflexivity).
    destruct Hm as (t1 & Hm).
    assert (Hl : exists self1, Index_open t1 = Ok self1).
    { apply (Index_open_loads bo [(path, "a b a")] t1 Hm). split.
      - constructor; [exact Hpath | constructor].
      - change (corpus [(path, "a b a")]) with ["a"; "b"; "a"].
        unfold field_size_limit.
        repeat (constructor; [cbn [String.length]; lia|]). constructor. }
    destruct Hl as (self1 & Hl). exists t1, self1.
    split; [exact Hm|]. split; [exact Hl|].
    rewrite !(lookup_open bo [(path, "a b a")] t1 self1 _ Hm Hl).
    split; reflexivity.
Qed.

Lemma round_trip_witness :
  make_index little example_files = Ok example_tiny /\
  Index_open example_tiny = Ok (Index_init example_tiny) /\
  In "b" (corpus example_files) /\
  lookup little (Index_init example_tiny) "b"
  = Ok [mkHit 0 [1]; mkHit 1 [0]].
Proof.
  split; [reflexivity|]. split; [reflexivity|]. split; [vm_compute; tauto|].
  exact (proj1 (round_trip little example_files example_tiny
                  (Index_init example_tiny) "b"
                  eq_refl eq_refl (or_intror (or_introl eq_refl)))).
Defined.

(** ** The term directory partitions the blob *)

Lemma directory_contiguous (bo : byteorder) (items : list (string * list Hit)) :
  forall start,
    contiguous start (map terms_row (directory bo start items)) /\
    total (map byte_length (map terms_row (directory bo start items)))
    = len (blocks bo items).
Proof.
  induction items as [|[w hits] items IH]; intros start.
  - split; [exact I | reflexivity].
  - cbn [directory map contiguous]. unfold blocks. cbn [flat_map snd total fold_right].
    fold (blocks bo items).
    change (byte_offset (terms_row (w, (start, len (encode_hits bo hits)))))
      with start.
    change (byte_length (terms_row (w, (start, len (encode_hits bo hits)))))
      with (len (encode_hits bo hits)).
    destruct (IH (start + len (encode_hits bo hits))) as [Hc Ht].
    split.
    + repeat split; [unfold len; lia | exact Hc].
    + fold (total (map byte_length (map terms_row
              (directory bo (start + len (encode_hits bo hits)) items)))).
      rewrite Ht. unfold len. rewrite length_app. lia.
Qed.

Lemma contiguous_offset (rows : list (string * Z * Z)) :
  forall start k row,
    contiguous start rows -> nth_error rows k = Some row ->
    byte_offset row = start + total (map byte_length (firstn k rows)) /\
    0 <= byte_length row /\
    0 <= total (map byte_length (firstn k rows)).
Proof.
  induction rows as [|r rows IH]; intros start k row Hc Hk.
  - destruct k; discriminate.
  - destruct Hc as (Ho & Hl & Hc). destruct k as [|k]; cbn [nth_error] in Hk.
    + injection Hk as <-. cbn [firstn map total fold_right]. lia.
    + destruct (IH _ _ _ Hc Hk) as (E & L & T).
      cbn [firstn map total fold_right].
      fold (total (map byte_length (firstn k rows))). lia.
Qed.

Lemma contiguous_ordered (rows : list (string * Z * Z)) :
  forall start i j ri rj,
    contiguous start rows ->
    nth_error rows i = Some ri -> nth_error rows j = Some rj -> (i < j)%nat ->
    byte_offset ri + byte_length ri <= byte_offset rj.
Proof.
  induction rows as [|r rows IH]; intros start i j ri rj Hc Hi Hj Hlt.
  - destruct i; discriminate.
  - destruct Hc as (Ho & Hl & Hc). destruct j as [|j]; [lia|].
    cbn [nth_error] in Hj. destruct i as [|i]; cbn [nth_error] in Hi.
    + injection Hi as <-.
      destruct (contiguous_offset _ _ _ _ Hc Hj) as (E & _ & T). lia.
    + apply (IH _ i j ri rj Hc Hi Hj). lia.
Qed.

(** C2. In every index written by [make_index] the rows of the table of
    terms partition [index.dat]: the first byte offset is 0, every byte
    offset is the total of the byte lengths of the rows before it (the
    bytes written so far), the byte lengths add up to the size of the
    blob, and the byte ranges of two different rows have no byte in
    common. *)
Theorem directory_partitions_blob (bo : byteorder)
    (files : list (string * string)) (t : TinyDir) :
  make_index bo files = Ok t ->
  let rows := t.(terms_csv) in
  (forall row, nth_error rows 0 = Some row -> byte_offset row = 0) /\
  (forall k row,
      nth_error rows k = Some row ->
      byte_offset row = total (map byte_length (firstn k rows)) /\
      byte_offset row = len (firstn (Z.to_nat (byte_offset row)) t.(index_dat))) /\
  total (map byte_length rows) = len t.(index_dat) /\
  (forall i j ri rj x,
      nth_error rows i = Some ri -> nth_error rows j = Some rj -> i <> j ->
      byte_offset ri <= x < byte_offset ri + byte_length ri ->
      byte_offset rj <= x < byte_offset rj + byte_length rj ->
      False).
Proof.
  intros H rows. subst rows.
  apply make_index_Ok in H as (index & _ & Hdat & Hterms & _).
  rewrite Hterms, Hdat.
  destruct (directory_contiguous bo index 0) as [Hc Ht].
  set (rows := map terms_row (directory bo 0 index)) in *.
  assert (Hoff : forall k row, nth_error rows k = Some row ->
            byte_offset row = total (map byte_length (firstn k rows)) /\
            0 <= byte_length row /\
            byte_offset row + byte_length row <= total (map byte_length rows)).
  { intros k row Hk. destruct (contiguous_offset _ _ _ _ Hc Hk) as (E & L & T).
    repeat split; trivial.
    rewrite <- (firstn_skipn k rows) at 1. rewrite map_app.
    assert (Hs : skipn k rows = row :: skipn (S k) rows).
    { clear - Hk. revert k Hk. induction rows as [|r rows IH]; intros [|k] Hk;
        try discriminate.
      - now injection Hk as <-.
      - cbn [nth_error] in Hk. apply (IH _ Hk). }
    rewrite Hs. cbn [map].
    assert (Hnn : forall l, contiguous (byte_offset row + byte_length row) l ->
                            0 <= total (map byte_length l)).
    { clear. intros l. generalize (byte_offset row + byte_length row).
      induction l as [|r l IH]; intros s Hc; cbn [map total fold_right]; [lia|].
      destruct Hc as (_ & Hl & Hc). specialize (IH _ Hc).
      fold (total (map byte_length l)). lia. }
    assert (Hc' : contiguous (byte_offset row + byte_length row) (skipn (S k) rows)).
    { clear - Hc Hk. revert Hc Hk. generalize 0. revert k.
      induction rows as [|r rows IH]; intros [|k] s Hc Hk; try discriminate.
      - injection Hk as <-. destruct Hc as (-> & _ & Hc). exact Hc.
      - destruct Hc as (_ & _ & Hc). apply (IH _ _ Hc Hk). }
    specialize (Hnn _ Hc').
    assert (Happ : forall l1 l2, total (l1 ++ l2) = total l1 + total l2).
    { clear. induction l1 as [|a l1 IH]; intros l2; cbn [app total fold_right];
        [reflexivity|]. fold (total (l1 ++ l2)). fold (total l1).
      rewrite IH. lia. }
    rewrite Happ. cbn [total fold_right].
    fold (total (map byte_length (skipn (S k) rows))). lia. }
  split; [|split; [|split]].
  - intros row H0. destruct (Hoff 0%nat row H0) as (E & _). exact E.
  - intros k row Hk. destruct (Hoff k row Hk) as (E & L & B). split; [exact E|].
    unfold len. rewrite length_firstn.
    destruct (contiguous_offset _ _ _ _ Hc Hk) as (_ & _ & T).
    unfold len in Ht. lia.
  - exact Ht.
  - intros i j ri rj x Hi Hj Hne Hxi Hxj.
    destruct (Nat.lt_total i j) as [Hlt|[->|Hlt]]; [| congruence |].
    + pose proof (contiguous_ordered _ _ _ _ _ _ Hc Hi Hj Hlt). lia.
    + pose proof (contiguous_ordered _ _ _ _ _ _ Hc Hj Hi Hlt). lia.
Qed.

Lemma directory_partitions_blob_witness :
  make_index little example_files = Ok example_tiny /\
  total (map byte_length example_tiny.(terms_csv)) = len example_tiny.(index_dat).
Proof.
  split; [reflexivity|].
  exact (proj1 (proj2 (proj2
           (directory_partitions_blob little example_files example_tiny eq_refl)))).
Defined.

(** ** The score accumulator *)

Section SearchFacts.
Context {F : Float}.
Variable bo : byteorder.
Variable self : Index.

Lemma score_hit_Ok (idf : float) (scores scores' : dict Z float) (h : Hit) :
  score_hit self idf scores h = Ok scores' ->
  exists doc,
    list_getitem self.(documents) h.(doc_id) = Ok doc /\
    doc.(size) <> 0 /\
    scores'
    = dict_set Z.eqb h.(doc_id)
        (float_add (dict_get_default Z.eqb float_zero h.(doc_id) scores)
                   (tf_idf h doc.(size) idf))
        scores.
Proof.
  unfold score_hit. intros H. bind_inv H. rename a into doc.
  destruct (Z.eqb_spec (size doc) 0); [discriminate|].
  injection H as <-. exists doc. now repeat split.
Qed.

Lemma In_keys_dict_set (d k : Z) (v : float) (scores : dict Z float) :
  In d (keys (dict_set Z.eqb k v scores)) <-> In d (keys scores) \/ d = k.
Proof.
  rewrite (keys_dict_set Z.eqb).
  destruct (existsb (Z.eqb k) (keys scores)) eqn:E.
  - apply (existsb_eqb Z.eqb Z.eqb_eq) in E. split; [tauto|].
    intros [H| ->]; assumption.
  - rewrite in_app_iff. cbn [In]. intuition congruence.
Qed.

Lemma NoDup_keys_dict_set (k : Z) (v : float) (scores : dict Z float) :
  NoDup (keys scores) -> NoDup (keys (dict_set Z.eqb k v scores)).
Proof.
  intros H. rewrite (keys_dict_set Z.eqb).
  destruct (existsb (Z.eqb k) (keys scores)) eqn:E; [assumption|].
  assert (Hn : ~ In k (keys scores)).
  { rewrite <- (existsb_eqb Z.eqb Z.eqb_eq). congruence. }
  apply NoDup_rev in H. rewrite <- (rev_involutive (keys scores ++ [k])).
  apply NoDup_rev. rewrite rev_app_distr. cbn [rev app].
  constructor; [now rewrite <- in_rev | assumption].
Qed.

Lemma score_hits_Ok (idf : float) (hits : list Hit) :
  forall scores scores',
    score_hits self idf hits scores = Ok scores' ->
    (forall d, In d (keys scores') <->
               In d (keys scores) \/ In d (map doc_id hits)) /\
    (NoDup (keys scores) -> NoDup (keys scores')) /\
    Forall (fun h => exists doc,
                list_getitem self.(documents) h.(doc_id) = Ok doc /\
                doc.(size) <> 0) hits.
Proof.
  induction hits as [|h hits IH]; intros scores scores' H; cbn [score_hits] in H.
  - injection H as <-. cbn [map In]. repeat split; try tauto. constructor.
  - bind_inv H. apply score_hit_Ok in Ha as (doc & Hdoc & Hsz & ->).
    apply IH in H as (Hk & Hnd & Hall). split; [|split].
    + intros d. rewrite Hk, In_keys_dict_set. cbn [map In].
      intuition congruence.
    + intros Hs. now apply Hnd, NoDup_keys_dict_set.
    + constructor; [now exists doc | assumption].
Qed.

(** The score of a document that no hit names does not move. *)
Lemma score_hits_keep (idf : float) (hits : list Hit) (d : Z) :
  forall scores scores',
    ~ In d (map doc_id hits) ->
    score_hits self idf hits scores = Ok scores' ->
    dict_get_default Z.eqb float_zero d scores'
    = dict_get_default Z.eqb float_zero d scores.
Proof.
  induction hits as [|h0 hs IH]; intros scores scores' Hn H;
    cbn [score_hits] in H.
  - now injection H as <-.
  - bind_inv H. apply score_hit_Ok in Ha as (doc & _ & _ & ->).
    cbn [map In] in Hn. rewrite (IH _ _ (fun x => Hn (or_intror x)) H).
    unfold dict_get_default.
    rewrite (dict_get_set_other Z.eqb Z.eqb_eq); [reflexivity|].
    intros E. apply Hn. now left.
Qed.

Lemma inverse_log_Ok (df idf : float) :
  inverse_log df = Ok idf ->
  idf = float_log (float_div (float_of_int 1) df).
Proof.
  unfold inverse_log. destruct (float_eqb df float_zero); [discriminate|].
  destruct (float_ltb (float_div (float_of_int 1) df) float_zero
            || float_eqb (float_div (float_of_int 1) df) float_zero);
    [discriminate|].
  now intros [= <-].
Qed.

(** One posting per document: the score of the document of a hit moves
    by one [tf * idf]. *)
Lemma score_hits_get (idf : float) (hits : list Hit) :
  NoDup (map doc_id hits) ->
  forall scores scores' h,
    score_hits self idf hits scores = Ok scores' -> In h hits ->
    exists doc,
      list_getitem self.(documents) h.(doc_id) = Ok doc /\
      dict_get_default Z.eqb float_zero h.(doc_id) scores'
      = float_add (dict_get_default Z.eqb float_zero h.(doc_id) scores)
                  (tf_idf h doc.(size) idf).
Proof.
  assert (Hkeep : forall hs d scores scores',
             ~ In d (map doc_id hs) ->
             score_hits self idf hs scores = Ok scores' ->
             dict_get_default Z.eqb float_zero d scores'
             = dict_get_default Z.eqb float_zero d scores).
  { induction hs as [|h0 hs IH]; intros d scores scores' Hn H;
      cbn [score_hits] in H.
    - now injection H as <-.
    - bind_inv H. apply score_hit_Ok in Ha as (doc & _ & _ & ->).
      cbn [map In] in Hn. rewrite (IH _ _ _ (fun x => Hn (or_intror x)) H).
      unfold dict_get_default.
      rewrite (dict_get_set_other Z.eqb Z.eqb_eq); [reflexivity|].
      intros E. apply Hn. now left. }
  induction hits as [|h0 hits IH]; intros Hnd scores scores' h H Hin;
    [destruct Hin|].
  cbn [map] in Hnd. inversion Hnd as [|? ? Hfresh Hnd']; subst.
  cbn [score_hits] in H. bind_inv H.
  apply score_hit_Ok in Ha as (doc & Hdoc & _ & ->).
  destruct Hin as [->|Hin].
  - exists doc. split; [assumption|].
    rewrite (Hkeep _ _ _ _ Hfresh H). unfold dict_get_default at 1.
    now rewrite (dict_get_set_same Z.eqb Z.eqb_eq).
  - destruct (IH Hnd' _ _ _ H Hin) as (doc' & Hdoc' & ->).
    exists doc'. split; [assumption|]. f_equal.
    unfold dict_get_default.
    rewrite (dict_get_set_other Z.eqb Z.eqb_eq); [reflexivity|].
    intros E. apply Hfresh. rewrite E. now apply in_map.
Qed.

Lemma score_word_Ok (scores scores' : dict Z float) (w : string) :
  score_word bo self scores w = Ok scores' ->
  exists hits,
    lookup bo self w = Ok hits /\
    ((hits = [] /\ scores' = scores) \/
     (hits <> [] /\ len self.(documents) <> 0 /\
      exists idf,
        inverse_log (int_truediv (len hits) (len self.(documents))) = Ok idf /\
        score_hits self idf hits scores = Ok scores')).
Proof.
  unfold score_word. intros H. bind_inv H. rename a into hits.
  exists hits. split; [assumption|].
  destruct hits as [|h hits]; [left; now injection H as <-|].
  right. split; [discriminate|].
  destruct (Z.eqb_spec (len (documents self)) 0); [discriminate|].
  bind_inv H. split; [assumption|]. now exists a.
Qed.

(** The documents in the accumulator are those of the postings of the
    words processed. *)
Lemma score_words_keys (ws : list string) :
  forall scores scores',
    score_words bo self ws scores = Ok scores' ->
    (forall d, In d (keys scores') <->
               In d (keys scores) \/
               exists w hits h,
                 In w ws /\ lookup bo self w = Ok hits /\
                 In h hits /\ h.(doc_id) = d) /\
    (NoDup (keys scores) -> NoDup (keys scores')) /\
    (Forall (has_document self) (keys scores) -> Forall (has_document self) (keys scores')).
Proof.
  induction ws as [|w ws IH]; intros scores scores' H; cbn [score_words] in H.
  - injection H as <-. repeat split; try tauto.
    intros [H|(w & hits & h & [] & _)]. exact H.
  - bind_inv H. rename a into scores1.
    apply score_word_Ok in Ha as (hits & Hl & Hcase).
    apply IH in H as (Hk & Hnd & Hdoc).
    destruct Hcase as [[-> ->]|(Hne & _ & idf & _ & Hs)].
    + split; [|split; assumption].
      intros d. rewrite Hk. split.
      * intros [H|(w' & hits & h & Hw & Hl' & Hh & E)]; [now left|].
        right. exists w', hits, h. repeat split; trivial. now right.
      * intros [H|(w' & hits & h & [<-|Hw] & Hl' & Hh & E)]; [now left| |].
        -- rewrite Hl in Hl'. injection Hl' as <-. destruct Hh.
        -- right. now exists w', hits, h.
    + apply score_hits_Ok in Hs as (Hk1 & Hnd1 & Hall). split; [|split].
      * intros d. rewrite Hk, Hk1. split.
        -- intros [[H|H]|(w' & hits' & h & Hw & Hl' & Hh & E)].
           ++ now left.
           ++ apply in_map_iff in H as (h & E & Hh). right.
              exists w, hits, h. repeat split; trivial. now left.
           ++ right. exists w', hits', h. repeat split; trivial. now right.
        -- intros [H|(w' & hits' & h & [<-|Hw] & Hl' & Hh & E)].
           ++ now left; left.
           ++ rewrite Hl in Hl'. injection Hl' as <-. left; right.
              rewrite <- E. now apply in_map.
           ++ right. now exists w', hits', h.
      * intros Hs. now apply Hnd, Hnd1.
      * intros Hs. apply Hdoc. apply Forall_forall. intros d Hd.
        apply Hk1 in Hd as [Hd|Hd].
        -- rewrite Forall_forall in Hs. now apply Hs.
        -- apply in_map_iff in Hd as (h & <- & Hh).
           rewrite Forall_forall in Hall.
           destruct (Hall _ Hh) as (doc & Hdoc' & _). now exists doc.
Qed.

Lemma score_words_app (ws1 ws2 : list string) :
  forall scores,
    score_words bo self (ws1 ++ ws2) scores
    = (scores1 <- score_words bo self ws1 scores ;;
       score_words bo self ws2 scores1).
Proof.
  induction ws1 as [|w ws1 IH]; intros scores; cbn [app score_words bind];
    [reflexivity|].
  destruct (score_word bo self scores w); cbn [bind]; [apply IH | reflexivity].
Qed.

(** ** Ranking *)

Lemma In_insert_reverse (p q : Z * float) (l : list (Z * float)) :
  In q (insert_reverse p l) <-> q = p \/ In q l.
Proof.
  induction l as [|r l IH]; cbn [insert_reverse In].
  - intuition congruence.
  - destruct (float_ltb (snd p) (snd r)); cbn [In]; [rewrite IH|];
      intuition congruence.
Qed.

Lemma insert_reverse_Permutation (p : Z * float) (l : list (Z * float)) :
  Permutation (insert_reverse p l) (p :: l).
Proof.
  induction l as [|r l IH]; cbn [insert_reverse]; [reflexivity|].
  destruct (float_ltb (snd p) (snd r)); [|reflexivity].
  rewrite IH. apply perm_swap.
Qed.

Lemma sorted_reverse_Permutation (l : list (Z * float)) :
  Permutation (sorted_reverse l) l.
Proof.
  induction l as [|p l IH]; cbn [sorted_reverse fold_right]; [reflexivity|].
  fold (sorted_reverse l). rewrite insert_reverse_Permutation.
  now constructor.
Qed.

Lemma insert_reverse_sorted (L : list (Z * float)) (p : Z * float)
    (l : list (Z * float)) :
  ordered_scores L -> In p L -> incl l L ->
  StronglySorted not_below l ->
  StronglySorted not_below (insert_reverse p l).
Proof.
  intros [Hasym Htrans] Hp. induction l as [|q l IH]; intros Hl Hs;
    cbn [insert_reverse].
  - repeat constructor.
  - assert (Hq : In q L) by (apply Hl; now left).
    assert (Hl' : incl l L) by (intros x Hx; apply Hl; now right).
    inversion Hs as [|? ? Hs' Hall]; subst.
    destruct (float_ltb (snd p) (snd q)) eqn:E.
    + constructor; [now apply IH|].
      apply Forall_forall. intros x Hx.
      apply In_insert_reverse in Hx as [->|Hx].
      * unfold not_below. now apply Hasym.
      * rewrite Forall_forall in Hall. now apply Hall.
    + constructor; [assumption|]. constructor; [exact E|].
      apply Forall_forall. intros x Hx.
      rewrite Forall_forall in Hall. unfold not_below.
      apply (Htrans p q x); trivial; [now apply Hl' | now apply Hall].
Qed.

Lemma sorted_reverse_sorted (l : list (Z * float)) :
  ordered_scores l -> StronglySorted not_below (sorted_reverse l).
Proof.
  intros Hord.
  assert (H : forall l', incl l' l -> StronglySorted not_below (sorted_reverse l')).
  { induction l' as [|p l' IH]; intros Hincl; cbn [sorted_reverse fold_right].
    - constructor.
    - fold (sorted_reverse l').
      apply (insert_reverse_sorted l); trivial.
      + apply Hincl. now left.
      + intros x Hx. apply Hincl. right.
        now apply (Permutation_in _ (sorted_reverse_Permutation l')).
      + apply IH. intros x Hx. apply Hincl. now right. }
  apply H, incl_refl.
Qed.

(** ** Naming the results *)

Lemma with_filenames_Ok (l : list (Z * float)) :
  forall named, with_filenames self l = Ok named -> Forall2 (named_as self) l named.
Proof.
  induction l as [|[d s] l IH]; intros named H; cbn [with_filenames] in H.
  - injection H as <-. constructor.
  - bind_inv H. rename a into doc. bind_inv H. injection H as <-.
    constructor; [now exists doc | now apply IH].
Qed.

Lemma with_filenames_total (l : list (Z * float)) :
  Forall (has_document self) (keys l) ->
  exists named, with_filenames self l = Ok named.
Proof.
  induction l as [|[d s] l IH]; intros H; cbn [with_filenames].
  - eauto.
  - unfold keys in H. cbn [map fst] in H.
    inversion H as [|? ? Hd Hl]; subst. destruct Hd as (doc & Hd).
    rewrite Hd. cbn [bind].
    destruct (IH Hl) as (named & ->). cbn [bind]. eauto.
Qed.
End SearchFacts.

(** ** The documents of a built index *)

Lemma list_getitem_nth {A : Type} (l : list A) (n : nat) (a : A) :
  nth_error l n = Some a -> list_getitem l (Z.of_nat n) = Ok a.
Proof.
  intros H. unfold list_getitem.
  destruct (Z.ltb_spec (Z.of_nat n) 0); [lia|].
  destruct (Z.ltb_spec (Z.of_nat n) 0); [lia|].
  now rewrite Nat2Z.id, H.
Qed.

Lemma list_getitem_nonneg {A : Type} (l : list A) (i : Z) (a : A) :
  0 <= i -> list_getitem l i = Ok a -> nth_error l (Z.to_nat i) = Some a.
Proof.
  intros Hi. unfold list_getitem.
  destruct (Z.ltb_spec i 0); [lia|].
  destruct (Z.ltb_spec i 0); [lia|].
  destruct (nth_error l (Z.to_nat i)); [now intros [= ->] | discriminate].
Qed.

Lemma make_index_documents (bo : byteorder) (files : list (string * string))
    (t : TinyDir) :
  make_index bo files = Ok t ->
  (Index_init t).(documents) = map document_of files.
Proof.
  intros H. apply make_index_Ok in H as (index & Hdocs & _).
  unfold Index_init. cbn [documents]. rewrite Hdocs, map_map.
  apply map_ext. now intros [path text].
Qed.

(** A posting of a built index names a document that holds the word. *)
Lemma posting_document (bo : byteorder) (files : list (string * string))
    (t : TinyDir) (w : string) (hits : list Hit) (h : Hit) :
  make_index bo files = Ok t ->
  lookup bo (Index_init t) w = Ok hits -> In h hits ->
  exists n path text,
    nth_error files n = Some (path, text) /\
    In w (words text) /\
    h = mkHit (Z.of_nat n) (positions w (words text)) /\
    list_getitem (Index_init t).(documents) h.(doc_id)
    = Ok (mkDocument path (len (words text))).
Proof.
  intros Hm Hl Hh.
  rewrite (lookup_make_index bo files t w Hm) in Hl. injection Hl as <-.
  rewrite postings_from_0 in Hh.
  apply postings_from_In in Hh as (n & path & text & Hn & Ho & ->).
  exists n, path, text. cbn [Z.add doc_id].
  repeat split; trivial; [now apply occurs_In|].
  rewrite (make_index_documents bo files t Hm).
  apply list_getitem_nth. now rewrite nth_error_map, Hn.
Qed.

(** The same in an index that has loaded: the name of the document is the
    name of the file as the text layer gives it. *)
Lemma posting_document_open (bo : byteorder) (files : list (string * string))
    (t : TinyDir) (self : Index) (w : string) (hits : list Hit) (h : Hit) :
  make_index bo files = Ok t -> Index_open t = Ok self ->
  lookup bo self w = Ok hits -> In h hits ->
  exists n path text,
    nth_error files n = Some (path, text) /\
    In w (words text) /\
    h = mkHit (Z.of_nat n) (positions w (words text)) /\
    list_getitem self.(documents) h.(doc_id)
    = Ok (mkDocument (universal_newlines path) (len (words text))).
Proof.
  intros Hm Ho Hl Hh.
  rewrite (lookup_open bo files t self w Hm Ho) in Hl. injection Hl as <-.
  rewrite postings_from_0 in Hh.
  apply postings_from_In in Hh as (n & path & text & Hn & Hocc & ->).
  exists n, path, text. cbn [Z.add doc_id].
  repeat split; trivial; [now apply occurs_In|].
  destruct (Index_open_built bo files t self Hm Ho) as (_ & _ & ->).
  apply list_getitem_nth. now rewrite nth_error_map, Hn.
Qed.

Lemma open_document (bo : byteorder) (files : list (string * string))
    (t : TinyDir) (self : Index) (n : nat) (path text : string) :
  make_index bo files = Ok t -> Index_open t = Ok self ->
  nth_error files n = Some (path, text) ->
  list_getitem self.(documents) (Z.of_nat n)
  = Ok (mkDocument (universal_newlines path) (len (words text))).
Proof.
  intros Hm Ho Hn.
  destruct (Index_open_built bo files t self Hm Ho) as (_ & _ & ->).
  apply list_getitem_nth. now rewrite nth_error_map, Hn.
Qed.

Lemma open_documents_len (bo : byteorder) (files : list (string * string))
    (t : TinyDir) (self : Index) :
  make_index bo files = Ok t -> Index_open t = Ok self ->
  len self.(documents) = len files.
Proof.
  intros Hm Ho.
  destruct (Index_open_built bo files t self Hm Ho) as (_ & _ & ->).
  unfold len. now rewrite length_map.
Qed.

(** C6. In an index produced by [make_index], the document of every
    posting that [lookup] returns has a token count of at least 1, so the
    division in [tf = 1000 * len(offsets) / token_count] is never a
    division by zero and the scoring step of that posting does not
    raise. *)
Theorem token_count_positive (F : Float) (bo : byteorder)
    (files : list (string * string)) (t : TinyDir) (w : string)
    (hits : list Hit) (h : Hit) :
  make_index bo files = Ok t ->
  lookup bo (Index_init t) w = Ok hits ->
  In h hits ->
  exists doc,
    list_getitem (Index_init t).(documents) h.(doc_id) = Ok doc /\
    1 <= doc.(size) /\
    forall idf scores,
      score_hit (Index_init t) idf scores h
      = Ok (dict_set Z.eqb h.(doc_id)
              (float_add (dict_get_default Z.eqb float_zero h.(doc_id) scores)
                 (float_mul (int_truediv (1000 * len h.(offsets)) doc.(size)) idf))
              scores).
Proof.
  intros Hm Hl Hh.
  destruct (posting_document bo files t w hits h Hm Hl Hh)
    as (n & path & text & Hn & Hw & -> & Hdoc).
  exists (mkDocument path (len (words text))). cbn [size doc_id] in *.
  assert (Hsz : 1 <= len (words text)).
  { unfold len. destruct (words text); [destruct Hw | cbn [List.length]; lia]. }
  repeat split; trivial.
  intros idf scores. unfold score_hit. cbn [doc_id offsets].
  rewrite Hdoc. cbn [bind size].
  destruct (Z.eqb_spec (len (words text)) 0); [lia | reflexivity].
Qed.

Lemma token_count_positive_witness :
  make_index little example_files = Ok example_tiny /\
  lookup little (Index_init example_tiny) "b" = Ok [mkHit 0 [1]; mkHit 1 [0]] /\
  In (mkHit 1 [0]) [mkHit 0 [1]; mkHit 1 [0]] /\
  exists doc,
    list_getitem (Index_init example_tiny).(documents) 1 = Ok doc /\
    1 <= doc.(size).
Proof.
  split; [reflexivity|]. split; [reflexivity|].
  split; [right; left; reflexivity|].
  destruct (token_count_positive real_arithmetic little example_files
              example_tiny "b" [mkHit 0 [1]; mkHit 1 [0]] (mkHit 1 [0])
              eq_refl eq_refl (or_intror (or_introl eq_refl)))
    as (doc & Hdoc & Hsz & _).
  exists doc. split; assumption.
Defined.

(** C9. [lookup] of a word that is not in the table of terms returns the
    empty list without raising, and so [search] of a query whose words are
    all absent from the table returns the empty list of results. *)
Theorem out_of_vocabulary (F : Float) (bo : byteorder) (self : Index) :
  (forall word,
      dict_get String.eqb word self.(terms) = None ->
      lookup bo self word = Ok []) /\
  (forall query,
      (forall word, In word (words query) ->
                    dict_get String.eqb word self.(terms) = None) ->
      search bo self query = Ok []).
Proof.
  assert (Hl : forall word, dict_get String.eqb word self.(terms) = None ->
                            lookup bo self word = Ok []).
  { intros word H. unfold lookup. now rewrite H. }
  split; [exact Hl|].
  intros query H. unfold search.
  assert (Hs : forall ws, (forall word, In word ws ->
                             dict_get String.eqb word self.(terms) = None) ->
                          score_words bo self ws [] = Ok []).
  { induction ws as [|w ws IH]; intros Hws; cbn [score_words]; [reflexivity|].
    unfold score_word. rewrite Hl by (apply Hws; now left). cbn [bind].
    apply IH. intros word Hin. apply Hws. now right. }
  rewrite (Hs _ H). reflexivity.
Qed.

Lemma out_of_vocabulary_witness :
  dict_get String.eqb "zebra" (Index_init example_tiny).(terms) = None /\
  lookup little (Index_init example_tiny) "zebra" = Ok [] /\
  @search real_arithmetic little (Index_init example_tiny) "Zebra, yak?" = Ok [].
Proof.
  split; [reflexivity|].
  destruct (out_of_vocabulary real_arithmetic little (Index_init example_tiny))
    as [Hl Hs].
  split.
  - apply Hl. reflexivity.
  - apply Hs. intros word Hin. vm_compute in Hin.
    destruct Hin as [<-|[<-|[]]]; reflexivity.
Defined.

(** ** What [search] returns *)

Lemma Forall2_In_r {A B : Type} (R : A -> B -> Prop) (l : list A) (l' : list B) (y : B) :
  Forall2 R l l' -> In y l' -> exists x, In x l /\ R x y.
Proof.
  induction 1 as [|x y' l l' Hxy _ IH]; intros Hin; [destruct Hin|].
  destruct Hin as [->|Hin].
  - exists x. split; [now left | assumption].
  - destruct (IH Hin) as (x' & Hx' & Hr). exists x'. split; [now right | assumption].
Qed.

Lemma Forall2_In_l {A B : Type} (R : A -> B -> Prop) (l : list A) (l' : list B) (x : A) :
  Forall2 R l l' -> In x l -> exists y, In y l' /\ R x y.
Proof.
  induction 1 as [|x' y l l' Hxy _ IH]; intros Hin; [destruct Hin|].
  destruct Hin as [->|Hin].
  - exists y. split; [now left | assumption].
  - destruct (IH Hin) as (y' & Hy' & Hr). exists y'. split; [now right | assumption].
Qed.

Lemma In_firstn {A : Type} (n : nat) (l : list A) (x : A) :
  In x (firstn n l) -> In x l.
Proof.
  intros H. rewrite <- (firstn_skipn n l). apply in_or_app. now left.
Qed.

Lemma StronglySorted_firstn {A : Type} (R : A -> A -> Prop) (n : nat) (l : list A) :
  StronglySorted R l -> StronglySorted R (firstn n l).
Proof.
  revert n. induction l as [|a l IH]; intros [|n] H; cbn [firstn];
    try constructor.
  - apply IH. now inversion H.
  - inversion H as [|? ? _ Hall]; subst. apply Forall_forall. intros x Hx.
    rewrite Forall_forall in Hall. apply Hall. now apply In_firstn in Hx.
Qed.

Section SearchResults.
Context {F : Float}.
Variable bo : byteorder.
Variable self : Index.

Lemma search_Ok (query : string) (results : list (string * float)) :
  search bo self query = Ok results ->
  exists scores,
    score_words bo self (words query) [] = Ok scores /\
    Forall2 (named_as self) (firstn 10 (sorted_reverse scores)) results.
Proof.
  unfold search. intros H. bind_inv H. rename a into scores.
  exists scores. split; [assumption|]. now apply with_filenames_Ok.
Qed.

Lemma named_descending (l : list (Z * float)) (results : list (string * float)) :
  Forall2 (named_as self) l results ->
  StronglySorted not_below l -> descending results.
Proof.
  induction 1 as [|p r l results Hpr Hrest IH]; intros Hs; [constructor|].
  inversion Hs as [|? ? Hs' Hall]; subst. constructor; [now apply IH|].
  apply Forall_forall. intros r' Hr'.
  destruct (Forall2_In_r _ _ _ _ Hrest Hr') as (p' & Hp' & (doc' & _ & ->)).
  destruct Hpr as (doc & _ & ->). cbn [snd].
  rewrite Forall_forall in Hall. exact (Hall _ Hp').
Qed.

Lemma score_words_documents (ws : list string) (scores : dict Z float) :
  score_words bo self ws [] = Ok scores ->
  NoDup (keys scores) /\ Forall (has_document self) (keys scores).
Proof.
  intros H. apply score_words_keys in H as (_ & Hnd & Hdoc).
  split; [apply Hnd | apply Hdoc]; constructor.
Qed.

Lemma search_total (query : string) (scores : dict Z float) :
  score_words bo self (words query) [] = Ok scores ->
  exists results, search bo self query = Ok results.
Proof.
  intros H. unfold search. rewrite H. cbn [bind].
  apply with_filenames_total.
  apply score_words_documents in H as [_ Hdoc].
  apply Forall_forall. intros d Hd. rewrite Forall_forall in Hdoc.
  apply Hdoc. unfold keys in *. apply in_map_iff in Hd as (p & <- & Hp).
  apply in_map. apply In_firstn in Hp.
  now apply (Permutation_in _ (sorted_reverse_Permutation scores)).
Qed.

Lemma all_returned (scores : dict Z float) (results : list (string * float)) :
  (List.length scores <= 10)%nat ->
  Forall2 (named_as self) (firstn 10 (sorted_reverse scores)) results ->
  List.length results = List.length scores /\
  forall p, In p scores -> exists r, In r results /\ named_as self p r.
Proof.
  intros Hlen Hnamed.
  pose proof (Permutation_length (sorted_reverse_Permutation scores)) as Hl.
  rewrite firstn_all2 in Hnamed by lia. split.
  - apply Forall2_length in Hnamed. lia.
  - intros p Hp. apply (Forall2_In_l _ _ _ _ Hnamed).
    apply (Permutation_in _ (Permutation_sym (sorted_reverse_Permutation scores))).
    exact Hp.
Qed.
End SearchResults.

(** C4. Whatever the query and the loaded index, [search] returns at most
    10 pairs: the first ten of all scored documents in the order of
    [sorted(..., reverse=True)], or all of them when no more than 10 were
    scored. That order is descending, the highest score first, as soon as
    [<] orders the scores at hand ([ordered_scores]: none of them compares
    as a NaN does). *)
Theorem search_top_ten (F : Float) (bo : byteorder) (self : Index)
    (query : string) (scores : dict Z float) (results : list (string * float)) :
  score_words bo self (words query) [] = Ok scores ->
  search bo self query = Ok results ->
  (List.length results <= 10)%nat /\
  List.length results = Nat.min 10 (List.length scores) /\
  (exists ranked,
      Permutation ranked scores /\
      Forall2 (named_as self) (firstn 10 ranked) results /\
      (ordered_scores scores -> StronglySorted not_below ranked)) /\
  (ordered_scores scores -> descending results) /\
  ((List.length scores <= 10)%nat ->
   forall p, In p scores -> exists r, In r results /\ named_as self p r).
Proof.
  intros Hs H.
  apply search_Ok in H as (scores' & Hs' & Hnamed).
  rewrite Hs in Hs'. injection Hs' as <-.
  pose proof (Forall2_length Hnamed) as Hlen.
  rewrite length_firstn in Hlen.
  pose proof (Permutation_length (sorted_reverse_Permutation scores)) as Hl.
  split; [lia|]. split; [lia|]. split; [|split].
  - exists (sorted_reverse scores).
    split; [apply sorted_reverse_Permutation|]. split; [exact Hnamed|].
    apply sorted_reverse_sorted.
  - intros Hord. apply (named_descending self _ _ Hnamed).
    now apply StronglySorted_firstn, sorted_reverse_sorted.
  - intros Hle. now apply all_returned.
Qed.

(** C10. A pair returned by [search] names a document of a posting that
    [lookup] returned for a word of the query; in an index built by
    [make_index] and loaded by [Index], that document is one of the files,
    named as the text layer gives its name, and its text contains the
    word: no document without a token of the query is returned. *)
Theorem results_hold_a_query_token (F : Float) (bo : byteorder) (self : Index)
    (query : string) (results : list (string * float))
    (path : string) (score : float) :
  search bo self query = Ok results ->
  In (path, score) results ->
  (exists w hits h doc,
      In w (words query) /\ lookup bo self w = Ok hits /\ In h hits /\
      list_getitem self.(documents) h.(doc_id) = Ok doc /\
      doc.(filename) = path) /\
  (forall files t,
      make_index bo files = Ok t -> Index_open t = Ok self ->
      exists n file_path text w,
        nth_error files n = Some (file_path, text) /\
        path = universal_newlines file_path /\
        In w (words query) /\ In w (words text) /\
        In (mkHit (Z.of_nat n) (positions w (words text))) (postings files w)).
Proof.
  intros H Hin.
  apply search_Ok in H as (scores & Hs & Hnamed).
  destruct (Forall2_In_r _ _ _ _ Hnamed Hin) as ([d s] & Hp & (doc & Hdoc & E)).
  cbn [fst snd] in *. injection E as -> ->.
  apply In_firstn in Hp.
  apply (Permutation_in _ (sorted_reverse_Permutation scores)) in Hp.
  apply score_words_keys in Hs as (Hk & _).
  assert (Hd : In d (keys scores)).
  { unfold keys. change d with (fst (d, s)). now apply in_map. }
  apply Hk in Hd as [[]|(w & hits & h & Hw & Hl & Hh & <-)].
  split.
  - exists w, hits, h, doc. now repeat split.
  - intros files t Hm Ho.
    destruct (posting_document_open bo files t self w hits h Hm Ho Hl Hh)
      as (n & p & text & Hn & Hwt & Eh & Hdoc').
    rewrite Hdoc in Hdoc'. injection Hdoc' as ->.
    exists n, p, text, w. cbn [filename]. repeat split; trivial.
    rewrite (lookup_open bo files t self w Hm Ho) in Hl.
    injection Hl as <-. now rewrite <- Eh.
Qed.

(** ** Repeated words of a query *)

Lemma postings_from_NoDup (files : list (string * string)) (w : string) :
  forall i, NoDup (map doc_id (postings_from i files w)).
Proof.
  induction files as [|[path text] files IH]; intros i; cbn [postings_from].
  - constructor.
  - assert (Hi : ~ In i (map doc_id (postings_from (i + 1) files w))).
    { intros H. apply in_map_iff in H as (h & E & Hh).
      apply postings_from_In in Hh as (n & p & tx & _ & _ & Eh).
      subst h. cbn [doc_id] in E. lia. }
    destruct (occurs w (words text)); cbn [app map doc_id].
    + constructor; [exact Hi | apply IH].
    + apply IH.
Qed.

(** ** The score of a document *)

Lemma count_occ_matching (text : string) (ws : list string) (w : string) :
  occurs w (words text) = true ->
  count_occ string_dec (matching text ws) w = count_occ string_dec ws w.
Proof.
  intros Hw. unfold matching.
  induction ws as [|x ws IH]; cbn [filter count_occ]; [reflexivity|].
  destruct (string_dec x w) as [->|Hne].
  - rewrite Hw. cbn [count_occ].
    destruct (string_dec w w); [now rewrite IH | contradiction].
  - destruct (occurs x (words text)); [|exact IH].
    cbn [count_occ]. destruct (string_dec x w); [contradiction | exact IH].
Qed.

Lemma all_same (l : list string) (w : string) :
  (forall x, In x l -> x = w) -> l = repeat w (count_occ string_dec l w).
Proof.
  induction l as [|x l IH]; intros H; cbn [count_occ]; [reflexivity|].
  rewrite (H x (or_introl eq_refl)).
  destruct (string_dec w w); [|contradiction].
  cbn [repeat]. f_equal. apply IH. intros y Hy. apply H. now right.
Qed.

Lemma fold_left_repeat {A : Type} (g : A -> string -> A) (w : string) (k : nat) :
  forall z, fold_left g (repeat w k) z = Nat.iter k (fun a => g a w) z.
Proof.
  induction k as [|k IH]; intros z; [reflexivity|].
  cbn [repeat fold_left]. rewrite IH. symmetry. apply Nat.iter_succ_r.
Qed.

Section DocumentScore.
Context {F : Float}.
Variable bo : byteorder.

Lemma fold_add_weight_matching (files : list (string * string)) (text : string)
    (ws : list string) :
  forall z,
    fold_left (add_weight files text) ws z
    = fold_left (fun score w => float_add score (term_weight files w text))
        (matching text ws) z.
Proof.
  unfold matching.
  induction ws as [|w ws IH]; intros z; cbn [fold_left filter]; [reflexivity|].
  unfold add_weight at 2.
  destruct (occurs w (words text)); cbn [fold_left]; apply IH.
Qed.

(** One word of the query moves the score of a document by the [tf * idf]
    of the word when the document holds it, and not at all when it does
    not. *)
Lemma score_word_open (files : list (string * string)) (t : TinyDir)
    (self : Index) (n : nat) (path text : string) :
  make_index bo files = Ok t -> Index_open t = Ok self ->
  nth_error files n = Some (path, text) ->
  forall w scores scores',
    score_word bo self scores w = Ok scores' ->
    dict_get_default Z.eqb float_zero (Z.of_nat n) scores'
    = add_weight files text
        (dict_get_default Z.eqb float_zero (Z.of_nat n) scores) w.
Proof.
  intros Hm Ho Hn w scores scores' H.
  apply score_word_Ok in H as (hits & Hl & Hcase).
  rewrite (lookup_open bo files t self w Hm Ho) in Hl. injection Hl as <-.
  assert (Hin : forall h, In h (postings files w) ->
                          h.(doc_id) = Z.of_nat n ->
                          occurs w (words text) = true).
  { intros h Hh Eid. rewrite postings_from_0 in Hh.
    apply postings_from_In in Hh as (n' & p & tx & Hn' & Hocc & ->).
    cbn [doc_id] in Eid. assert (n' = n) by lia. subst n'.
    rewrite Hn in Hn'. now injection Hn' as _ <-. }
  assert (Hhit : occurs w (words text) = true ->
                 In (mkHit (Z.of_nat n) (positions w (words text)))
                    (postings files w)).
  { intros Hocc. rewrite postings_from_0.
    change (Z.of_nat n) with (0 + Z.of_nat n).
    apply postings_from_In. now exists n, path, text. }
  unfold add_weight.
  destruct Hcase as [[E ->]|(_ & _ & idf & Hidf & Hhits)].
  - destruct (occurs w (words text)) eqn:Hocc; [|reflexivity].
    specialize (Hhit eq_refl). rewrite E in Hhit. destruct Hhit.
  - apply inverse_log_Ok in Hidf.
    rewrite (open_documents_len bo files t self Hm Ho) in Hidf.
    destruct (occurs w (words text)) eqn:Hocc.
    + destruct (score_hits_get self idf (postings files w)) with
        (scores := scores) (scores' := scores')
        (h := mkHit (Z.of_nat n) (positions w (words text)))
        as (doc & Hdoc & E); trivial.
      * rewrite postings_from_0. apply postings_from_NoDup.
      * now apply Hhit.
      * cbn [doc_id] in Hdoc, E.
        rewrite (open_document bo files t self n path text Hm Ho Hn) in Hdoc.
        injection Hdoc as <-. rewrite E, Hidf. reflexivity.
    + apply (score_hits_keep self idf (postings files w)); trivial.
      intros Hd. apply in_map_iff in Hd as (h & Eid & Hh).
      discriminate (Hin h Hh Eid).
Qed.

Lemma score_words_open (files : list (string * string)) (t : TinyDir)
    (self : Index) (n : nat) (path text : string) :
  make_index bo files = Ok t -> Index_open t = Ok self ->
  nth_error files n = Some (path, text) ->
  forall ws scores scores',
    score_words bo self ws scores = Ok scores' ->
    dict_get_default Z.eqb float_zero (Z.of_nat n) scores'
    = fold_left (add_weight files text) ws
        (dict_get_default Z.eqb float_zero (Z.of_nat n) scores).
Proof.
  intros Hm Ho Hn.
  induction ws as [|w ws IH]; intros scores scores' H; cbn [score_words] in H.
  - now injection H as <-.
  - bind_inv H. rename a into scores1. cbn [fold_left].
    rewrite (IH _ _ H).
    now rewrite (score_word_open files t self n path text Hm Ho Hn w scores scores1).
Qed.

End DocumentScore.

(** C7. [search] processes every occurrence of a word of the query, in the
    order of the query: on a built index that has loaded, the score of a
    document is what the successive additions of [tf * idf] give, one for
    each occurrence in the query of each word that the document holds,
    starting from [float()] (which is also the score read for a document
    that was not scored). A word that is [k] times in the query has its
    [tf * idf] added [k] times, wherever its occurrences are in the query;
    when it is the only word of the query that the document holds, the
    score is [k] additions of that [tf * idf]. The query is not
    de-duplicated. *)
Theorem repeated_query_token (F : Float) (bo : byteorder)
    (files : list (string * string)) (t : TinyDir) (self : Index)
    (query : string) (scores : dict Z float)
    (n : nat) (path text : string) :
  make_index bo files = Ok t ->
  Index_open t = Ok self ->
  score_words bo self (words query) [] = Ok scores ->
  nth_error files n = Some (path, text) ->
  dict_get_default Z.eqb float_zero (Z.of_nat n) scores
  = fold_left (add_weight files text) (words query) float_zero /\
  dict_get_default Z.eqb float_zero (Z.of_nat n) scores
  = fold_left (fun score w => float_add score (term_weight files w text))
      (matching text (words query)) float_zero /\
  (forall w,
      In w (words text) ->
      count_occ string_dec (matching text (words query)) w
      = count_occ string_dec (words query) w) /\
  (forall w,
      In w (words text) ->
      (forall x, In x (words query) -> In x (words text) -> x = w) ->
      dict_get_default Z.eqb float_zero (Z.of_nat n) scores
      = Nat.iter (count_occ string_dec (words query) w)
          (fun score => float_add score (term_weight files w text))
          float_zero).
Proof.
  intros Hm Ho Hs Hn.
  pose proof (score_words_open bo files t self n path text Hm Ho Hn
                (words query) [] scores Hs) as E.
  unfold dict_get_default at 2 in E. cbn [dict_get] in E.
  split; [exact E|]. split; [|split].
  - rewrite E. apply fold_add_weight_matching.
  - intros w Hw. apply count_occ_matching. now apply occurs_In.
  - intros w Hw Honly. rewrite E, fold_add_weight_matching.
    rewrite (all_same (matching text (words query)) w).
    + rewrite count_occ_matching by (now apply occurs_In).
      apply (fold_left_repeat
               (fun score x => float_add score (term_weight files x text))).
    + intros x Hx. unfold matching in Hx. apply filter_In in Hx as [Hq Hx].
      apply Honly; [exact Hq | now apply occurs_In].
Qed.

(** ** A run over exact real arithmetic *)

Lemma inverse_log_real (df : R) :
  (0 < df)%R -> @inverse_log real_arithmetic df = Ok (ln (1 / df)).
Proof.
  intros H. unfold inverse_log.
  cbn [float_eqb float_ltb float_zero float_div float_of_int float_log
       real_arithmetic].
  destruct (Req_dec_T df 0); [lra|].
  assert (0 < 1 / df)%R by (apply Rdiv_pos_pos; lra).
  destruct (Rlt_dec (1 / df) 0); [lra|].
  destruct (Req_dec_T (1 / df) 0); [lra|]. reflexivity.
Qed.

Lemma real_ordered_scores (l : list (Z * R)) : @ordered_scores real_arithmetic l.
Proof.
  split.
  - intros a b _ _. cbn [float_ltb real_arithmetic].
    destruct (Rlt_dec (snd a) (snd b)); [|discriminate].
    destruct (Rlt_dec (snd b) (snd a)); [lra | reflexivity].
  - intros a b c _ _ _. cbn [float_ltb real_arithmetic].
    destruct (Rlt_dec (snd a) (snd b)); [discriminate|].
    destruct (Rlt_dec (snd b) (snd c)); [discriminate|].
    destruct (Rlt_dec (snd a) (snd c)); [lra | reflexivity].
Qed.

Lemma ln_2_pos : (0 < ln 2)%R.
Proof. rewrite <- ln_1. apply ln_increasing; lra. Qed.

(** Runs the loop of [search] on given words: the postings are read, the
    lengths counted, and the logarithms left as they are. *)
Ltac score_by_hand :=
  cbn [score_words]; unfold score_word;
  repeat match goal with
  | |- context [lookup ?bo ?idx ?w] =>
      let r := eval vm_compute in (lookup bo idx w) in
      change (lookup bo idx w) with r; cbn [bind]
  end;
  repeat match goal with
  | |- context [len ?l] =>
      let r := eval vm_compute in (len l) in
      change (len l) with r
  end;
  cbn [Z.eqb int_truediv real_arithmetic];
  rewrite ?inverse_log_real by lra;
  reflexivity.

Lemma score_words_a_b :
  @score_words real_arithmetic little (Index_init tiny2) (words "a b") []
  = Ok scores_a_b.
Proof. change (words "a b") with ["a"; "b"]. score_by_hand. Qed.

Lemma score_a_zero : (0 + 1000 / 1 * ln (1 / (2 / 2)) = 0)%R.
Proof.
  replace (1 / (2 / 2))%R with 1%R by lra. rewrite ln_1. lra.
Qed.

Lemma score_a_b_positive :
  (0 < 0 + 1000 / 2 * ln (1 / (2 / 2)) + 1000 / 2 * ln (1 / (1 / 2)))%R.
Proof.
  replace (1 / (2 / 2))%R with 1%R by lra.
  replace (1 / (1 / 2))%R with 2%R by lra.
  rewrite ln_1. pose proof ln_2_pos. lra.
Qed.

Lemma search_a_b :
  @search real_arithmetic little (Index_init tiny2) "a b" = Ok results_a_b.
Proof.
  unfold search. rewrite score_words_a_b. cbn [bind].
  unfold scores_a_b, sorted_reverse. cbn [fold_right insert_reverse snd].
  cbn [float_ltb real_arithmetic].
  pose proof score_a_zero. pose proof score_a_b_positive.
  destruct (Rlt_dec _ _); [lra | reflexivity].
Qed.

Lemma search_top_ten_witness :
  @score_words real_arithmetic little (Index_init tiny2) (words "a b") []
  = Ok scores_a_b /\
  @search real_arithmetic little (Index_init tiny2) "a b" = Ok results_a_b /\
  (List.length results_a_b <= 10)%nat /\
  @descending real_arithmetic results_a_b.
Proof.
  split; [exact score_words_a_b|]. split; [exact search_a_b|].
  destruct (search_top_ten real_arithmetic little (Index_init tiny2) "a b"
              scores_a_b results_a_b score_words_a_b search_a_b)
    as (Hlen & _ & _ & Hdesc & _).
  split; [exact Hlen|]. apply Hdesc, real_ordered_scores.
Defined.

Lemma results_hold_a_query_token_witness :
  @search real_arithmetic little (Index_init tiny2) "a b" = Ok results_a_b /\
  In ("b.txt", (0 + 1000 / 1 * ln (1 / (2 / 2)))%R) results_a_b /\
  make_index little files2 = Ok tiny2 /\
  Index_open tiny2 = Ok (Index_init tiny2) /\
  exists n file_path text w,
    nth_error files2 n = Some (file_path, text) /\
    "b.txt" = universal_newlines file_path /\
    In w (words "a b") /\ In w (words text) /\
    In (mkHit (Z.of_nat n) (positions w (words text))) (postings files2 w).
Proof.
  split; [exact search_a_b|]. split; [right; left; reflexivity|].
  split; [reflexivity|]. split; [reflexivity|].
  exact (proj2 (results_hold_a_query_token real_arithmetic little
                  (Index_init tiny2) "a b" results_a_b "b.txt" _
                  search_a_b (or_intror (or_introl eq_refl)))
           files2 tiny2 eq_refl eq_refl).
Defined.

Lemma score_words_a :
  @score_words real_arithmetic little (Index_init tiny2) ["a"] [] = Ok scores_a.
Proof. score_by_hand. Qed.

Lemma score_words_b_a_b :
  @score_words real_arithmetic little (Index_init tiny2) (words "b a, B") []
  = Ok scores_b_a_b.
Proof. change (words "b a, B") with ["b"; "a"; "b"]. score_by_hand. Qed.

Lemma repeated_query_token_witness :
  make_index little files2 = Ok tiny2 /\
  Index_open tiny2 = Ok (Index_init tiny2) /\
  nth_error files2 0 = Some ("a.txt", "a b") /\
  count_occ string_dec (words "b a, B") "b" = 2%nat /\
  count_occ string_dec (matching "a b" (words "b a, B")) "b" = 2%nat /\
  dict_get_default Z.eqb 0%R 0 scores_b_a_b
  = fold_left (@add_weight real_arithmetic files2 "a b") ["b"; "a"; "b"] 0%R.
Proof.
  split; [reflexivity|]. split; [reflexivity|]. split; [reflexivity|].
  split; [reflexivity|].
  destruct (repeated_query_token real_arithmetic little files2 tiny2
              (Index_init tiny2) "b a, B" scores_b_a_b 0 "a.txt" "a b"
              eq_refl eq_refl score_words_b_a_b eq_refl)
    as (E & _ & Hcount & _).
  split; [|exact E].
  rewrite (Hcount "b" (or_intror (or_introl eq_refl))). reflexivity.
Defined.

(** ** Documents of score zero *)

(** The query ["a b"] over the documents ["a b"] and ["a"]: [a] is in every
    document, so its idf is [ln 1 = 0]; [b.txt] is returned with the score
    0, next to [a.txt] whose score is not 0. *)
Lemma zero_score_is_returned :
  make_index little files2 = Ok tiny2 /\
  exists results nonzero,
    @search real_arithmetic little (Index_init tiny2) "a b" = Ok results /\
    In ("a.txt", nonzero) results /\ nonzero <> 0%R /\
    In ("b.txt", 0%R) results.
Proof.
  split; [reflexivity|].
  exists results_a_b, (0 + 1000 / 2 * ln (1 / (2 / 2)) + 1000 / 2 * ln (1 / (1 / 2)))%R.
  split; [exact search_a_b|]. split; [left; reflexivity|]. split.
  - pose proof score_a_b_positive. lra.
  - right; left. f_equal. exact score_a_zero.
Qed.

(** C3, as the code has it. [search] keeps every scored document, whatever
    its score: each document of a posting of a word of the query is in the
    accumulator, and when no more than 10 documents were scored each of
    them is returned with its accumulated score, a score of exactly zero
    included, whether or not other documents have a nonzero score. *)
Theorem search_keeps_zero_scores (F : Float) (bo : byteorder) (self : Index)
    (query : string) (scores : dict Z float) :
  score_words bo self (words query) [] = Ok scores ->
  (List.length scores <= 10)%nat ->
  exists results,
    search bo self query = Ok results /\
    (forall w hits h,
        In w (words query) -> lookup bo self w = Ok hits -> In h hits ->
        exists score, In (h.(doc_id), score) scores) /\
    (forall d score,
        In (d, score) scores ->
        exists doc,
          list_getitem self.(documents) d = Ok doc /\
          In (doc.(filename), score) results).
Proof.
  intros Hs Hlen.
  destruct (search_total bo self query scores Hs) as (results & Hr).
  exists results. split; [exact Hr|].
  apply search_Ok in Hr as (scores' & Hs' & Hnamed).
  rewrite Hs in Hs'. injection Hs' as <-. split.
  - intros w hits h Hw Hl Hh.
    apply score_words_keys in Hs as (Hk & _).
    assert (Hd : In h.(doc_id) (keys scores)).
    { apply Hk. right. now exists w, hits, h. }
    unfold keys in Hd. apply in_map_iff in Hd as ([d s] & E & Hp).
    cbn [fst] in E. subst d. now exists s.
  - intros d score Hp.
    destruct (all_returned self scores results Hlen Hnamed) as (_ & Hall).
    destruct (Hall _ Hp) as (r & Hr & (doc & Hdoc & ->)).
    exists doc. split; assumption.
Qed.

Lemma search_keeps_zero_scores_witness :
  @score_words real_arithmetic little (Index_init tiny2) (words "a b") []
  = Ok scores_a_b /\
  (List.length scores_a_b <= 10)%nat /\
  exists results,
    @search real_arithmetic little (Index_init tiny2) "a b" = Ok results /\
    In ("b.txt", (0 + 1000 / 1 * ln (1 / (2 / 2)))%R) results.
Proof.
  split; [exact score_words_a_b|].
  assert (Hlen : (List.length scores_a_b <= 10)%nat) by (cbn [scores_a_b List.length]; lia).
  split; [exact Hlen|].
  destruct (search_keeps_zero_scores real_arithmetic little (Index_init tiny2)
              "a b" scores_a_b score_words_a_b Hlen)
    as (results & Hr & _ & Hall).
  exists results. split; [exact Hr|].
  destruct (Hall 1 _ (or_intror (or_introl eq_refl))) as (doc & Hdoc & Hin).
  injection Hdoc as <-. exact Hin.
Defined.

(** ** Reading a postings list that the file does not hold in full *)

(** What [lookup] returns is exactly what the bytes it read encode. *)
Lemma lookup_decodes_what_was_read (bo : byteorder) (self : Index)
    (word : string) (start length : Z) (hits : list Hit) :
  dict_get String.eqb word self.(terms) = Some (start, length) ->
  lookup bo self word = Ok hits ->
  exists bytes,
    seek_read self.(index_file) start length = Ok bytes /\
    encode_hits bo hits = bytes.
Proof.
  intros Ht H. unfold lookup in H. rewrite Ht in H. bind_inv H.
  rename a into bytes. exists bytes. split; [assumption|].
  apply read_hits_exact in H as (new & -> & _ & E); [|lia].
  cbn [Z.to_nat skipn app] in *. now symmetry.
Qed.

(** C5, on a file cut short. The table of terms gives 24 bytes to [a];
    the file holds 12 of them. [lookup] reads these 12 bytes, decodes one
    posting, finds its cursor at the end of what it read and returns,
    although the cursor is at 12 and not at the byte length 24. *)
Theorem lookup_accepts_a_short_read :
  dict_get String.eqb "a" short_index_a_a.(terms) = Some (0, 24) /\
  len short_index_a_a.(index_file) = 12 /\
  lookup little index_a_a "a" = Ok [mkHit 0 [0]; mkHit 1 [0]] /\
  lookup little short_index_a_a "a" = Ok [mkHit 0 [0]].
Proof. repeat split; reflexivity. Qed.

(** ** The layout of the blob *)

Lemma blocks_of_postings (bo : byteorder) (postings_of : string -> list Hit)
    (index : dict string (list Hit)) :
  (forall w hits, In (w, hits) index -> hits = postings_of w) ->
  blocks bo index = flat_map (fun w => encode_hits bo (postings_of w)) (keys index).
Proof.
  induction index as [|[w hits] index IH]; intros H; [reflexivity|].
  unfold blocks, keys. cbn [flat_map map fst snd].
  fold (blocks bo index). fold (keys index).
  rewrite (H w hits) by now left.
  rewrite IH; [reflexivity|]. intros w' hits' Hin. apply H. now right.
Qed.

(** On a big-endian host the blob of the one document ["a"] is not the
    little-endian one: the count 1 is written [00 00 00 01]. *)
Lemma big_endian_host_blob :
  exists t,
    make_index big [("a.txt", "a")] = Ok t /\
    t.(index_dat)
    = [x00; x00; x00; x00; x00; x00; x00; x01; x00; x00; x00; x00] /\
    postings_blob little [("a.txt", "a")]
    = [x00; x00; x00; x00; x01; x00; x00; x00; x00; x00; x00; x00] /\
    t.(index_dat) <> postings_blob little [("a.txt", "a")].
Proof.
  eexists. split; [reflexivity|]. split; [reflexivity|].
  split; [reflexivity|]. discriminate.
Qed.

(** C8, as the code has it. The blob that [make_index] writes is the
    concatenation, over the terms in the order in which they were first
    met, of the records of the term's postings: for each posting the
    document id, the count of offsets and the offsets in ascending order,
    each a 4-byte unsigned integer in the byte order of the host, with
    nothing between them and no length in front of a term's records. *)
Theorem postings_blob_layout (bo : byteorder) (files : list (string * string))
    (t : TinyDir) :
  make_index bo files = Ok t ->
  t.(index_dat) = postings_blob bo files /\
  (forall w h,
      In h (postings files w) ->
      StronglySorted Z.lt h.(offsets) /\
      fits_uint32 h.(doc_id) = true /\
      fits_uint32 (len h.(offsets)) = true /\
      Forall (fun o => fits_uint32 o = true) h.(offsets) /\
      len (posting_record bo h) = 8 + 4 * len h.(offsets)).
Proof.
  intros H. pose proof H as Hm.
  apply make_index_Ok in H as (index & _ & Hdat & _ & Hkeys & Hget & Hfit & _).
  assert (Hnd : NoDup (keys index)).
  { rewrite Hkeys. apply NoDup_fold_add_key. constructor. }
  assert (Hitems : forall w hits, In (w, hits) index -> hits = postings files w).
  { intros w hits Hin.
    apply (In_dict_get String.eqb String.eqb_eq) in Hin; [|assumption].
    specialize (Hget w). unfold dict_get_default in Hget.
    now rewrite Hin in Hget. }
  split.
  - rewrite Hdat, (blocks_of_postings bo (postings files) index Hitems), Hkeys.
    reflexivity.
  - intros w h Hh. split.
    + rewrite postings_from_0 in Hh.
      apply postings_from_In in Hh as (n & path & text & _ & _ & ->).
      cbn [offsets]. rewrite positions_from_0. apply positions_from_sorted.
    + specialize (Hget w). unfold dict_get_default in Hget.
      destruct (dict_get String.eqb w index) as [hits|] eqn:E;
        [|rewrite <- Hget in Hh; destruct Hh].
      apply (dict_get_In String.eqb String.eqb_eq) in E.
      rewrite Forall_forall in Hfit. specialize (Hfit _ E). cbn [snd] in Hfit.
      rewrite Forall_forall in Hfit. rewrite <- Hget in Hh.
      destruct (Hfit _ Hh) as (H1 & H2 & H3).
      repeat split; trivial. apply posting_record_length.
Qed.

Lemma postings_blob_layout_witness :
  make_index little example_files = Ok example_tiny /\
  example_tiny.(index_dat) = postings_blob little example_files.
Proof.
  split; [reflexivity|].
  exact (proj1 (postings_blob_layout little example_files example_tiny eq_refl)).
Defined.

(** * Further properties of the code *)

(** ** The tokenizer *)

(** X1. Every token of [words] is a non-empty string of word characters in
    lower case: the empty string is never a term, and no term holds a
    separator or an upper-case letter. *)
Theorem words_tokens (text w : string) :
  In w (words text) ->
  w <> EmptyString /\ string_forall is_word w = true /\ lower w = w.
Proof.
  intros H. unfold words in H.
  destruct (findall_word_tokens is_lower (lower text) EmptyString w) as (H1 & H2 & H3);
    trivial; [apply string_forall_lower|].
  repeat split; trivial. now apply lower_fixed.
Qed.

Lemma words_tokens_witness :
  In "world_1" (words "Hello, World_1!") /\
  "world_1" <> EmptyString /\ lower "world_1" = "world_1".
Proof.
  assert (H : In "world_1" (words "Hello, World_1!")) by (right; left; reflexivity).
  split; [exact H|].
  destruct (words_tokens "Hello, World_1!" "world_1" H) as (H1 & _ & H3).
  split; assumption.
Defined.

(** X2. A token is its own tokenization: [words] of a token of any text
    is that token alone, so a term of the index typed as a query is looked
    up as itself. *)
Theorem words_of_token (text w : string) :
  In w (words text) -> words w = [w].
Proof. apply token_words. Qed.

Lemma words_of_token_witness :
  In "world_1" (words "Hello, World_1!") /\ words "world_1" = ["world_1"].
Proof.
  assert (H : In "world_1" (words "Hello, World_1!")) by (right; left; reflexivity).
  split; [exact H|]. exact (words_of_token "Hello, World_1!" "world_1" H).
Defined.

(** X3. In a text of code points below 256 (the [string]s of this
    development, on which [str.lower] works character by character), a
    character that is not a word character separates: the tokens of a text
    around it are the tokens of what is before it followed by the tokens
    of what is after it. Beyond these code points the lower case of a
    letter can depend on what follows it, and the statement is not made. *)
Theorem words_separator (s1 s2 : string) (c : ascii) :
  is_word c = false ->
  words (String.append s1 (String c s2)) = words s1 ++ words s2.
Proof.
  intros Hc. unfold words. rewrite lower_app. cbn [lower].
  apply findall_word_separator. now rewrite is_word_lower_char.
Qed.

Lemma words_separator_witness :
  is_word "," = false /\
  words (String.append "Ab c" (String "," "d E")) = words "Ab c" ++ words "d E".
Proof.
  split; [reflexivity|]. exact (words_separator "Ab c" "d E" "," eq_refl).
Defined.

(** X4. [words] gives no token exactly when the text has no word character;
    the empty text is such a text. *)
Theorem words_nil_iff (text : string) :
  words text = [] <-> string_forall (fun c => negb (is_word c)) text = true.
Proof.
  unfold words.
  assert (G : forall s cur,
             findall_word s cur = [] <->
             cur = EmptyString /\
             string_forall (fun c => negb (is_word c)) s = true).
  { induction s as [|c s IH]; intros cur; cbn [findall_word string_forall].
    - destruct cur as [|a cur]; cbn [String.length Nat.eqb].
      + tauto.
      + split; [discriminate | intros [? _]; discriminate].
    - destruct (is_word c) eqn:Ew; cbn [negb andb].
      + rewrite IH. split; [|intros [_ ?]; discriminate].
        intros [E _]. destruct cur; discriminate.
      + destruct cur as [|a cur]; cbn [String.length Nat.eqb].
        * rewrite IH. tauto.
        * split; [discriminate | intros [? _]; discriminate]. }
  rewrite G. split.
  - intros [_ H]. clear G. induction text as [|c text IH];
      cbn [lower string_forall] in *; [reflexivity|].
    rewrite is_word_lower_char in H. apply andb_true_iff in H as [-> H].
    now rewrite IH.
  - intros H. split; [reflexivity|]. clear G.
    induction text as [|c text IH]; cbn [lower string_forall] in *; [reflexivity|].
    rewrite is_word_lower_char. apply andb_true_iff in H as [-> H].
    now rewrite IH.
Qed.

(** ** What [make_index] records *)

Lemma positions_from_In (w : string) (ws : list string) :
  forall i o,
    In o (positions_from i w ws) <->
    i <= o /\ nth_error ws (Z.to_nat (o - i)) = Some w.
Proof.
  induction ws as [|x ws IH]; intros i o; cbn [positions_from].
  - split; [intros [] | intros [_ H]; now destruct (Z.to_nat (o - i))].
  - assert (Hstep : In o (positions_from (i + 1) w ws) <->
                    i + 1 <= o /\ nth_error (x :: ws) (Z.to_nat (o - i)) = Some w).
    { rewrite IH. split; intros [Hle H]; (split; [lia|]).
      - replace (Z.to_nat (o - i)) with (S (Z.to_nat (o - (i + 1)))) by lia.
        exact H.
      - replace (Z.to_nat (o - i)) with (S (Z.to_nat (o - (i + 1)))) in H by lia.
        exact H. }
    destruct (String.eqb_spec x w) as [->|Hne]; cbn [In]; rewrite Hstep.
    + split.
      * intros [<-|[Hle H]]; [|split; [lia | exact H]].
        split; [lia|]. now rewrite Z.sub_diag.
      * intros [Hle H]. destruct (Z.eq_dec i o) as [->|]; [now left|].
        right. split; [lia | exact H].
    + split; [intros [Hle H]; split; [lia | exact H]|].
      intros [Hle H]. split; [|exact H].
      destruct (Z.eq_dec i o) as [->|]; [|lia].
      rewrite Z.sub_diag in H. cbn [Z.to_nat nth_error] in H. congruence.
Qed.

Lemma positions_from_occurs (w : string) (ws : list string) :
  forall i, occurs w ws = true -> positions_from i w ws <> [].
Proof.
  induction ws as [|x ws IH]; intros i; [discriminate|].
  rewrite occurs_cons. cbn [positions_from].
  destruct (String.eqb x w); cbn [orb]; [discriminate | apply IH].
Qed.

Lemma postings_from_sorted (files : list (string * string)) (w : string) :
  forall i, StronglySorted Z.lt (map doc_id (postings_from i files w)).
Proof.
  induction files as [|[path text] files IH]; intros i; cbn [postings_from].
  - constructor.
  - destruct (occurs w (words text)); cbn [app map doc_id]; [|apply IH].
    constructor; [apply IH|]. apply Forall_forall. intros d Hd.
    apply in_map_iff in Hd as (h & <- & Hh).
    apply postings_from_In in Hh as (n & p & tx & _ & _ & Eh).
    subst h. cbn [doc_id]. lia.
Qed.

Lemma postings_nonempty (files : list (string * string)) (w : string) :
  In w (corpus files) -> postings files w <> [].
Proof.
  intros Hw. apply corpus_In in Hw as (n & path & text & Hn & Hw).
  assert (Hp : In (mkHit (0 + Z.of_nat n) (positions w (words text)))
                  (postings files w)).
  { rewrite postings_from_0. apply postings_from_In.
    exists n, path, text. repeat split; trivial. now apply occurs_In. }
  intros E. rewrite E in Hp. destruct Hp.
Qed.

(** X5. [make_index] returns for every set of at most [2^32 - 1] documents
    of at most [2^32 - 1] tokens each: the only exceptions of the build
    are those of a count or a position that does not fit in 32 bits. *)
Theorem make_index_succeeds (bo : byteorder) (files : list (string * string)) :
  len files <= uint32_max ->
  (forall path text, In (path, text) files -> len (words text) <= uint32_max) ->
  exists t, make_index bo files = Ok t.
Proof.
  intros Hn Hw. apply make_index_total; [exact Hn|].
  apply Forall_forall. intros [path text] Hin. exact (Hw path text Hin).
Qed.

Lemma make_index_succeeds_witness :
  len example_files <= uint32_max /\
  exists t, make_index big example_files = Ok t.
Proof.
  assert (H : len example_files <= uint32_max) by (vm_compute; discriminate).
  split; [exact H|].
  apply (make_index_succeeds big example_files H).
  intros path text Hin.
  destruct Hin as [E|[E|[E|[]]]]; injection E as <- <-; vm_compute; discriminate.
Defined.

(** X6. The table of documents has one row per file, in the order of
    discovery: the id of a document is its rank, its size the number of its
    tokens. [Index] loads the row of rank [n] as [documents[n]], under the
    name that the text layer gives (a carriage return of the name is read
    back as a line feed). A file without any token keeps its row, with
    size 0, and is in no postings list. *)
Theorem documents_table (bo : byteorder) (files : list (string * string))
    (t : TinyDir) (n : nat) (path text : string) :
  make_index bo files = Ok t ->
  nth_error files n = Some (path, text) ->
  nth_error t.(documents_csv) n = Some (path, len (words text)) /\
  List.length t.(documents_csv) = List.length files /\
  (forall self,
      Index_open t = Ok self ->
      list_getitem self.(documents) (Z.of_nat n)
      = Ok (mkDocument (universal_newlines path) (len (words text))) /\
      List.length self.(documents) = List.length files /\
      (words text = [] ->
       forall w hits,
         lookup bo self w = Ok hits ->
         ~ In (Z.of_nat n) (map doc_id hits))).
Proof.
  intros Hm Hn. pose proof Hm as Hm'.
  apply make_index_Ok in Hm' as (index & Hdocs & _).
  split; [|split].
  - rewrite Hdocs, nth_error_map, Hn. reflexivity.
  - now rewrite Hdocs, length_map.
  - intros self Ho. split; [|split].
    + exact (open_document bo files t self n path text Hm Ho Hn).
    + destruct (Index_open_built bo files t self Hm Ho) as (_ & _ & ->).
      apply length_map.
    + intros Hnil w hits Hl Hin.
      apply in_map_iff in Hin as (h & Hd & Hh).
      destruct (posting_document_open bo files t self w hits h Hm Ho Hl Hh)
        as (n' & path' & text' & Hn' & Hw & -> & _).
      cbn [doc_id] in Hd. assert (n' = n) by lia. subst n'.
      rewrite Hn in Hn'. injection Hn' as <- <-.
      rewrite Hnil in Hw. destruct Hw.
Qed.

Lemma documents_table_witness :
  make_index little example_files = Ok example_tiny /\
  nth_error example_files 2 = Some ("empty.txt", " ") /\
  nth_error example_tiny.(documents_csv) 2 = Some ("empty.txt", 0) /\
  Index_open example_tiny = Ok (Index_init example_tiny) /\
  list_getitem (Index_init example_tiny).(documents) 2
  = Ok (mkDocument "empty.txt" 0).
Proof.
  split; [reflexivity|]. split; [reflexivity|].
  destruct (documents_table little example_files example_tiny 2
              "empty.txt" " " eq_refl eq_refl) as (Hrow & _ & Hload).
  split; [exact Hrow|]. split; [reflexivity|].
  exact (proj1 (Hload (Index_init example_tiny) eq_refl)).
Defined.

(** X7. The table of terms has exactly one row per distinct token of the
    documents, in the order in which the tokens are first met; no term has
    an empty block: a block holds at least one posting with one offset,
    which is 12 bytes. *)
Theorem terms_table (bo : byteorder) (files : list (string * string))
    (t : TinyDir) :
  make_index bo files = Ok t ->
  let words_of_rows := map (fun row : string * Z * Z => fst (fst row)) t.(terms_csv) in
  words_of_rows = first_seen (corpus files) /\
  NoDup words_of_rows /\
  (forall w, In w words_of_rows <-> In w (corpus files)) /\
  (forall row, In row t.(terms_csv) -> 12 <= byte_length row).
Proof.
  intros Hm. cbn zeta.
  apply make_index_Ok in Hm as (index & _ & _ & Hterms & Hkeys & Hget & _).
  assert (Hnd : NoDup (keys index)).
  { rewrite Hkeys. apply NoDup_fold_add_key. constructor. }
  assert (Hw : map (fun row : string * Z * Z => fst (fst row)) (terms_csv t)
               = first_seen (corpus files)).
  { rewrite Hterms, map_map, <- Hkeys, <- (directory_keys bo index 0).
    unfold keys. apply map_ext. now intros [w [s l]]. }
  rewrite Hw. split; [reflexivity|]. split; [|split].
  - apply NoDup_fold_add_key. constructor.
  - intros w. unfold first_seen. rewrite In_fold_add_key. cbn [In]. tauto.
  - intros row Hrow. rewrite Hterms in Hrow.
    assert (Hdir : forall items start,
               (forall w hits, In (w, hits) items ->
                               12 <= len (encode_hits bo hits)) ->
               forall r, In r (map terms_row (directory bo start items)) ->
                         12 <= byte_length r).
    { induction items as [|[w hits] items IH]; intros start Hall r Hr;
        [destruct Hr|].
      cbn [directory map] in Hr. destruct Hr as [<-|Hr].
      - apply (Hall w hits). now left.
      - apply (IH _ (fun w' hits' H => Hall w' hits' (or_intror H)) r Hr). }
    apply (Hdir index 0); [|exact Hrow].
    intros w hits Hin.
    assert (Hwk : In w (keys index)).
    { unfold keys. change w with (fst (w, hits)). now apply in_map. }
    apply (In_dict_get String.eqb String.eqb_eq) in Hin; [|assumption].
    specialize (Hget w). unfold dict_get_default in Hget. rewrite Hin in Hget.
    rewrite Hkeys in Hwk. unfold first_seen in Hwk.
    apply In_fold_add_key in Hwk as [[]|Hwk].
    pose proof (postings_nonempty files w Hwk) as Hne.
    rewrite Hget. rewrite postings_from_0 in *.
    destruct (postings_from 0 files w) as [|h hs] eqn:E; [congruence|].
    assert (Hh : In h (postings_from 0 files w)) by (rewrite E; now left).
    apply postings_from_In in Hh as (n & path & text & _ & Ho & ->).
    cbn [encode_hits flat_map]. unfold len. rewrite length_app.
    pose proof (posting_record_length bo
                  (mkHit (0 + Z.of_nat n) (positions w (words text)))) as L.
    cbn [offsets] in L.
    pose proof (positions_from_occurs w (words text) 0 Ho) as Hpos.
    rewrite <- positions_from_0 in Hpos. unfold len in L.
    destruct (positions w (words text)); [congruence|].
    cbn [List.length] in L. lia.
Qed.

Lemma terms_table_witness :
  make_index little example_files = Ok example_tiny /\
  map (fun row : string * Z * Z => fst (fst row)) example_tiny.(terms_csv)
  = ["a"; "b"; "c"].
Proof.
  split; [reflexivity|].
  exact (proj1 (terms_table little example_files example_tiny eq_refl)).
Defined.

(** X8. In a built index the postings list of a word has one posting per
    document that holds the word, in strictly ascending order of document
    id, every id is that of a file, and no posting has an empty array of
    offsets. *)
Theorem postings_ascending (bo : byteorder) (files : list (string * string))
    (t : TinyDir) (w : string) (hits : list Hit) :
  make_index bo files = Ok t ->
  lookup bo (Index_init t) w = Ok hits ->
  StronglySorted Z.lt (map doc_id hits) /\
  (forall h, In h hits ->
             0 <= h.(doc_id) < len files /\ h.(offsets) <> [] /\
             StronglySorted Z.lt h.(offsets)).
Proof.
  intros Hm Hl.
  rewrite (lookup_make_index bo files t w Hm) in Hl. injection Hl as <-.
  rewrite postings_from_0. split; [apply postings_from_sorted|].
  intros h Hh. apply postings_from_In in Hh as (n & path & text & Hn & Ho & ->).
  cbn [doc_id offsets].
  assert (n < List.length files)%nat by (apply nth_error_Some; congruence).
  split; [unfold len; lia|]. split.
  - rewrite positions_from_0. now apply positions_from_occurs.
  - rewrite positions_from_0. apply positions_from_sorted.
Qed.

Lemma postings_ascending_witness :
  make_index little example_files = Ok example_tiny /\
  lookup little (Index_init example_tiny) "b" = Ok [mkHit 0 [1]; mkHit 1 [0]] /\
  StronglySorted Z.lt (map doc_id [mkHit 0 [1]; mkHit 1 [0]]).
Proof.
  split; [reflexivity|]. split; [reflexivity|].
  exact (proj1 (postings_ascending little example_files example_tiny "b" _
                  eq_refl eq_refl)).
Defined.

(** X9. In a built index, [o] is an offset of the posting of the word [w]
    for the document of rank [n] exactly when [w] is the token of rank [o]
    of that document: no occurrence is missed and none is made up. *)
Theorem offsets_are_occurrences (bo : byteorder) (files : list (string * string))
    (t : TinyDir) (w : string) (hits : list Hit) (n : nat)
    (path text : string) (o : Z) :
  make_index bo files = Ok t ->
  lookup bo (Index_init t) w = Ok hits ->
  nth_error files n = Some (path, text) ->
  (exists h, In h hits /\ h.(doc_id) = Z.of_nat n /\ In o h.(offsets)) <->
  (0 <= o /\ nth_error (words text) (Z.to_nat o) = Some w).
Proof.
  intros Hm Hl Hn.
  rewrite (lookup_make_index bo files t w Hm) in Hl. injection Hl as <-.
  rewrite postings_from_0. split.
  - intros (h & Hh & Hd & Ho).
    apply postings_from_In in Hh as (n' & path' & text' & Hn' & _ & ->).
    cbn [doc_id offsets] in *. assert (n' = n) by lia. subst n'.
    rewrite Hn in Hn'. injection Hn' as <- <-.
    rewrite positions_from_0 in Ho. apply positions_from_In in Ho.
    now rewrite Z.sub_0_r in Ho.
  - intros [Hle Ho].
    exists (mkHit (0 + Z.of_nat n) (positions w (words text))).
    cbn [doc_id offsets]. split; [|split; [lia|]].
    + apply postings_from_In. exists n, path, text.
      repeat split; trivial. apply occurs_In. now apply nth_error_In in Ho.
    + rewrite positions_from_0. apply positions_from_In.
      now rewrite Z.sub_0_r.
Qed.

Lemma offsets_are_occurrences_witness :
  make_index little example_files = Ok example_tiny /\
  lookup little (Index_init example_tiny) "a" = Ok [mkHit 0 [0; 2]] /\
  nth_error example_files 0 = Some ("a.txt", "a b a") /\
  nth_error (words "a b a") (Z.to_nat 2) = Some "a".
Proof.
  split; [reflexivity|]. split; [reflexivity|]. split; [reflexivity|].
  apply (offsets_are_occurrences little example_files example_tiny "a"
           [mkHit 0 [0; 2]] 0 "a.txt" "a b a" 2 eq_refl eq_refl eq_refl).
  exists (mkHit 0 [0; 2]). split; [now left|]. split; [reflexivity|].
  right; left; reflexivity.
Defined.

(** ** The size of the blob *)

Lemma total_app (l1 l2 : list Z) : total (l1 ++ l2) = total l1 + total l2.
Proof.
  unfold total. induction l1 as [|a l1 IH]; cbn [app fold_right]; [reflexivity|].
  rewrite IH. lia.
Qed.

Lemma total_cons (a : Z) (l : list Z) : total (a :: l) = a + total l.
Proof. reflexivity. Qed.

Lemma len_flat_map {A B : Type} (f : A -> list B) (l : list A) :
  len (flat_map f l) = total (map (fun x => len (f x)) l).
Proof.
  induction l as [|a l IH]; [reflexivity|].
  cbn [flat_map map]. rewrite total_cons, <- IH.
  unfold len. rewrite length_app. lia.
Qed.

Lemma total_map_add {A : Type} (f g : A -> Z) (l : list A) :
  total (map (fun x => f x + g x) l) = total (map f l) + total (map g l).
Proof.
  induction l as [|a l IH]; [reflexivity|].
  cbn [map]. rewrite !total_cons, IH. lia.
Qed.

Lemma total_map_scale {A : Type} (k : Z) (f : A -> Z) (l : list A) :
  total (map (fun x => k * f x) l) = k * total (map f l).
Proof.
  induction l as [|a l IH]; [cbn; lia|].
  cbn [map]. rewrite !total_cons, IH. lia.
Qed.

Lemma total_map_zero {A : Type} (l : list A) : total (map (fun _ => 0) l) = 0.
Proof. induction l as [|a l IH]; [reflexivity|]. cbn [map]. now rewrite total_cons, IH. Qed.

Lemma total_swap {A B : Type} (g : A -> B -> Z) (la : list A) (lb : list B) :
  total (map (fun a => total (map (g a) lb)) la)
  = total (map (fun b => total (map (fun a => g a b) la)) lb).
Proof.
  induction lb as [|b lb IH].
  - cbn [map]. apply total_map_zero.
  - cbn [map]. rewrite total_cons, <- IH.
    rewrite <- total_map_add. f_equal.
Qed.

Lemma encode_hits_len (bo : byteorder) (hits : list Hit) :
  len (encode_hits bo hits)
  = 8 * len hits + 4 * total (map (fun h => len h.(offsets)) hits).
Proof.
  unfold encode_hits. rewrite len_flat_map.
  induction hits as [|h hits IH]; [reflexivity|].
  cbn [map]. rewrite !total_cons, IH, posting_record_length.
  unfold len. cbn [List.length]. lia.
Qed.

Lemma one_match (x : string) (seen : list string) :
  NoDup seen -> In x seen ->
  total (map (fun w => if String.eqb x w then 1 else 0) seen) = 1.
Proof.
  induction 1 as [|a seen Ha Hnd IH]; intros Hin; [destruct Hin|].
  cbn [map]. rewrite total_cons.
  destruct (String.eqb_spec x a) as [->|Hne].
  - assert (E : total (map (fun w => if String.eqb a w then 1 else 0) seen) = 0).
    { clear IH Hin Hnd. induction seen as [|b seen IH]; [reflexivity|].
      cbn [map]. rewrite total_cons.
      destruct (String.eqb_spec a b) as [->|]; [exfalso; apply Ha; now left|].
      rewrite IH; [reflexivity|]. intros H. apply Ha. now right. }
    rewrite E. reflexivity.
  - destruct Hin as [->|Hin]; [congruence|]. now rewrite IH.
Qed.

(** Over the distinct words, the positions of all of them are as many as
    the tokens. *)
Lemma positions_count (seen : list string) (ws : list string) :
  NoDup seen -> incl ws seen ->
  forall i, total (map (fun w => len (positions_from i w ws)) seen) = len ws.
Proof.
  intros Hnd. induction ws as [|x ws IH]; intros Hincl i.
  - cbn [positions_from]. apply total_map_zero.
  - rewrite (map_ext _ (fun w => (if String.eqb x w then 1 else 0)
                                 + len (positions_from (i + 1) w ws))).
    + rewrite total_map_add, one_match, IH; trivial.
      * unfold len. cbn [List.length]. lia.
      * intros y Hy. apply Hincl. now right.
      * apply Hincl. now left.
    + intros w. cbn [positions_from].
      destruct (String.eqb x w); unfold len; cbn [List.length]; lia.
Qed.

Lemma postings_from_offsets (files : list (string * string)) (w : string) :
  forall i,
    total (map (fun h => len h.(offsets)) (postings_from i files w))
    = total (map (fun file : string * string =>
                    len (positions w (words (snd file)))) files).
Proof.
  induction files as [|[path text] files IH]; intros i; [reflexivity|].
  cbn [postings_from map snd]. rewrite map_app, total_app, total_cons, IH.
  f_equal. destruct (occurs w (words text)) eqn:E; cbn [map offsets].
  - rewrite total_cons. cbn. lia.
  - rewrite positions_from_0, positions_from_absent by assumption. reflexivity.
Qed.

(** X10. [index.dat] holds 8 bytes for every posting and 4 bytes for every
    token of every document: each occurrence of a word is recorded once,
    in the postings list of that word, and nothing else is written. *)
Theorem blob_size (bo : byteorder) (files : list (string * string)) (t : TinyDir) :
  make_index bo files = Ok t ->
  len t.(index_dat)
  = 8 * total (map (fun w => len (postings files w)) (first_seen (corpus files)))
    + 4 * total (map snd t.(documents_csv)) /\
  total (map snd t.(documents_csv)) = len (corpus files).
Proof.
  intros Hm.
  apply make_index_Ok in Hm as (index & Hdocs & Hdat & _ & Hkeys & Hget & _).
  assert (Hnd : NoDup (keys index)).
  { rewrite Hkeys. apply NoDup_fold_add_key. constructor. }
  assert (Hitems : forall w hits, In (w, hits) index -> hits = postings files w).
  { intros w hits Hin.
    apply (In_dict_get String.eqb String.eqb_eq) in Hin; [|assumption].
    specialize (Hget w). unfold dict_get_default in Hget.
    now rewrite Hin in Hget. }
  assert (Hsizes : total (map snd (documents_csv t)) = len (corpus files)).
  { rewrite Hdocs, map_map. cbn [snd]. unfold corpus. now rewrite len_flat_map. }
  split; [|exact Hsizes].
  rewrite Hdat, (blocks_of_postings bo (postings files) index Hitems), Hkeys.
  rewrite len_flat_map.
  rewrite (map_ext _ (fun w => 8 * len (postings files w)
                               + 4 * total (map (fun h => len h.(offsets))
                                              (postings files w))))
    by (intros w; apply encode_hits_len).
  rewrite total_map_add, !total_map_scale. f_equal. f_equal.
  rewrite Hsizes.
  rewrite (map_ext _ (fun w => total (map (fun file : string * string =>
                                             len (positions w (words (snd file))))
                                          files)))
    by (intros w; rewrite postings_from_0; apply postings_from_offsets).
  rewrite total_swap. unfold corpus. rewrite len_flat_map.
  clear Hsizes Hdocs.
  assert (Hall : forall file, In file files ->
            total (map (fun w => len (positions w (words (snd file))))
                     (first_seen (flat_map (fun f => words (snd f)) files)))
            = len (words (snd file))).
  { intros file Hin.
    rewrite (map_ext _ (fun w => len (positions_from 0 w (words (snd file)))))
      by (intros w; now rewrite positions_from_0).
    apply positions_count.
    - apply NoDup_fold_add_key. constructor.
    - intros w Hw. unfold first_seen. apply In_fold_add_key. right.
      apply in_flat_map. now exists file. }
  clear Hkeys Hget Hitems.
  revert Hall. generalize (first_seen (flat_map (fun f => words (snd f)) files)).
  intros seen Hall. induction files as [|file files IH]; [reflexivity|].
  cbn [map]. rewrite !total_cons, Hall by now left. f_equal.
  apply IH. intros f Hf. apply Hall. now right.
Qed.

Lemma blob_size_witness :
  make_index little example_files = Ok example_tiny /\
  len example_tiny.(index_dat) = 8 * 4 + 4 * 5.
Proof.
  split; [reflexivity|].
  destruct (blob_size little example_files example_tiny eq_refl) as [H _].
  exact H.
Defined.

(** ** Loading the tables *)

(** X11. [Index.__init__] keeps, for a word that the table of terms names
    in several rows, the byte range of the last of them, and no range for a
    word that no row names. *)
Theorem Index_init_last_row (tiny_dir : TinyDir) (w : string) :
  dict_get String.eqb w (Index_init tiny_dir).(terms)
  = last_entry w tiny_dir.(terms_csv).
Proof.
  unfold Index_init. cbn [terms].
  assert (G : forall rows acc,
             dict_get String.eqb w
               (fold_left
                  (fun terms (row : string * Z * Z) =>
                     let '(word, start, length) := row in
                     dict_set String.eqb word (start, length) terms)
                  rows acc)
             = match last_entry w rows with
               | Some range => Some range
               | None => dict_get String.eqb w acc
               end).
  { induction rows as [|[[word start] length] rows IH]; intros acc;
      cbn [fold_left last_entry]; [reflexivity|].
    rewrite IH. destruct (last_entry w rows); [reflexivity|].
    destruct (String.eqb_spec w word) as [->|Hne].
    - apply (dict_get_set_same String.eqb String.eqb_eq).
    - apply (dict_get_set_other String.eqb String.eqb_eq). congruence. }
  rewrite G. now destruct (last_entry w (terms_csv tiny_dir)).
Qed.

(** ** Reading postings from any file *)

Lemma le_value_bound (bs : list byte) :
  (List.length bs <= 4)%nat -> 0 <= le_value bs <= uint32_max.
Proof.
  unfold uint32_max.
  destruct bs as [|a [|b [|c [|d [|e bs]]]]]; cbn [List.length]; try lia;
    intros _; unfold le_value; cbn [fold_right];
    repeat match goal with
    | |- context [Z_of_byte ?x] =>
        lazymatch goal with
        | _ : 0 <= Z_of_byte x < 256 |- _ => fail
        | _ => pose proof (Z_of_byte_range x)
        end
    end; lia.
Qed.

Lemma uint_value_fits (bo : byteorder) (bs : list byte) :
  (List.length bs <= 4)%nat -> fits_uint32 (uint_value bo bs) = true.
Proof.
  intros H. apply fits_uint32_iff. destruct bo; unfold uint_value.
  - now apply le_value_bound.
  - apply le_value_bound. now rewrite length_rev.
Qed.

Lemma items_of_bytes_fit (bo : byteorder) (n : nat) :
  forall bs, Forall (fun o => fits_uint32 o = true) (items_of_bytes bo n bs).
Proof.
  induction n as [|n IH]; intros bs; cbn [items_of_bytes]; constructor.
  - apply uint_value_fits. rewrite length_firstn. lia.
  - apply IH.
Qed.

Lemma unpack_fits (bo : byteorder) (bs : list byte) (a b : Z) :
  unpack_II bo bs = Ok (a, b) -> fits_uint32 a = true /\ fits_uint32 b = true.
Proof.
  unfold unpack_II.
  destruct (Nat.eqb_spec (List.length bs) 8) as [E|]; [|discriminate].
  intros H.
  assert (Ea : a = uint_value bo (firstn 4 bs)) by congruence.
  assert (Eb : b = uint_value bo (skipn 4 bs)) by congruence.
  subst a b. split; apply uint_value_fits.
  - rewrite length_firstn. lia.
  - rewrite length_skipn. lia.
Qed.

Lemma frombytes_fits (bo : byteorder) (bs : list byte) (a : array_I) :
  frombytes bo bs = Ok a -> Forall (fun o => fits_uint32 o = true) a.
Proof.
  unfold frombytes. set (q := Nat.div (List.length bs) 4).
  destruct (List.length bs mod 4 =? 0)%nat; [|discriminate].
  intros H. assert (E : a = items_of_bytes bo q bs) by congruence.
  subst a. apply items_of_bytes_fit.
Qed.

Lemma read_hits_fits (bo : byteorder) (bytes : list byte) :
  forall fuel read_pos acc hits,
    read_hits fuel bo bytes read_pos acc = Ok hits ->
    Forall hit_fits acc -> Forall hit_fits hits.
Proof.
  assert (Hexit : forall read_pos acc hits,
             read_hits_exit bytes read_pos acc = Ok hits ->
             Forall hit_fits acc -> Forall hit_fits hits).
  { intros read_pos acc hits H. unfold read_hits_exit in H.
    destruct (read_pos =? len bytes); [now injection H as <- | discriminate]. }
  induction fuel as [|fuel IH]; intros read_pos acc hits H Hacc;
    cbn [read_hits] in H; [now apply (Hexit read_pos acc)|].
  destruct (read_pos <? len bytes); [|now apply (Hexit read_pos acc)].
  bind_inv H. destruct a as [d c]. bind_inv H. rename a into offs.
  apply (IH _ _ _ H). apply Forall_app. split; [exact Hacc|].
  constructor; [|constructor].
  destruct (unpack_fits bo _ _ _ Ha) as [Hd Hc].
  apply unpack_Ok in Ha as (_ & _ & _ & Hc0).
  pose proof (frombytes_fits bo _ _ Ha0) as Hoffs.
  apply frombytes_Ok in Ha0 as [Hlen _].
  repeat split; cbn [doc_id offsets]; trivial.
  apply fits_uint32_iff. apply fits_uint32_iff in Hc.
  assert (Hs : len (slice bytes (read_pos + 8) (read_pos + 8 + 4 * c)) <= 4 * c).
  { unfold slice, len. rewrite length_firstn. lia. }
  unfold len in *. lia.
Qed.

(** X12. Whatever the loaded index, the postings that [lookup] returns are
    exactly what the bytes it read encode: packing them again gives those
    bytes, byte for byte, and every document id, count and offset is in
    the range of a 32-bit unsigned integer (no document id is negative). *)
Theorem lookup_is_exact (bo : byteorder) (self : Index) (word : string)
    (start length : Z) (hits : list Hit) :
  dict_get String.eqb word self.(terms) = Some (start, length) ->
  lookup bo self word = Ok hits ->
  Forall hit_fits hits /\
  exists bytes,
    seek_read self.(index_file) start length = Ok bytes /\
    pack_hits bo hits [] = Ok bytes.
Proof.
  intros Ht H. unfold lookup in H. rewrite Ht in H. bind_inv H.
  rename a into bytes.
  pose proof (read_hits_fits bo bytes _ _ _ _ H (Forall_nil _)) as Hfit.
  split; [exact Hfit|]. exists bytes. split; [assumption|].
  apply read_hits_exact in H as (new & -> & _ & E); [|lia].
  cbn [Z.to_nat skipn app] in *. rewrite E.
  rewrite pack_hits_fits; [reflexivity|].
  apply Forall_forall. intros h Hh. rewrite Forall_forall in Hfit.
  destruct (Hfit _ Hh) as (H1 & H2 & _). now split.
Qed.

Lemma lookup_is_exact_witness :
  dict_get String.eqb "b" (Index_init example_tiny).(terms) = Some (16, 24) /\
  lookup little (Index_init example_tiny) "b" = Ok [mkHit 0 [1]; mkHit 1 [0]] /\
  Forall hit_fits [mkHit 0 [1]; mkHit 1 [0]].
Proof.
  split; [reflexivity|]. split; [reflexivity|].
  exact (proj1 (lookup_is_exact little (Index_init example_tiny) "b" 16 24 _
                  eq_refl eq_refl)).
Defined.

(** Records that fit are read one after the other, whatever follows them. *)
Lemma read_hits_prefix (bo : byteorder) (hits : list Hit) :
  Forall hit_fits hits ->
  forall pre tail acc fuel,
    len (encode_hits bo hits ++ tail) <= Z.of_nat fuel ->
    read_hits fuel bo (pre ++ encode_hits bo hits ++ tail) (len pre) acc
    = read_hits fuel bo (pre ++ encode_hits bo hits ++ tail)
        (len pre + len (encode_hits bo hits)) (acc ++ hits).
Proof.
  induction 1 as [|h hits (Hd & Hn & Ho) _ IH]; intros pre tail acc fuel Hfuel.
  - cbn [encode_hits flat_map app]. unfold len at 3. cbn [List.length].
    now rewrite Z.add_0_r, app_nil_r.
  - pose proof (posting_record_length bo h) as Hrec.
    assert (Hlen : len (encode_hits bo (h :: hits))
                   = len (posting_record bo h) + len (encode_hits bo hits)).
    { change (encode_hits bo (h :: hits))
        with (posting_record bo h ++ encode_hits bo hits).
      unfold len. rewrite length_app. lia. }
    assert (Hnn : 0 <= len pre) by (unfold len; lia).
    rewrite read_hits_unfold.
    2: exact Hnn.
    2:{ unfold len in *. rewrite !length_app in *. lia. }
    assert (Hlt : len pre < len (pre ++ encode_hits bo (h :: hits) ++ tail)).
    { unfold len in *. rewrite !length_app. lia. }
    apply Z.ltb_lt in Hlt. rewrite Hlt. clear Hlt.
    rewrite Hlen.
    change (encode_hits bo (h :: hits))
      with (posting_record bo h ++ encode_hits bo hits) in *.
    assert (Ebytes : pre ++ (posting_record bo h ++ encode_hits bo hits) ++ tail
                     = pre ++ (uint_bytes bo (doc_id h)
                               ++ uint_bytes bo (len (offsets h)))
                           ++ tobytes bo (offsets h)
                           ++ encode_hits bo hits ++ tail).
    { unfold posting_record, tobytes. now rewrite <- !app_assoc. }
    rewrite Ebytes.
    rewrite slice_app
      by (trivial; unfold len; rewrite !length_app, !uint_bytes_length; lia).
    rewrite unpack_pack by assumption. cbn [bind fst snd].
    rewrite (app_assoc pre).
    rewrite slice_app.
    2:{ unfold len. rewrite !length_app, !uint_bytes_length. lia. }
    2:{ rewrite tobytes_length. unfold len.
        rewrite !length_app, !uint_bytes_length. lia. }
    rewrite frombytes_tobytes by assumption. cbn [bind].
    rewrite <- (app_assoc pre), <- Ebytes.
    replace (pre ++ (posting_record bo h ++ encode_hits bo hits) ++ tail)
      with ((pre ++ posting_record bo h) ++ encode_hits bo hits ++ tail)
      by now rewrite <- !app_assoc.
    replace (len pre + 8 + 4 * len (offsets h))
      with (len (pre ++ posting_record bo h))
      by (unfold len in *; rewrite length_app; lia).
    rewrite IH.
    2:{ unfold len in *. rewrite !length_app in *. lia. }
    rewrite <- app_assoc. cbn [app].
    replace (mkHit (doc_id h) (offsets h)) with h by now destruct h.
    f_equal.
    + unfold len in *. rewrite !length_app. lia.
    + now rewrite <- app_assoc.
Qed.

Lemma read_hits_records (bo : byteorder) (hits : list Hit) (tail : list byte)
    (fuel : nat) :
  Forall hit_fits hits ->
  len (encode_hits bo hits ++ tail) <= Z.of_nat fuel ->
  read_hits fuel bo (encode_hits bo hits ++ tail) 0 []
  = read_hits fuel bo (encode_hits bo hits ++ tail)
      (len (encode_hits bo hits)) hits.
Proof.
  intros Hfit Hfuel.
  exact (read_hits_prefix bo hits Hfit [] tail [] fuel Hfuel).
Qed.

(** X13. Random access: when the table of terms gives a word the place of
    the block that [make_index]'s packing loop wrote for some postings,
    [lookup] returns those postings, whatever the rest of the file holds
    before and after the block. *)
Theorem lookup_reads_its_block (bo : byteorder) (self : Index) (word : string)
    (hits : list Hit) (block before after : list byte) :
  pack_hits bo hits [] = Ok block ->
  Forall (fun h => Forall (fun o => fits_uint32 o = true) h.(offsets)) hits ->
  self.(index_file) = before ++ block ++ after ->
  dict_get String.eqb word self.(terms) = Some (len before, len block) ->
  lookup bo self word = Ok hits.
Proof.
  intros Hpack Hoffs Hfile Hterm.
  apply pack_hits_Ok in Hpack as (-> & Hhdr). cbn [app] in *.
  unfold lookup. rewrite Hterm, Hfile.
  assert (Hread : seek_read (before ++ encode_hits bo hits ++ after)
                    (len before) (len (encode_hits bo hits))
                  = Ok (encode_hits bo hits)).
  { unfold seek_read, len.
    destruct (Z.ltb_spec (Z.of_nat (List.length before)) 0); [lia|].
    destruct (Z.ltb_spec (Z.of_nat (List.length (encode_hits bo hits))) (-1));
      [lia|].
    destruct (Z.ltb_spec (Z.of_nat (List.length (encode_hits bo hits))) 0); [lia|].
    rewrite !Nat2Z.id, skipn_app_exact, firstn_app_exact; reflexivity. }
  rewrite Hread. cbn [bind].
  apply (read_hits_encode bo hits) with (pre := @nil byte) (acc := @nil Hit).
  - apply Forall_forall. intros h Hh. rewrite Forall_forall in Hhdr, Hoffs.
    destruct (Hhdr _ Hh) as [H1 H2]. repeat split; trivial. now apply Hoffs.
  - apply encode_hits_length.
Qed.

Lemma lookup_reads_its_block_witness :
  pack_hits big [mkHit 7 [1; 4]] []
  = Ok [x00; x00; x00; x07; x00; x00; x00; x02;
        x00; x00; x00; x01; x00; x00; x00; x04] /\
  lookup big
    (mkIndex ([xff; xff; xff]
              ++ [x00; x00; x00; x07; x00; x00; x00; x02;
                  x00; x00; x00; x01; x00; x00; x00; x04] ++ [xff])
             [] [("w", (3, 16))])
    "w"
  = Ok [mkHit 7 [1; 4]].
Proof.
  split; [reflexivity|].
  apply (lookup_reads_its_block big _ "w" [mkHit 7 [1; 4]]
           [x00; x00; x00; x07; x00; x00; x00; x02;
            x00; x00; x00; x01; x00; x00; x00; x04] [xff; xff; xff] [xff]).
  - reflexivity.
  - repeat constructor.
  - reflexivity.
  - reflexivity.
Defined.

(** X14. Bytes left over after the last whole record are an error: when
    what [lookup] read is a sequence of whole records followed by one to
    seven more bytes, [lookup] raises [struct.error]. *)
Theorem lookup_stray_bytes (bo : byteorder) (self : Index) (word : string)
    (start length : Z) (hits : list Hit) (stray : list byte) :
  dict_get String.eqb word self.(terms) = Some (start, length) ->
  seek_read self.(index_file) start length = Ok (encode_hits bo hits ++ stray) ->
  Forall hit_fits hits ->
  (0 < List.length stray < 8)%nat ->
  lookup bo self word = Raise StructError.
Proof.
  intros Hterm Hread Hfit Hstray. unfold lookup. rewrite Hterm, Hread.
  cbn [bind].
  rewrite (read_hits_records bo hits stray) by (trivial; unfold len; lia).
  rewrite read_hits_unfold.
  2: unfold len; lia.
  2: unfold len; lia.
  assert (Hlt : len (encode_hits bo hits) < len (encode_hits bo hits ++ stray)).
  { unfold len. rewrite length_app. lia. }
  apply Z.ltb_lt in Hlt. rewrite Hlt.
  assert (Hs : slice (encode_hits bo hits ++ stray)
                 (len (encode_hits bo hits)) (len (encode_hits bo hits) + 8)
               = stray).
  { unfold slice, len. rewrite skipn_app_exact by lia.
    apply firstn_all2. lia. }
  rewrite Hs. unfold unpack_II.
  destruct (Nat.eqb_spec (List.length stray) 8); [lia | reflexivity].
Qed.

Lemma lookup_stray_bytes_witness :
  lookup little
    (mkIndex (encode_hits little [mkHit 0 [0]] ++ [x01; x02; x03]) []
             [("a", (0, 15))])
    "a"
  = Raise StructError.
Proof.
  apply (lookup_stray_bytes little _ "a" 0 15 [mkHit 0 [0]] [x01; x02; x03]).
  - reflexivity.
  - reflexivity.
  - repeat constructor.
  - cbn [List.length]. lia.
Defined.

(** X15. A count that runs past the end of what was read is an error: when
    the last header announces more offsets than there are bytes left,
    [lookup] raises [AssertionError] if the bytes left are a whole number
    of offsets, and [ValueError] (from [frombytes]) if they are not. It
    never returns the shortened posting. *)
Theorem lookup_overrun (bo : byteorder) (self : Index) (word : string)
    (start length : Z) (hits : list Hit) (d c : Z) (rest : list byte) :
  dict_get String.eqb word self.(terms) = Some (start, length) ->
  seek_read self.(index_file) start length
  = Ok (encode_hits bo hits ++ uint_bytes bo d ++ uint_bytes bo c ++ rest) ->
  Forall hit_fits hits ->
  fits_uint32 d = true -> fits_uint32 c = true ->
  len rest < 4 * c ->
  lookup bo self word
  = Raise (if (List.length rest mod 4 =? 0)%nat then AssertionError
           else ValueError).
Proof.
  intros Hterm Hread Hfit Hd Hc Hrest. unfold lookup. rewrite Hterm, Hread.
  cbn [bind].
  set (tail := uint_bytes bo d ++ uint_bytes bo c ++ rest).
  assert (Htail : len tail = 8 + len rest).
  { unfold tail, len. rewrite !length_app, !uint_bytes_length. lia. }
  rewrite (read_hits_records bo hits tail) by (trivial; unfold len; lia).
  set (bytes := encode_hits bo hits ++ tail).
  assert (Hbytes : len bytes = len (encode_hits bo hits) + 8 + len rest).
  { unfold bytes, len in *. rewrite length_app. lia. }
  assert (Hnn : 0 <= len (encode_hits bo hits)) by (unfold len; lia).
  assert (Hrn : 0 <= len rest) by (unfold len; lia).
  rewrite read_hits_unfold; [|lia|unfold len; lia].
  assert (Hlt : len (encode_hits bo hits) < len bytes) by lia.
  apply Z.ltb_lt in Hlt. rewrite Hlt. clear Hlt.
  assert (Hs : slice bytes (len (encode_hits bo hits))
                 (len (encode_hits bo hits) + 8)
               = uint_bytes bo d ++ uint_bytes bo c).
  { unfold bytes, tail.
    rewrite (app_assoc (uint_bytes bo d)).
    replace (encode_hits bo hits ++ (uint_bytes bo d ++ uint_bytes bo c) ++ rest)
      with (encode_hits bo hits ++ (uint_bytes bo d ++ uint_bytes bo c) ++ rest)
      by reflexivity.
    apply slice_app; [reflexivity|].
    unfold len. rewrite length_app, !uint_bytes_length. lia. }
  rewrite Hs, unpack_pack by assumption. cbn [bind fst snd].
  assert (Hr : slice bytes (len (encode_hits bo hits) + 8)
                 (len (encode_hits bo hits) + 8 + 4 * c)
               = rest).
  { unfold slice, bytes, tail.
    rewrite !app_assoc.
    rewrite skipn_app_exact
      by (unfold len; rewrite !length_app, !uint_bytes_length; lia).
    apply firstn_all2. unfold len in *. lia. }
  rewrite Hr. unfold frombytes.
  destruct (List.length rest mod 4 =? 0)%nat; cbn [bind]; [|reflexivity].
  rewrite read_hits_unfold; [|lia|unfold len; lia].
  destruct (Z.ltb_spec (len (encode_hits bo hits) + 8 + 4 * c) (len bytes)); [lia|].
  unfold read_hits_exit.
  destruct (Z.eqb_spec (len (encode_hits bo hits) + 8 + 4 * c) (len bytes));
    [lia | reflexivity].
Qed.

Lemma lookup_overrun_witness :
  lookup little
    (mkIndex (encode_hits little [mkHit 0 [0]]
              ++ uint_bytes little 1 ++ uint_bytes little 3
              ++ [x05; x00; x00; x00])
             [] [("a", (0, 24))])
    "a"
  = Raise AssertionError.
Proof.
  apply (lookup_overrun little _ "a" 0 24 [mkHit 0 [0]] 1 3 [x05; x00; x00; x00]).
  - reflexivity.
  - reflexivity.
  - repeat constructor.
  - reflexivity.
  - reflexivity.
  - reflexivity.
Defined.

(** X16. The loop of [lookup] ends on its own condition: the number of
    turns that the embedding allows it, the length of the bytes read, is
    never what stops it, since any larger number of turns gives the same
    result. *)
Theorem lookup_loop_ends (bo : byteorder) (bytes : list byte) (more : nat) :
  read_hits (List.length bytes + more) bo bytes 0 []
  = read_hits (List.length bytes) bo bytes 0 [].
Proof. apply read_hits_fuel; unfold len; lia. Qed.

(** ** Words and their documents *)

(** X17. On a built index [lookup] returns the empty list exactly for the
    words that are a token of no document. *)
Theorem lookup_empty_iff_absent (bo : byteorder) (files : list (string * string))
    (t : TinyDir) (w : string) (hits : list Hit) :
  make_index bo files = Ok t ->
  lookup bo (Index_init t) w = Ok hits ->
  (hits = [] <-> ~ In w (corpus files)).
Proof.
  intros Hm Hl.
  rewrite (lookup_make_index bo files t w Hm) in Hl. injection Hl as <-.
  split.
  - intros E Hw. now apply (postings_nonempty files w Hw).
  - intros Hw. destruct (postings files w) as [|h hs] eqn:E; [reflexivity|].
    exfalso. apply Hw.
    assert (Hh : In h (postings files w)) by (rewrite E; now left).
    rewrite postings_from_0 in Hh.
    apply postings_from_In in Hh as (n & path & text & Hn & Ho & _).
    apply corpus_In. exists n, path, text. split; [exact Hn|].
    now apply occurs_In.
Qed.

Lemma lookup_empty_iff_absent_witness :
  make_index little example_files = Ok example_tiny /\
  lookup little (Index_init example_tiny) "B" = Ok [] /\
  ~ In "B" (corpus example_files).
Proof.
  split; [reflexivity|]. split; [reflexivity|].
  apply (lookup_empty_iff_absent little example_files example_tiny "B" []
           eq_refl eq_refl).
  reflexivity.
Defined.

(** ** [search] on a built index *)

Lemma postings_from_length (files : list (string * string)) (w : string) :
  forall i, len (postings_from i files w) <= len files.
Proof.
  unfold len. induction files as [|[path text] files IH]; intros i;
    cbn [postings_from List.length]; [lia|].
  rewrite length_app. specialize (IH (i + 1)).
  destruct (occurs w (words text)); cbn [List.length]; lia.
Qed.

Lemma score_hits_built {F : Float} (bo : byteorder)
    (files : list (string * string)) (t : TinyDir) (self : Index)
    (w : string) (idf : float) :
  make_index bo files = Ok t -> Index_open t = Ok self ->
  forall hits scores,
    incl hits (postings files w) ->
    exists scores', score_hits self idf hits scores = Ok scores'.
Proof.
  intros Hm Ho. pose proof (lookup_open bo files t self w Hm Ho) as Hl.
  induction hits as [|h hits IH]; intros scores Hincl; cbn [score_hits].
  - eauto.
  - destruct (posting_document_open bo files t self w _ h Hm Ho Hl
                (Hincl h (or_introl eq_refl)))
      as (n & path & text & _ & Hw & _ & Hdoc).
    unfold score_hit. rewrite Hdoc. cbn [bind size].
    destruct (Z.eqb_spec (len (words text)) 0) as [E|_].
    + unfold len in E. destruct (words text); [destruct Hw | discriminate].
    + cbn [bind]. apply IH. intros x Hx. apply Hincl. now right.
Qed.

Lemma postings_corpus (files : list (string * string)) (w : string) :
  postings files w <> [] <-> In w (corpus files).
Proof.
  split; [|apply postings_nonempty].
  intros Hne. destruct (postings files w) as [|h hs] eqn:E; [contradiction|].
  assert (Hh : In h (postings files w)) by (rewrite E; now left).
  rewrite postings_from_0 in Hh.
  apply postings_from_In in Hh as (n & path & text & Hn & Hocc & _).
  apply corpus_In. exists n, path, text. split; [exact Hn|].
  now apply occurs_In.
Qed.

(** X18. On a built index that has loaded, [search] returns exactly when
    [math.log(1 / df)] returns for the [df] of every word of the query
    that is in the documents: nothing else in [search] raises, neither the
    division by [len(self.documents)] nor the division by the size of a
    document nor the subscripts of [self.documents]. *)
Theorem search_returns (F : Float) (bo : byteorder)
    (files : list (string * string)) (t : TinyDir) (self : Index)
    (query : string) :
  make_index bo files = Ok t ->
  Index_open t = Ok self ->
  (exists results, search bo self query = Ok results) <->
  (forall w,
      In w (words query) -> In w (corpus files) ->
      exists idf,
        inverse_log (int_truediv (len (postings files w)) (len files))
        = Ok idf).
Proof.
  intros Hm Ho.
  pose proof (open_documents_len bo files t self Hm Ho) as Hlen.
  split.
  - intros (results & H).
    apply search_Ok in H as (scores & Hs & _).
    revert Hs. generalize (@nil (Z * float)) as scores0.
    induction (words query) as [|x ws IH]; intros scores0 Hs w Hin Hw;
      [destruct Hin|].
    cbn [score_words] in Hs. bind_inv Hs. rename a into scores1.
    destruct Hin as [->|Hin]; [|exact (IH _ Hs w Hin Hw)].
    apply score_word_Ok in Ha as (hits & Hl & Hcase).
    rewrite (lookup_open bo files t self w Hm Ho) in Hl. injection Hl as <-.
    destruct Hcase as [[E _]|(_ & _ & idf & Hidf & _)].
    + now apply postings_nonempty in Hw.
    + exists idf. now rewrite <- Hlen.
  - intros Hlog.
    assert (Hs : forall ws scores,
               (forall w, In w ws -> In w (words query)) ->
               exists scores', score_words bo self ws scores = Ok scores').
    { induction ws as [|w ws IH]; intros scores Hws; cbn [score_words];
        [eauto|].
      assert (Hrest : forall x, In x ws -> In x (words query))
        by (intros x Hx; apply Hws; now right).
      unfold score_word. rewrite (lookup_open bo files t self w Hm Ho).
      cbn [bind].
      destruct (postings files w) as [|h hs] eqn:E; cbn [bind];
        [now apply IH|].
      rewrite Hlen.
      pose proof (postings_from_length files w 0) as Hle.
      rewrite <- postings_from_0, E in Hle.
      assert (Hpos : 0 < len (h :: hs)) by (unfold len; cbn [List.length]; lia).
      destruct (Z.eqb_spec (len files) 0); [lia|].
      assert (Hw : In w (corpus files)).
      { apply postings_corpus. rewrite E. discriminate. }
      destruct (Hlog w (Hws w (or_introl eq_refl)) Hw) as (idf & Hidf).
      rewrite E in Hidf. rewrite Hidf. cbn [bind].
      destruct (score_hits_built bo files t self w idf Hm Ho (h :: hs) scores)
        as (scores' & ->); [rewrite E; apply incl_refl|].
      cbn [bind]. now apply IH. }
    destruct (Hs (words query) [] (fun w H => H)) as (scores & Hscores).
    exact (search_total bo self query scores Hscores).
Qed.

Lemma search_returns_witness :
  make_index little files2 = Ok tiny2 /\
  Index_open tiny2 = Ok (Index_init tiny2) /\
  exists results,
    @search real_arithmetic little (Index_init tiny2) "b or not B" = Ok results.
Proof.
  split; [reflexivity|]. split; [reflexivity|].
  apply (search_returns real_arithmetic little files2 tiny2 (Index_init tiny2)
           "b or not B" eq_refl eq_refl).
  intros w _ Hw. exists (ln (1 / (IZR (len (postings files2 w)) / IZR (len files2)))).
  apply inverse_log_real.
  apply postings_corpus in Hw.
  pose proof (postings_from_length files2 w 0) as Hle.
  rewrite <- postings_from_0 in Hle.
  assert (0 < len (postings files2 w)).
  { unfold len. destruct (postings files2 w); [contradiction|].
    cbn [List.length]. lia. }
  apply Rdiv_pos_pos; apply IZR_lt; lia.
Defined.

Lemma NoDup_firstn {A : Type} (n : nat) (l : list A) :
  NoDup l -> NoDup (firstn n l).
Proof.
  revert n. induction l as [|a l IH]; intros [|n] H; cbn [firstn];
    try constructor.
  - inversion H as [|? ? Ha _]; subst. intros Hin. apply Ha.
    now apply In_firstn in Hin.
  - apply IH. now inversion H.
Qed.

(** X19. [search] returns a document at most once, however many words of
    the query it holds: the returned pairs come from pairwise different
    document ids and, on an index built from files whose names are
    pairwise different once the text layer has read them, their paths are
    pairwise different. *)
Theorem search_no_duplicates (F : Float) (bo : byteorder) (self : Index)
    (query : string) (results : list (string * float)) :
  search bo self query = Ok results ->
  (exists ranked,
      NoDup (map fst ranked) /\ Forall2 (named_as self) ranked results) /\
  (forall files t,
      make_index bo files = Ok t -> Index_open t = Ok self ->
      NoDup (map (fun file => universal_newlines (fst file)) files) ->
      NoDup (map fst results)).
Proof.
  intros H. apply search_Ok in H as (scores & Hs & Hnamed).
  pose proof (score_words_documents bo self _ _ Hs) as [Hnd _].
  assert (Hids : NoDup (map fst (firstn 10 (sorted_reverse scores)))).
  { rewrite <- firstn_map. apply NoDup_firstn.
    apply (Permutation_NoDup (l := map fst scores)); [|exact Hnd].
    apply Permutation_map, Permutation_sym, sorted_reverse_Permutation. }
  split; [now exists (firstn 10 (sorted_reverse scores))|].
  intros files t Hm Ho Hpaths.
  assert (Hfile : forall p, In p (firstn 10 (sorted_reverse scores)) ->
            exists n path text,
              fst p = Z.of_nat n /\ nth_error files n = Some (path, text) /\
              list_getitem self.(documents) (fst p)
              = Ok (mkDocument (universal_newlines path) (len (words text)))).
  { intros [d s] Hp. cbn [fst]. apply In_firstn in Hp.
    apply (Permutation_in _ (sorted_reverse_Permutation scores)) in Hp.
    apply score_words_keys in Hs as (Hk & _).
    assert (Hd : In d (keys scores)).
    { unfold keys. change d with (fst (d, s)). now apply in_map. }
    apply Hk in Hd as [[]|(w & hits & h & _ & Hl & Hh & <-)].
    destruct (posting_document_open bo files t self w hits h Hm Ho Hl Hh)
      as (n & path & text & Hn & _ & -> & Hdoc).
    now exists n, path, text. }
  clear Hs Hnd. revert Hnamed Hids Hfile.
  generalize (firstn 10 (sorted_reverse scores)) as ranked.
  intros ranked Hnamed.
  induction Hnamed as [|p r ranked' results' Hpr Hrest IH]; intros Hids Hfile;
    [constructor|].
  cbn [map] in *. inversion Hids as [|? ? Hfresh Hids']; subst.
  constructor.
  - intros Hin. apply in_map_iff in Hin as (r' & Er & Hr').
    destruct (Forall2_In_r _ _ _ _ Hrest Hr') as (p' & Hp' & (doc' & Hdoc' & ->)).
    destruct Hpr as (doc & Hdoc & ->). cbn [fst] in Er.
    destruct (Hfile p (or_introl eq_refl)) as (n & path & text & En & Hn & Hd).
    destruct (Hfile p' (or_intror Hp')) as (n' & path' & text' & En' & Hn' & Hd').
    rewrite Hdoc in Hd. injection Hd as ->.
    rewrite Hdoc' in Hd'. injection Hd' as ->.
    cbn [filename] in Er.
    assert (n = n').
    { apply (NoDup_nth_error
               (map (fun file => universal_newlines (fst file)) files)); trivial.
      - apply nth_error_Some. rewrite nth_error_map, Hn. discriminate.
      - rewrite !nth_error_map, Hn, Hn'. cbn [option_map fst]. now rewrite Er. }
    subst n'. apply Hfresh. rewrite En, <- En'. now apply in_map.
  - apply IH; trivial. intros q Hq. apply Hfile. now right.
Qed.

Lemma search_no_duplicates_witness :
  @search real_arithmetic little (Index_init tiny2) "a b" = Ok results_a_b /\
  make_index little files2 = Ok tiny2 /\
  Index_open tiny2 = Ok (Index_init tiny2) /\
  NoDup (map (fun file => universal_newlines (fst file)) files2) /\
  NoDup (map fst results_a_b).
Proof.
  assert (Hnd : NoDup (map (fun file => universal_newlines (fst file)) files2)).
  { repeat constructor; cbn [In]; intros H; repeat destruct H as [H|H];
      try discriminate; assumption. }
  split; [exact search_a_b|]. split; [reflexivity|]. split; [reflexivity|].
  split; [exact Hnd|].
  exact (proj2 (search_no_duplicates real_arithmetic little (Index_init tiny2)
                  "a b" results_a_b search_a_b)
           files2 tiny2 eq_refl eq_refl Hnd).
Defined.

(** ** Documents of equal score *)

Lemma precedes_In {A : Type} (a b : A) (l : list A) :
  precedes a b l -> In a l /\ In b l.
Proof.
  induction 1 as [l Hb|x l _ [Ha Hb]]; split;
    try (now left); try (now right).
Qed.

Lemma insert_reverse_precedes_new {F : Float} (a b : Z * float)
    (l : list (Z * float)) :
  In b l -> float_ltb (snd a) (snd b) = false ->
  precedes a b (insert_reverse a l).
Proof.
  intros Hb Hab. induction l as [|q l IH]; [destruct Hb|].
  cbn [insert_reverse]. destruct (float_ltb (snd a) (snd q)) eqn:E.
  - apply precedes_later. apply IH.
    destruct Hb as [->|Hb]; [congruence | exact Hb].
  - now apply precedes_here.
Qed.

Lemma insert_reverse_precedes_old {F : Float} (p a b : Z * float)
    (l : list (Z * float)) :
  precedes a b l -> precedes a b (insert_reverse p l).
Proof.
  induction 1 as [l Hb|x l H IH]; cbn [insert_reverse].
  - destruct (float_ltb (snd p) (snd a)).
    + apply precedes_here. apply In_insert_reverse. now right.
    + apply precedes_later. now apply precedes_here.
  - destruct (float_ltb (snd p) (snd x)).
    + now apply precedes_later.
    + apply precedes_later. now apply precedes_later.
Qed.

Lemma sorted_reverse_stable {F : Float} (a b : Z * float) (l : list (Z * float)) :
  precedes a b l -> float_ltb (snd a) (snd b) = false ->
  precedes a b (sorted_reverse l).
Proof.
  intros H Hab. induction H as [l Hb|x l H IH];
    cbn [sorted_reverse fold_right]; fold (sorted_reverse l).
  - apply insert_reverse_precedes_new; [|exact Hab].
    now apply (Permutation_in _ (Permutation_sym (sorted_reverse_Permutation l))).
  - now apply insert_reverse_precedes_old.
Qed.

Lemma Forall2_precedes {A B : Type} (R : A -> B -> Prop) (l : list A)
    (l' : list B) (a b : A) :
  Forall2 R l l' -> precedes a b l ->
  exists a' b', R a a' /\ R b b' /\ precedes a' b' l'.
Proof.
  intros H. induction H as [|x y l l' Hxy Hrest IH]; intros Hp;
    inversion Hp as [l0 Hb|x0 l0 Hp']; subst.
  - destruct (Forall2_In_l _ _ _ _ Hrest Hb) as (b' & Hb' & Rb).
    exists y, b'. repeat split; trivial. now apply precedes_here.
  - destruct (IH Hp') as (a' & b' & Ra & Rb & Hp'').
    exists a', b'. repeat split; trivial. now apply precedes_later.
Qed.

(** X20. Ties keep the order of first scoring: when no more than 10
    documents were scored and a document was scored before another whose
    score is not greater, it is returned before that other one; documents
    of equal score come out in the order in which the query first reached
    them. *)
Theorem ties_keep_scoring_order (F : Float) (bo : byteorder) (self : Index)
    (query : string) (scores : dict Z float) (results : list (string * float))
    (a b : Z * float) :
  score_words bo self (words query) [] = Ok scores ->
  search bo self query = Ok results ->
  (List.length scores <= 10)%nat ->
  precedes a b scores ->
  float_ltb (snd a) (snd b) = false ->
  exists ra rb,
    named_as self a ra /\ named_as self b rb /\ precedes ra rb results.
Proof.
  intros Hs H Hlen Hp Hab.
  apply search_Ok in H as (scores' & Hs' & Hnamed).
  rewrite Hs in Hs'. injection Hs' as <-.
  pose proof (Permutation_length (sorted_reverse_Permutation scores)) as Hl.
  rewrite firstn_all2 in Hnamed by lia.
  apply (Forall2_precedes _ _ _ _ _ Hnamed).
  now apply sorted_reverse_stable.
Qed.

Lemma ties_keep_scoring_order_witness :
  @score_words real_arithmetic little (Index_init tiny2) (words "A") []
  = Ok scores_a /\
  exists ra rb,
    @named_as real_arithmetic (Index_init tiny2)
      (0, (0 + 1000 / 2 * ln (1 / (2 / 2)))%R) ra /\
    @named_as real_arithmetic (Index_init tiny2)
      (1, (0 + 1000 / 1 * ln (1 / (2 / 2)))%R) rb /\
    exists results,
      @search real_arithmetic little (Index_init tiny2) "A" = Ok results /\
      precedes ra rb results.
Proof.
  assert (Hs : @score_words real_arithmetic little (Index_init tiny2) (words "A") []
               = Ok scores_a) by exact score_words_a.
  split; [exact Hs|].
  destruct (@search_total real_arithmetic little (Index_init tiny2) "A"
              scores_a Hs)
    as (results & Hr).
  destruct (ties_keep_scoring_order real_arithmetic little (Index_init tiny2)
              "A" scores_a results
              (0, (0 + 1000 / 2 * ln (1 / (2 / 2)))%R)
              (1, (0 + 1000 / 1 * ln (1 / (2 / 2)))%R) Hs Hr)
    as (ra & rb & Ha & Hb & Hp).
  - cbn [scores_a List.length]. lia.
  - apply precedes_here. now left.
  - cbn [snd float_ltb real_arithmetic].
    destruct (Rlt_dec _ _) as [Hlt|]; [|reflexivity].
    exfalso. replace (1 / (2 / 2))%R with 1%R in Hlt by lra.
    rewrite ln_1 in Hlt. lra.
  - exists ra, rb. split; [exact Ha|]. split; [exact Hb|].
    exists results. split; [exact Hr | exact Hp].
Defined.

(** ** Words that are in every document *)

Lemma postings_from_all (files : list (string * string)) (w : string) :
  (forall path text, In (path, text) files -> In w (words text)) ->
  forall i, len (postings_from i files w) = len files.
Proof.
  unfold len. induction files as [|[path text] files IH]; intros Hall i;
    cbn [postings_from List.length]; [reflexivity|].
  assert (Ho : occurs w (words text) = true).
  { apply occurs_In. apply (Hall path text). now left. }
  rewrite Ho. cbn [app List.length].
  rewrite Nat2Z.inj_succ, (IH (fun p t H => Hall p t (or_intror H)) (i + 1)).
  lia.
Qed.

Section ZeroWeight.
Context {F : Float}.

Lemma In_dict_set (d k : Z) (s v : float) (scores : dict Z float) :
  In (d, s) (dict_set Z.eqb k v scores) -> (d, s) = (k, v) \/ In (d, s) scores.
Proof.
  induction scores as [|[k' v'] scores IH]; cbn [dict_set In].
  - intros [H|[]]. left. now symmetry.
  - destruct (Z.eqb_spec k k') as [->|Hne]; cbn [In].
    + intros [H|H]; [left; now symmetry | right; now right].
    + intros [H|H]; [right; now left|].
      destruct (IH H) as [E|Hin]; [now left | right; now right].
Qed.

Lemma get_default_zero (k : Z) (scores : dict Z float) :
  (forall d s, In (d, s) scores -> s = float_zero) ->
  dict_get_default Z.eqb float_zero k scores = float_zero.
Proof.
  intros Hz. unfold dict_get_default.
  destruct (dict_get Z.eqb k scores) as [v|] eqn:E; [|reflexivity].
  apply (dict_get_In Z.eqb Z.eqb_eq) in E. exact (Hz k v E).
Qed.

(** The laws of the arithmetic that make the weight of a word of every
    document vanish: the product of a quotient of counts and [0.0] is
    [0.0], and so is the sum of [0.0] and [0.0]. *)
Hypothesis mul_zero :
  forall a b, 0 <= a -> 0 < b ->
              float_mul (int_truediv a b) float_zero = float_zero.
Hypothesis add_zero : float_add float_zero float_zero = float_zero.

Lemma score_hits_zero_idf (self : Index) (hits : list Hit) :
  forall scores scores',
    (forall d s, In (d, s) scores -> s = float_zero) ->
    Forall (fun hit => forall doc,
                list_getitem self.(documents) hit.(doc_id) = Ok doc ->
                0 < doc.(size)) hits ->
    score_hits self float_zero hits scores = Ok scores' ->
    forall d s, In (d, s) scores' -> s = float_zero.
Proof.
  induction hits as [|h hits IH]; intros scores scores' Hz Hsz H;
    cbn [score_hits] in H.
  - now injection H as <-.
  - bind_inv H. apply score_hit_Ok in Ha as (doc & Hdoc & _ & ->).
    inversion Hsz as [|? ? Hh Hrest]; subst.
    eapply IH; [|exact Hrest|exact H]. intros d s Hin.
    apply In_dict_set in Hin as [E|Hin]; [|exact (Hz d s Hin)].
    injection E as -> ->.
    rewrite (get_default_zero _ _ Hz). unfold tf_idf.
    rewrite mul_zero; [exact add_zero | unfold len; lia | exact (Hh doc Hdoc)].
Qed.

End ZeroWeight.

(** X21. A word that is in every document weighs nothing: its [df] is
    [n / n] and its [idf] is [log 1 = 0]. On a built index that has
    loaded, a query whose words are each in every document returns all
    its results with the score [0.0], in any arithmetic in which
    [n / n = 1] for a count [n], [1 / 1 = 1], [log 1 = 0], the product of
    a quotient of counts and [0.0] is [0.0], and [0.0 + 0.0 = 0.0]. *)
Theorem common_words_score_zero (F : Float) (bo : byteorder)
    (files : list (string * string)) (t : TinyDir) (self : Index)
    (query : string) (results : list (string * float)) :
  (forall n, 0 < n -> int_truediv n n = float_of_int 1) ->
  float_div (float_of_int 1) (float_of_int 1) = float_of_int 1 ->
  float_log (float_of_int 1) = float_zero ->
  (forall a b, 0 <= a -> 0 < b ->
               float_mul (int_truediv a b) float_zero = float_zero) ->
  float_add float_zero float_zero = float_zero ->
  make_index bo files = Ok t ->
  Index_open t = Ok self ->
  (forall w path text,
      In w (words query) -> In (path, text) files -> In w (words text)) ->
  search bo self query = Ok results ->
  forall path score, In (path, score) results -> score = float_zero.
Proof.
  intros Hnn H11 Hlog1 Hmul Hadd Hm Ho Hall H path score Hin.
  apply search_Ok in H as (scores & Hs & Hnamed).
  destruct (Forall2_In_r _ _ _ _ Hnamed Hin) as ([d s] & Hp & (doc & _ & E)).
  cbn [snd] in E. injection E as _ Es. rewrite Es. clear Es Hin.
  apply In_firstn in Hp.
  apply (Permutation_in _ (sorted_reverse_Permutation scores)) in Hp.
  revert d s Hp.
  assert (G : forall ws scores0 scores1,
             (forall w, In w ws -> In w (words query)) ->
             (forall d s, In (d, s) scores0 -> s = float_zero) ->
             score_words bo self ws scores0 = Ok scores1 ->
             forall d s, In (d, s) scores1 -> s = float_zero).
  { induction ws as [|w ws IH]; intros scores0 scores1 Hws Hz H;
      cbn [score_words] in H; [now injection H as <-|].
    bind_inv H. rename a into scores'.
    apply (IH scores' scores1); trivial; [intros x Hx; apply Hws; now right|].
    apply score_word_Ok in Ha as (hits & Hl & Hcase).
    pose proof Hl as Hl'.
    rewrite (lookup_open bo files t self w Hm Ho) in Hl. injection Hl as <-.
    destruct Hcase as [[_ ->]|(Hne & Hdocs & idf & Hidf & Hhits)]; [exact Hz|].
    rewrite (open_documents_len bo files t self Hm Ho) in Hidf, Hdocs.
    rewrite postings_from_0, postings_from_all in Hidf
      by (intros p tx Hp; apply (Hall w p tx); trivial; apply Hws; now left).
    assert (Hn : 0 < len files) by (unfold len in *; lia).
    apply inverse_log_Ok in Hidf.
    rewrite (Hnn _ Hn), H11, Hlog1 in Hidf. subst idf.
    apply (score_hits_zero_idf Hmul Hadd self (postings files w) scores0 scores');
      trivial.
    apply Forall_forall. intros h Hh doc0 Hdoc0.
    destruct (posting_document_open bo files t self w _ h Hm Ho Hl' Hh)
      as (n & p & tx & _ & Hw & _ & Hdoc').
    rewrite Hdoc0 in Hdoc'. injection Hdoc' as ->. cbn [size].
    unfold len. destruct (words tx); [destruct Hw | cbn [List.length]; lia]. }
  apply (G (words query) [] scores); trivial. intros d s [].
Qed.

Lemma common_words_score_zero_witness :
  make_index little files2 = Ok tiny2 /\
  Index_open tiny2 = Ok (Index_init tiny2) /\
  exists results,
    @search real_arithmetic little (Index_init tiny2) "A" = Ok results /\
    forall path score, In (path, score) results -> score = 0%R.
Proof.
  split; [reflexivity|]. split; [reflexivity|].
  destruct (@search_total real_arithmetic little (Index_init tiny2) "A"
              scores_a score_words_a) as (results & Hr).
  exists results. split; [exact Hr|].
  apply (common_words_score_zero real_arithmetic little files2 tiny2
           (Index_init tiny2) "A" results).
  - intros n Hn. change (IZR n / IZR n = 1)%R.
    apply IZR_lt in Hn. field. lra.
  - change (1 / 1 = 1)%R. lra.
  - exact ln_1.
  - intros a b _ _. change (IZR a / IZR b * 0 = 0)%R. lra.
  - change (0 + 0 = 0)%R. lra.
  - reflexivity.
  - reflexivity.
  - intros w path text Hw Hin.
    destruct Hw as [<-|[]].
    destruct Hin as [E|[E|[]]]; injection E as <- <-; now left.
  - exact Hr.
Defined.

(** ** A term of the index as a query *)

Lemma search_b_returns :
  exists results,
    @search real_arithmetic little (Index_init tiny2) "b" = Ok results.
Proof.
  assert (Hs : exists scores,
             @score_words real_arithmetic little (Index_init tiny2) (words "b") []
             = Ok scores).
  { eexists. change (words "b") with ["b"]. score_by_hand. }
  destruct Hs as (scores & Hs).
  exact (@search_total real_arithmetic little (Index_init tiny2) "b" scores Hs).
Qed.

(** X22. Build-time and query-time tokenization agree: on a built index
    that has loaded, the query made of one token of the documents is never
    without result; [search] returns as many documents as hold the token,
    up to 10, and when no more than 10 documents hold it each of them is
    returned, under the name that the text layer gives. *)
Theorem term_query_finds_documents (F : Float) (bo : byteorder)
    (files : list (string * string)) (t : TinyDir) (self : Index) (w : string)
    (results : list (string * float)) :
  make_index bo files = Ok t ->
  Index_open t = Ok self ->
  In w (corpus files) ->
  search bo self w = Ok results ->
  results <> [] /\
  List.length results = Nat.min 10 (List.length (postings files w)) /\
  ((List.length (postings files w) <= 10)%nat ->
   forall n path text,
     nth_error files n = Some (path, text) -> In w (words text) ->
     exists score, In (universal_newlines path, score) results).
Proof.
  intros Hm Ho Hw H.
  assert (Hwords : words w = [w]).
  { apply corpus_In in Hw as (n & path & text & _ & Hin).
    exact (token_words text w Hin). }
  apply search_Ok in H as (scores & Hs & Hnamed).
  rewrite Hwords in Hs. cbn [score_words] in Hs. bind_inv Hs.
  injection Hs as <-. rename a into scores.
  apply score_word_Ok in Ha as (hits & Hl & Hcase).
  rewrite (lookup_open bo files t self w Hm Ho) in Hl. injection Hl as <-.
  pose proof (postings_nonempty files w Hw) as Hne.
  destruct Hcase as [[E _]|(_ & _ & idf & _ & Hhits)]; [congruence|].
  apply score_hits_Ok in Hhits as (Hk & Hnd & _).
  assert (Hperm : Permutation (keys scores) (map doc_id (postings files w))).
  { apply NoDup_Permutation.
    - apply Hnd. constructor.
    - rewrite postings_from_0. apply postings_from_NoDup.
    - intros d. rewrite Hk. cbn [keys map In]. tauto. }
  assert (Hlen : List.length scores = List.length (postings files w)).
  { apply Permutation_length in Hperm. unfold keys in Hperm.
    now rewrite !length_map in Hperm. }
  pose proof (Forall2_length Hnamed) as Hres.
  rewrite length_firstn in Hres.
  pose proof (Permutation_length (sorted_reverse_Permutation scores)) as Hl.
  assert (Hpos : (0 < List.length (postings files w))%nat).
  { destruct (postings files w); [congruence | cbn [List.length]; lia]. }
  split; [|split].
  - intros E. rewrite E in Hres. cbn [List.length] in Hres. lia.
  - lia.
  - intros Hle n path text Hn Hin.
    assert (Hd : In (Z.of_nat n) (keys scores)).
    { apply Hk. right. apply in_map_iff.
      exists (mkHit (0 + Z.of_nat n) (positions w (words text))).
      split; [reflexivity|]. rewrite postings_from_0.
      apply postings_from_In. exists n, path, text.
      repeat split; trivial. now apply occurs_In. }
    unfold keys in Hd. apply in_map_iff in Hd as ([d s] & Ed & Hp).
    cbn [fst] in Ed. subst d.
    destruct (all_returned self scores results) as (_ & Hall);
      [lia | exact Hnamed |].
    destruct (Hall _ Hp) as (r & Hr & (doc & Hdoc & ->)).
    cbn [fst snd] in *.
    rewrite (open_document bo files t self n path text Hm Ho Hn) in Hdoc.
    injection Hdoc as <-. cbn [filename] in Hr.
    now exists s.
Qed.

Lemma term_query_finds_documents_witness :
  make_index little files2 = Ok tiny2 /\
  Index_open tiny2 = Ok (Index_init tiny2) /\
  In "b" (corpus files2) /\
  exists results,
    @search real_arithmetic little (Index_init tiny2) "b" = Ok results /\
    results <> [].
Proof.
  split; [reflexivity|]. split; [reflexivity|].
  assert (Hw : In "b" (corpus files2)) by (right; left; reflexivity).
  split; [exact Hw|].
  destruct search_b_returns as (results & Hr).
  exists results. split; [exact Hr|].
  exact (proj1 (term_query_finds_documents real_arithmetic little files2 tiny2
                  (Index_init tiny2) "b" results eq_refl eq_refl Hw Hr)).
Defined.

(** ** Indexing more documents *)

Lemma postings_from_app (files more : list (string * string)) (w : string) :
  forall i,
    postings_from i (files ++ more) w
    = postings_from i files w ++ postings_from (i + len files) more w.
Proof.
  induction files as [|[path text] files IH]; intros i; cbn [app postings_from].
  - unfold len. cbn [List.length Z.of_nat]. now rewrite Z.add_0_r.
  - rewrite IH, <- app_assoc. do 3 f_equal.
    unfold len. cbn [List.length]. lia.
Qed.

(** X23. Documents that come later in the order of discovery change
    nothing for the earlier ones: in the index of [files ++ more], the
    rows of the documents of [files] are those of the index of [files],
    and the postings list of every word starts with its postings list in
    the index of [files], followed by postings of the later documents
    only. *)
Theorem later_documents_append (bo : byteorder)
    (files more : list (string * string)) (t t' : TinyDir) (w : string)
    (hits hits' : list Hit) :
  make_index bo files = Ok t ->
  make_index bo (files ++ more) = Ok t' ->
  lookup bo (Index_init t) w = Ok hits ->
  lookup bo (Index_init t') w = Ok hits' ->
  firstn (List.length files) t'.(documents_csv) = t.(documents_csv) /\
  exists later,
    hits' = hits ++ later /\
    Forall (fun h => len files <= h.(doc_id)) later.
Proof.
  intros Hm Hm' Hl Hl'.
  rewrite (lookup_make_index bo files t w Hm) in Hl. injection Hl as <-.
  rewrite (lookup_make_index bo (files ++ more) t' w Hm') in Hl'.
  injection Hl' as <-.
  apply make_index_Ok in Hm as (_ & Hdocs & _).
  apply make_index_Ok in Hm' as (_ & Hdocs' & _).
  split.
  - rewrite Hdocs, Hdocs', map_app.
    apply firstn_app_exact. now rewrite length_map.
  - exists (postings_from (len files) more w). split.
    + rewrite !postings_from_0. apply (postings_from_app files more w 0).
    + apply Forall_forall. intros h Hh.
      apply postings_from_In in Hh as (n & path & text & _ & _ & ->).
      cbn [doc_id]. lia.
Qed.

Lemma later_documents_append_witness :
  make_index little files2 = Ok tiny2 /\
  (exists t', make_index little (files2 ++ [("c.txt", "b a")]) = Ok t') /\
  lookup little (Index_init tiny2) "b" = Ok [mkHit 0 [1]] /\
  exists later,
    [mkHit 0 [1]; mkHit 2 [0]] = [mkHit 0 [1]] ++ later /\
    Forall (fun h => len files2 <= h.(doc_id)) later.
Proof.
  split; [reflexivity|]. split; [eexists; reflexivity|].
  split; [reflexivity|].
  exact (proj2 (later_documents_append little files2 [("c.txt", "b a")]
                  tiny2 _ "b" [mkHit 0 [1]] [mkHit 0 [1]; mkHit 2 [0]]
                  eq_refl eq_refl eq_refl eq_refl)).
Defined.
